(** * Realtime voice-agent session manager: codec, directive parser,
      playback scheduler, session state machine and call dedup.

    Shallow embedding of
      - [src/unnamed/part_000]  (the hook [useElevenLabsAgent] and its
        helpers [float32ToInt16], [int16ToBase64], [base64ToFloat32]);
      - [src/components/EmergencyCoach.tsx] ([parseAssistantMessage] and the
        call-trigger effect of the component [EmergencyCoach]);
      - [src/app/api/call-contact/route.ts] (the telephony route with
        [escapeXml], and the logging route);
      - [src/hooks/useElevenLabsAgent.ts] (the hook on the vendor SDK).

    Conventions.
      - A JavaScript string is the list of its UTF-16 code units ([list N]).
      - A JavaScript number is a [number]: NaN, the two infinities or a
        finite value carried as the rational it denotes.
      - Mutable refs and React state cells are fields of an explicit state
        record; every callback is a function on that record.
      - What the browser is asked to do (devices, sockets, console, audio
        sources) is appended to a trace held in the state. *)

From Stdlib Require Import ZArith NArith QArith Qround Qabs Lqa Lia List Ascii String.
From Stdlib Require DecimalString DecimalN DecimalPos.
From stdpp Require Import base option list gmap sets.
Import ListNotations.

Local Open Scope N_scope.

(* ===================================================================== *)
(** ** JavaScript strings                                                 *)
(* ===================================================================== *)

Module JS.

(** A string value: the sequence of its 16-bit code units. *)
Definition jsstring : Type := list N.

Definition ch (a : ascii) : N := N_of_ascii a.

(** Embedding of an ASCII literal of the source. *)
Definition js (s : string) : jsstring := List.map ch (list_ascii_of_string s).

(** [s.startsWith(pat)] *)
Fixpoint startsWith (s pat : jsstring) : bool :=
  match pat, s with
  | [], _ => true
  | p :: pat', c :: s' => (c =? p) && startsWith s' pat'
  | _ :: _, [] => false
  end.

(** [s.includes(pat)] *)
Fixpoint includes (s pat : jsstring) : bool :=
  startsWith s pat ||
  match s with
  | [] => false
  | _ :: s' => includes s' pat
  end.

(** [s.replace(pat, repl)] with a string pattern: only the first
    occurrence is replaced. *)
Fixpoint replace (s pat repl : jsstring) : jsstring :=
  if startsWith s pat then repl ++ skipn (length pat) s
  else match s with
       | [] => []
       | c :: s' => c :: replace s' pat repl
       end.

(** Code units removed by [trim]: WhiteSpace and LineTerminator of
    ECMA-262 (TAB, VT, FF, SP, NBSP, ZWNBSP, the Zs category, LF, CR, LS,
    PS). *)
Definition isWhiteSpace (c : N) : bool :=
  (c =? 9) || (c =? 10) || (c =? 11) || (c =? 12) || (c =? 13) || (c =? 32)
  || (c =? 160) || (c =? 5760) || ((8192 <=? c) && (c <=? 8202))
  || (c =? 8232) || (c =? 8233) || (c =? 8239) || (c =? 8287)
  || (c =? 12288) || (c =? 65279).

Fixpoint trimStart (s : jsstring) : jsstring :=
  match s with
  | [] => []
  | c :: s' => if isWhiteSpace c then trimStart s' else s
  end.

Definition trimEnd (s : jsstring) : jsstring := rev (trimStart (rev s)).

(** [s.trim()] *)
Definition trim (s : jsstring) : jsstring := trimEnd (trimStart s).

(** [s.split(sep)] for a one-unit separator; never returns the empty
    array (["".split(";")] is [[""]]). *)
Fixpoint split (sep : N) (s : jsstring) : list jsstring :=
  match s with
  | [] => [[]]
  | c :: s' =>
      if c =? sep then [] :: split sep s'
      else match split sep s' with
           | h :: t => (c :: h) :: t
           | [] => [[c]]
           end
  end.

(** [parts.join(sep)] *)
Fixpoint join (sep : jsstring) (parts : list jsstring) : jsstring :=
  match parts with
  | [] => []
  | [x] => x
  | x :: rest => x ++ sep ++ join sep rest
  end.

(** [x || dflt] on strings: the empty string is the only falsy one. *)
Definition orElse (x dflt : jsstring) : jsstring :=
  match x with
  | [] => dflt
  | _ => x
  end.

(** Truthiness of an optional string ([undefined] and [""] are falsy). *)
Definition truthy (x : option jsstring) : bool :=
  match x with
  | Some (_ :: _) => true
  | _ => false
  end.

End JS.

(* ===================================================================== *)
(** ** Directive parser ([src/components/EmergencyCoach.tsx], l. 14-58)   *)
(* ===================================================================== *)

Module Parser.
Import JS.

Record ParsedResource : Type := mkResource {
  label : jsstring;
  description : jsstring
}.

Record ParsedMessage : Type := mkParsed {
  text : jsstring;
  resources : list ParsedResource;
  triggerCall : bool
}.

Definition CALL_EMERGENCY_CONTACT : jsstring := js "[[CALL_EMERGENCY_CONTACT]]".
Definition LINKS : jsstring := js "[[LINKS]]".

(** The regular expression [/\[\[LINKS\]\](.+)$/s] run on [t]: start
    positions are tried from the left; at a position the literal must be
    there and, [.] matching every unit under the [s] flag and [$] being
    the end of input without the [m] flag, be followed by at least one
    unit. The result is the text before the match and capture group 1
    (everything after the literal). *)
Fixpoint matchLinks (t : jsstring) : option (jsstring * jsstring) :=
  let here :=
    if startsWith t LINKS then
      match skipn (length LINKS) t with
      | [] => None
      | c :: r => Some ([], c :: r)
      end
    else None in
  match here with
  | Some m => Some m
  | None =>
      match t with
      | [] => None
      | c :: t' =>
          match matchLinks t' with
          | Some (before, captured) => Some (c :: before, captured)
          | None => None
          end
      end
  end.

(** One item of the links section:
    [const [label, ...descParts] = part.split(":")]. *)
Definition parseResource (part : jsstring) : ParsedResource :=
  match split (ch ":") part with
  | lbl :: descParts =>
      {| label := orElse (trim lbl) (js "Resource");
         description := orElse (trim (join (js ":") descParts)) [] |}
  | [] => {| label := js "Resource"; description := [] |}
  end.

Definition nonBlank (p : jsstring) : bool :=
  match trim p with
  | [] => false
  | _ => true
  end.

Definition parseAssistantMessage (rawText : jsstring) : ParsedMessage :=
  let '(text1, trigger) :=
    if startsWith rawText CALL_EMERGENCY_CONTACT
    then (trim (replace rawText CALL_EMERGENCY_CONTACT []), true)
    else (rawText, false) in
  match matchLinks text1 with
  | Some (before, captured) =>
      let linksSection := trim captured in
      let resourceParts := List.filter nonBlank (split (ch ";") linksSection) in
      {| text := trim before;
         resources := List.map parseResource resourceParts;
         triggerCall := trigger |}
  | None => {| text := text1; resources := []; triggerCall := trigger |}
  end.

End Parser.

(* ===================================================================== *)
(** ** Audio codec utility ([src/unnamed/part_000], l. 46-81)             *)
(* ===================================================================== *)

Module Codec.
Import JS.

(** A JavaScript Number. A finite value is carried as the rational it
    denotes (the two zeros are not told apart: nothing below looks at the
    sign of a zero). The elements of a [Float32Array] are binary32 values,
    which are dyadic rationals with a 24-bit significand; on such values,
    of magnitude at most 1, every arithmetic step of the two conversions
    is exact in binary64 (a product by a 16-bit integer has at most 40
    significant bits, a quotient by [0x8000] only moves the exponent and
    has at most 16), so the rational operations below are the operations
    of the source and not an approximation of them. *)
Inductive number : Type :=
  | NaN
  | PosInf
  | NegInf
  | Fin (q : Q).

(** [Math.min(a, b)] and [Math.max(a, b)]: NaN if an argument is NaN. *)
Definition Math_min (a b : number) : number :=
  match a, b with
  | NaN, _ | _, NaN => NaN
  | NegInf, _ | _, NegInf => NegInf
  | PosInf, x | x, PosInf => x
  | Fin p, Fin q => if Qle_bool p q then Fin p else Fin q
  end.

Definition Math_max (a b : number) : number :=
  match a, b with
  | NaN, _ | _, NaN => NaN
  | PosInf, _ | _, PosInf => PosInf
  | NegInf, x | x, NegInf => x
  | Fin p, Fin q => if Qle_bool p q then Fin q else Fin p
  end.

(** [a < b]: false when an argument is NaN. *)
Definition lt (a b : number) : bool :=
  match a, b with
  | NaN, _ | _, NaN => false
  | _, NegInf => false
  | NegInf, _ => true
  | PosInf, _ => false
  | Fin _, PosInf => true
  | Fin p, Fin q => negb (Qle_bool q p)
  end.

(** [a * b] *)
Definition mul (a b : number) : number :=
  match a, b with
  | NaN, _ | _, NaN => NaN
  | Fin p, Fin q => Fin (p * q)
  | Fin p, PosInf | PosInf, Fin p =>
      match (p ?= 0)%Q with Eq => NaN | Gt => PosInf | Lt => NegInf end
  | Fin p, NegInf | NegInf, Fin p =>
      match (p ?= 0)%Q with Eq => NaN | Gt => NegInf | Lt => PosInf end
  | PosInf, PosInf | NegInf, NegInf => PosInf
  | PosInf, NegInf | NegInf, PosInf => NegInf
  end.

Definition ofZ (z : Z) : number := Fin (inject_Z z).

(** Rounding toward zero. *)
Definition truncate (q : Q) : Z :=
  if Qle_bool 0 q then Qfloor q else Qceiling q.

(** Reduction modulo 2^16 into the signed range. *)
Definition wrap16 (z : Z) : Z :=
  let m := (z mod 65536)%Z in
  if (32768 <=? m)%Z then (m - 65536)%Z else m.

(** The conversion ToInt16 applied by a store into an [Int16Array]:
    NaN and the infinities give 0, a finite value is truncated and
    wrapped. *)
Definition ToInt16 (x : number) : Z :=
  match x with
  | Fin q => wrap16 (truncate q)
  | _ => 0%Z
  end.

(** l. 49: [Math.max(-1, Math.min(1, v))] *)
Definition clamp (v : number) : number :=
  Math_max (ofZ (-1)) (Math_min (ofZ 1) v).

(** l. 50: the value handed to the store. *)
Definition scaleSample (v : number) : number :=
  let s := clamp v in
  if lt s (ofZ 0) then mul s (ofZ 0x8000) else mul s (ofZ 0x7fff).

Definition float32ToInt16 (float32Array : list number) : list Z :=
  List.map (fun v => ToInt16 (scaleSample v)) float32Array.

(** *** Base64 ([btoa] and [atob] of the HTML standard) *)

Definition b64Alphabet : jsstring :=
  js "ABCDEFGHIJKLMNOPQRSTUVWXYZabcdefghijklmnopqrstuvwxyz0123456789+/".

Definition PAD : N := ch "=".

Definition b64Char (v : N) : N := nth (N.to_nat v) b64Alphabet PAD.

Fixpoint indexOf (c : N) (l : jsstring) : option N :=
  match l with
  | [] => None
  | x :: l' => if c =? x then Some 0
               else match indexOf c l' with
                    | Some i => Some (N.succ i)
                    | None => None
                    end
  end.

Definition b64Val (c : N) : option N := indexOf c b64Alphabet.

(** The 6-bit groups of a byte sequence, the last group filled with
    zero bits. *)
Fixpoint sextets (bs : list N) : list N :=
  match bs with
  | a :: b :: c :: r =>
      a / 4 :: (a mod 4) * 16 + b / 16 :: (b mod 16) * 4 + c / 64 :: c mod 64
        :: sextets r
  | [a; b] => [a / 4; (a mod 4) * 16 + b / 16; (b mod 16) * 4]
  | [a] => [a / 4; (a mod 4) * 16]
  | [] => []
  end.

Definition padding (nbytes : nat) : jsstring :=
  match (nbytes mod 3)%nat with
  | 0%nat => []
  | 1%nat => [PAD; PAD]
  | _ => [PAD]
  end.

(** [btoa(s)]: throws (here [None]) on a code unit above 255. *)
Definition btoa (s : jsstring) : option jsstring :=
  if forallb (fun c => c <=? 255) s
  then Some (List.map b64Char (sextets s) ++ padding (length s))
  else None.

Definition isAsciiWhitespace (c : N) : bool :=
  (c =? 9) || (c =? 10) || (c =? 12) || (c =? 13) || (c =? 32).

(** Step 2 of forgiving-base64 decode: when the length is a multiple of
    four, one or two trailing [=] are removed. *)
Definition stripPadding (d : jsstring) : jsstring :=
  if (length d mod 4 =? 0)%nat then
    match rev d with
    | x :: y :: r =>
        if x =? PAD then (if y =? PAD then rev r else rev (y :: r)) else d
    | [x] => if x =? PAD then [] else d
    | [] => d
    end
  else d.

(** The bytes of a sequence of 6-bit groups; the bits left over at the
    end (4 after two groups, 2 after three) are discarded. *)
Fixpoint bytesOfSextets (v : list N) : list N :=
  match v with
  | a :: b :: c :: d :: r =>
      let n := ((a * 64 + b) * 64 + c) * 64 + d in
      n / 65536 :: (n / 256) mod 256 :: n mod 256 :: bytesOfSextets r
  | [a; b; c] =>
      let n := (a * 64 + b) * 64 + c in
      [n / 1024; (n / 4) mod 256]
  | [a; b] => [(a * 64 + b) / 16]
  | _ => []
  end.

Fixpoint traverse {A B : Type} (f : A -> option B) (l : list A) : option (list B) :=
  match l with
  | [] => Some []
  | x :: l' =>
      match f x, traverse f l' with
      | Some y, Some ys => Some (y :: ys)
      | _, _ => None
      end
  end.

(** [atob(s)]: forgiving-base64 decode; throws (here [None]) when the
    length leaves remainder 1 modulo 4 or when a unit is outside the
    alphabet. *)
Definition atob (s : jsstring) : option jsstring :=
  let d := stripPadding (List.filter (fun c => negb (isAsciiWhitespace c)) s) in
  if (length d mod 4 =? 1)%nat then None
  else match traverse b64Val d with
       | Some v => Some (bytesOfSextets v)
       | None => None
       end.

(** *** Typed-array views over one buffer.
    The byte order of a view is the platform's; it is a parameter. *)

Definition int16Bytes (littleEndian : bool) (i : Z) : list N :=
  let u := Z.to_N (i mod 65536) in
  if littleEndian then [u mod 256; u / 256] else [u / 256; u mod 256].

(** [new Uint8Array(int16Array.buffer)] *)
Definition uint8View (littleEndian : bool) (int16Array : list Z) : list N :=
  flat_map (int16Bytes littleEndian) int16Array.

(** [new Int16Array(bytes.buffer)]: a RangeError (here [None]) when the
    byte length is odd. *)
Fixpoint int16View (littleEndian : bool) (bytes : list N) : option (list Z) :=
  match bytes with
  | [] => Some []
  | [_] => None
  | b0 :: b1 :: r =>
      let u := if littleEndian then b0 + 256 * b1 else 256 * b0 + b1 in
      match int16View littleEndian r with
      | Some l => Some (wrap16 (Z.of_N u) :: l)
      | None => None
      end
  end.

(** l. 59-66: the bytes of the buffer, one code unit each, through
    [btoa]. *)
Definition int16ToBase64 (littleEndian : bool) (int16Array : list Z) : option jsstring :=
  btoa (uint8View littleEndian int16Array).

(** l. 69-75: the local [int16Array] of [base64ToFloat32]; a store into
    the [Uint8Array] keeps the low 8 bits. *)
Definition decodeInt16 (littleEndian : bool) (base64 : jsstring) : option (list Z) :=
  match atob base64 with
  | Some binary => int16View littleEndian (List.map (fun c => c mod 256) binary)
  | None => None
  end.

(** One element of the result: [int16Array[i] / 0x8000]. *)
Definition toFloat (i : Z) : number := Fin (i # 32768).

Definition base64ToFloat32 (littleEndian : bool) (base64 : jsstring) : option (list number) :=
  match decodeInt16 littleEndian base64 with
  | Some int16Array => Some (List.map toFloat int16Array)
  | None => None
  end.

(** The code units of a binary string. *)
Definition isByte (c : N) : Prop := c < 256.

(** What the decoder needs of the unit that encodes the group [v]: it
    decodes to [v], it is not white space, it is not the padding sign. *)
Definition tableOk (v : N) : bool :=
  match b64Val (b64Char v) with
  | Some w => w =? v
  | None => false
  end
  && negb (isAsciiWhitespace (b64Char v))
  && negb (b64Char v =? PAD).

(** The values an [Int16Array] element can hold. *)
Definition isInt16 (i : Z) : Prop := (-32768 <= i <= 32767)%Z.

(** The strings [int16ToBase64] produces. *)
Definition validEncoded (littleEndian : bool) (x : jsstring) : Prop :=
  exists b : list Z,
    Forall isInt16 b /\ int16ToBase64 littleEndian b = Some x.

(** The canonical encodings of RFC 4648: groups of four units of the
    alphabet, the last group possibly closed by one or two padding
    signs, in which case the bits of its last unit that carry no data
    are zero. *)
Definition isB64 (c : N) : bool :=
  match b64Val c with
  | Some _ => true
  | None => false
  end.

Definition valOf (c : N) : N :=
  match b64Val c with
  | Some v => v
  | None => 0
  end.

Fixpoint canonical (x : jsstring) : bool :=
  match x with
  | [] => true
  | a :: b :: c :: d :: r =>
      match r with
      | [] =>
          isB64 a && isB64 b
          && (if d =? PAD
              then (if c =? PAD then valOf b mod 16 =? 0
                    else isB64 c && (valOf c mod 4 =? 0))
              else isB64 c && isB64 d)
      | _ :: _ => isB64 a && isB64 b && isB64 c && isB64 d && canonical r
      end
  | _ => false
  end.

(** A canonical encoding of a whole number of 16-bit samples. *)
Definition wellFormed (x : jsstring) : bool :=
  canonical x
  && match atob x with
     | Some binary => Nat.even (length binary)
     | None => false
     end.

(** A sample through [float32ToInt16] and back through the division of
    [base64ToFloat32]. *)
Definition roundTrip (v : number) : number := toFloat (ToInt16 (scaleSample v)).

(** One quantization step of a 16-bit sample. *)
Definition quantum : Q := 1 # 32768.

(** The finite values of a [Float32Array] element. *)
Definition binary32 (q : Q) : Prop :=
  exists m e : Z,
    (Z.abs m < 2 ^ 24)%Z /\ (-149 <= e <= 104)%Z /\ q == inject_Z m * 2 ^ e.

End Codec.

(* ===================================================================== *)
(** ** The hook [useElevenLabsAgent] ([src/unnamed/part_000], l. 87-400)  *)
(* ===================================================================== *)

Module Agent.
Import JS Codec.

Inductive AgentStatus : Type :=
  | disconnected
  | connecting
  | connected
  | listening
  | speaking.

Inductive Role : Type := user | assistant.

Record TranscriptMessage : Type := mkMessage {
  id : jsstring;
  role : Role;
  text : jsstring
}.

(** A decoded audio segment (a [Float32Array]). *)
Definition segment : Type := list number.

(** [WebSocket.readyState] *)
Inductive ReadyState : Type := CONNECTING | OPEN | CLOSING | CLOSED.

(** Messages written to the transport. *)
Inductive outbound : Type :=
  | conversation_initiation_client_data
  | audio_out (base64Audio : jsstring)
  | user_message (text : jsstring)
  | pong.

(** What the hook asks of the browser, in the order it asks. *)
Inductive effect : Type :=
  | ConsoleLog
  | ConsoleError (message : jsstring)
  | GetUserMedia
  | NewAudioContext
  | NewPlaybackContext
  | NewWebSocket (agentId : jsstring)
  | WsSend (payload : outbound)
  | WsCloseCall
  | TrackStop
  | ProcessorDisconnect
  | AudioContextClose
  | PlaybackContextClose
  | SourceStart (chunk : segment)
  | SourceEnded (chunk : segment)
  | Uncaught.

(** The cells of the hook. A ref that holds a browser object is [true]
    (for the socket: its [readyState]), a null ref is [false] ([None]).
    [awaiting] is not a cell of the source: it lists the calls of
    [playAudioChunk] that are suspended at their [await], each with the
    chunk whose end it waits for. *)
Record state : Type := mkState {
  status : AgentStatus;
  messages : list TranscriptMessage;
  wsRef : option ReadyState;
  mediaStreamRef : bool;
  audioContextRef : bool;
  playbackContextRef : bool;
  audioQueueRef : list segment;
  isPlayingRef : bool;
  processorRef : bool;
  awaiting : list segment;
  trace : list effect
}.

Definition initial : state :=
  {| status := disconnected; messages := []; wsRef := None;
     mediaStreamRef := false; audioContextRef := false;
     playbackContextRef := false; audioQueueRef := []; isPlayingRef := false;
     processorRef := false; awaiting := []; trace := [] |}.

Definition setStatus (s : AgentStatus) (st : state) : state :=
  mkState s (messages st) (wsRef st) (mediaStreamRef st) (audioContextRef st)
    (playbackContextRef st) (audioQueueRef st) (isPlayingRef st)
    (processorRef st) (awaiting st) (trace st).

Definition setMessages (f : list TranscriptMessage -> list TranscriptMessage)
    (st : state) : state :=
  mkState (status st) (f (messages st)) (wsRef st) (mediaStreamRef st)
    (audioContextRef st) (playbackContextRef st) (audioQueueRef st)
    (isPlayingRef st) (processorRef st) (awaiting st) (trace st).

Definition setWs (w : option ReadyState) (st : state) : state :=
  mkState (status st) (messages st) w (mediaStreamRef st) (audioContextRef st)
    (playbackContextRef st) (audioQueueRef st) (isPlayingRef st)
    (processorRef st) (awaiting st) (trace st).

Definition setMediaStream (b : bool) (st : state) : state :=
  mkState (status st) (messages st) (wsRef st) b (audioContextRef st)
    (playbackContextRef st) (audioQueueRef st) (isPlayingRef st)
    (processorRef st) (awaiting st) (trace st).

Definition setAudioContext (b : bool) (st : state) : state :=
  mkState (status st) (messages st) (wsRef st) (mediaStreamRef st) b
    (playbackContextRef st) (audioQueueRef st) (isPlayingRef st)
    (processorRef st) (awaiting st) (trace st).

Definition setPlaybackContext (b : bool) (st : state) : state :=
  mkState (status st) (messages st) (wsRef st) (mediaStreamRef st)
    (audioContextRef st) b (audioQueueRef st) (isPlayingRef st)
    (processorRef st) (awaiting st) (trace st).

Definition setAudioQueue (q : list segment) (st : state) : state :=
  mkState (status st) (messages st) (wsRef st) (mediaStreamRef st)
    (audioContextRef st) (playbackContextRef st) q (isPlayingRef st)
    (processorRef st) (awaiting st) (trace st).

Definition setIsPlaying (b : bool) (st : state) : state :=
  mkState (status st) (messages st) (wsRef st) (mediaStreamRef st)
    (audioContextRef st) (playbackContextRef st) (audioQueueRef st) b
    (processorRef st) (awaiting st) (trace st).

Definition setProcessor (b : bool) (st : state) : state :=
  mkState (status st) (messages st) (wsRef st) (mediaStreamRef st)
    (audioContextRef st) (playbackContextRef st) (audioQueueRef st)
    (isPlayingRef st) b (awaiting st) (trace st).

Definition setAwaiting (l : list segment) (st : state) : state :=
  mkState (status st) (messages st) (wsRef st) (mediaStreamRef st)
    (audioContextRef st) (playbackContextRef st) (audioQueueRef st)
    (isPlayingRef st) (processorRef st) l (trace st).

Definition emit (e : effect) (st : state) : state :=
  mkState (status st) (messages st) (wsRef st) (mediaStreamRef st)
    (audioContextRef st) (playbackContextRef st) (audioQueueRef st)
    (isPlayingRef st) (processorRef st) (awaiting st) (trace st ++ [e]).

(** The template literal [`${n}`] of a non-negative integer. *)
Definition decimal (n : N) : jsstring :=
  js (DecimalString.NilZero.string_of_uint (N.to_uint n)).

(** *** Audio playback (l. 104-137) *)

(** The [while] loop of [playAudioChunk] from its test on: with an empty
    queue the loop is left and [isPlayingRef] is reset; otherwise the
    head is shifted ([if (!chunk) continue] never fires: a shifted chunk
    is an object, also when it has no sample). On a null
    [playbackContextRef] the property access throws; for a chunk of
    length zero [createBuffer(1, 0, SAMPLE_RATE)] throws
    [NotSupportedError] (a buffer has at least one frame). Either way
    the call ends there, its promise rejected and unhandled, and
    [isPlayingRef] stays as it is. For a chunk that has samples the Web
    Audio calls ([createBuffer], [createBufferSource], [connect],
    [start]) are taken to succeed on a live context: a source is
    started and the call suspends at its [await]. *)
Definition drain (st : state) : state :=
  match audioQueueRef st with
  | [] => setIsPlaying false st
  | chunk :: rest =>
      let st := setAudioQueue rest st in
      if playbackContextRef st
      then match chunk with
           | [] => emit Uncaught st
           | _ :: _ =>
               emit (SourceStart chunk) (setAwaiting (awaiting st ++ [chunk]) st)
           end
      else emit Uncaught st
  end.

(** [playAudioChunk(audioData)] up to its first suspension. *)
Definition playAudioChunk (audioData : segment) (st : state) : state :=
  let st :=
    if playbackContextRef st then st
    else emit NewPlaybackContext (setPlaybackContext true st) in
  let st := setAudioQueue (audioQueueRef st ++ [audioData]) st in
  if isPlayingRef st then st
  else drain (setIsPlaying true st).

(** [source.onended] of the [i]-th suspended call: the promise resolves
    and the call goes back to the test of its loop. An index that names
    no suspended call is an event that cannot happen. *)
Definition onended (i : nat) (st : state) : state :=
  match nth_error (awaiting st) i with
  | None => st
  | Some chunk =>
      drain (emit (SourceEnded chunk)
               (setAwaiting (firstn i (awaiting st) ++ skipn (S i) (awaiting st)) st))
  end.

(** *** Inbound messages (l. 143-218) *)

(** [JSON.parse(event.data)] as far as the handler looks at it: the
    [type] tag and the one field read under it ([None] when the field is
    missing). [malformed] stands for a payload on which [JSON.parse]
    throws. *)
Inductive inbound : Type :=
  | malformed
  | conversation_initiation_metadata
  | user_transcript (transcript : option jsstring)
  | agent_response (text : option jsstring)
  | audio (chunk : option jsstring)
  | audio_end
  | interruption
  | ping
  | error
  | unknown.

Section Platform.

(** Byte order of typed-array views. *)
Variable littleEndian : bool.

(** [now] is the value of [Date.now()] during the call. *)
Definition handleWebSocketMessage (now : N) (data : inbound) (st : state) : state :=
  match data with
  | malformed => emit (ConsoleError (js "[ElevenLabs] Failed to parse message:")) st
  | conversation_initiation_metadata => setStatus listening (emit ConsoleLog st)
  | user_transcript transcript =>
      match transcript with
      | Some (c :: t) =>
          let newMessage :=
            {| id := js "user-" ++ decimal now; role := user; text := c :: t |} in
          setMessages (fun prev => prev ++ [newMessage]) st
      | _ => st
      end
  | agent_response txt =>
      let st :=
        match txt with
        | Some (c :: t) =>
            let newMessage :=
              {| id := js "assistant-" ++ decimal now; role := assistant;
                 text := c :: t |} in
            setMessages (fun prev => prev ++ [newMessage]) st
        | _ => st
        end in
      setStatus speaking st
  | audio chunk =>
      match chunk with
      | Some (c :: t) =>
          match base64ToFloat32 littleEndian (c :: t) with
          | Some audioData => playAudioChunk audioData st
          | None => emit (ConsoleError (js "[ElevenLabs] Failed to parse message:")) st
          end
      | _ => st
      end
  | audio_end => setStatus listening st
  | interruption => setStatus listening (setAudioQueue [] st)
  | ping =>
      match wsRef st with
      | Some OPEN => emit (WsSend pong) st
      | _ => st
      end
  | error => emit (ConsoleError (js "[ElevenLabs] Error:")) st
  | unknown => emit ConsoleLog st
  end.

(** *** Session start (l. 224-314) *)

Record env : Type := mkEnv {
  NEXT_PUBLIC_ELEVENLABS_API_KEY : option jsstring;
  NEXT_PUBLIC_ELEVENLABS_AGENT_ID : option jsstring
}.

(** How a call leaves the caller: it returned, it threw (for the async
    [start]: its promise is already rejected when the call returns), or
    it is suspended at an [await]. *)
Inductive outcome : Type :=
  | Returned
  | Thrown (message : jsstring)
  | Suspended.

(** [start()] up to its first [await] (l. 225-240). *)
Definition start (e : env) (st : state) : outcome * state :=
  if negb (truthy (NEXT_PUBLIC_ELEVENLABS_API_KEY e))
     || negb (truthy (NEXT_PUBLIC_ELEVENLABS_AGENT_ID e))
  then
    (Thrown (js "ElevenLabs configuration missing"),
     emit (ConsoleError
             (js "[ElevenLabs] Missing NEXT_PUBLIC_ELEVENLABS_API_KEY or NEXT_PUBLIC_ELEVENLABS_AGENT_ID"))
          st)
  else
    (Suspended,
     emit GetUserMedia (setMessages (fun _ => []) (setStatus connecting st))).

(** [start()] resumed with the microphone stream (l. 249-308): the
    stream and a capture context are stored, the socket is created and
    its handlers are installed. The constructors of the capture context
    and of the socket are taken to succeed (the second refuses a URL
    with a fragment, that is an agent identifier with [#] in it). *)
Definition startGranted (agentId : jsstring) (st : state) : outcome * state :=
  (Returned,
   emit (NewWebSocket agentId)
     (setWs (Some CONNECTING)
        (emit NewAudioContext
           (setAudioContext true (setMediaStream true st))))).

(** [start()] resumed with a rejection of [getUserMedia] (l. 309-313). *)
Definition startDenied (reason : jsstring) (st : state) : outcome * state :=
  (Thrown reason,
   setStatus disconnected
     (emit (ConsoleError (js "[ElevenLabs] Failed to start:")) st)).

Definition opened (w : option ReadyState) : option ReadyState :=
  match w with
  | Some _ => Some OPEN
  | None => None
  end.

Definition closed (w : option ReadyState) : option ReadyState :=
  match w with
  | Some _ => Some CLOSED
  | None => None
  end.

(** [ws.onopen] (l. 260-296); the socket is open when it runs. *)
Definition onopen (st : state) : state :=
  let st := setWs (opened (wsRef st)) st in
  let st := emit (WsSend conversation_initiation_client_data) (emit ConsoleLog st) in
  let st := setStatus connected st in
  if audioContextRef st then setProcessor true st else emit Uncaught st.

(** [processor.onaudioprocess] (l. 278-292) *)
Definition onaudioprocess (inputData : list number) (st : state) : state :=
  match wsRef st with
  | Some OPEN =>
      match int16ToBase64 littleEndian (float32ToInt16 inputData) with
      | Some base64Audio => emit (WsSend (audio_out base64Audio)) st
      | None => emit Uncaught st
      end
  | _ => st
  end.

(** [ws.onerror] (l. 300-303) and [ws.onclose] (l. 305-308). The
    handler itself logs and sets the status; [wsRef] holds the
    [readyState] that the browser keeps for the socket, which is
    [CLOSED] when the close event of that socket is dispatched. *)
Definition onerror (st : state) : state :=
  setStatus disconnected (emit (ConsoleError (js "[ElevenLabs] WebSocket error:")) st).

Definition onclose (st : state) : state :=
  setStatus disconnected (emit ConsoleLog (setWs (closed (wsRef st)) st)).

(** *** Session stop (l. 320-355) *)

Definition stop (st : state) : state :=
  let st :=
    if mediaStreamRef st then setMediaStream false (emit TrackStop st) else st in
  let st :=
    if processorRef st then setProcessor false (emit ProcessorDisconnect st) else st in
  let st :=
    if audioContextRef st then setAudioContext false (emit AudioContextClose st) else st in
  let st :=
    if playbackContextRef st
    then setPlaybackContext false (emit PlaybackContextClose st) else st in
  let st :=
    match wsRef st with
    | Some _ => setWs None (emit WsCloseCall st)
    | None => st
    end in
  let st := setAudioQueue [] st in
  let st := setIsPlaying false st in
  setStatus disconnected st.

(** *** Text input (l. 361-381) *)

Definition sendUserText (now : N) (txt : jsstring) (st : state) : state :=
  match wsRef st with
  | Some OPEN =>
      let st := emit (WsSend (user_message txt)) st in
      let newMessage :=
        {| id := js "user-" ++ decimal now; role := user; text := txt |} in
      setMessages (fun prev => prev ++ [newMessage]) st
  | _ => emit (ConsoleError (js "[ElevenLabs] WebSocket not connected")) st
  end.

(** *** The session as a transition system.
    One event is one task of the event loop: a call made by the
    component, or a callback run by the browser. An event carries no
    socket identity: [WsOpen], [WsMessage], [WsError] and [WsClose] are
    the events of the socket that [wsRef] holds when they run, or, when
    [wsRef] is null, of the socket that [stop()] dropped (nothing but
    the handler's own writes happens then). The handlers of an earlier
    socket that run while [wsRef] holds a later one are not among the
    events. *)
Inductive event : Type :=
  | Start (e : env)
  | MicGranted (agentId : jsstring)
  | MicDenied (reason : jsstring)
  | WsOpen
  | WsMessage (now : N) (data : inbound)
  | WsError
  | WsClose
  | AudioProcess (inputData : list number)
  | Ended (i : nat)
  | Stop
  | SendUserText (now : N) (txt : jsstring).

Definition step (st : state) (ev : event) : state :=
  match ev with
  | Start e => snd (start e st)
  | MicGranted agentId => snd (startGranted agentId st)
  | MicDenied reason => snd (startDenied reason st)
  | WsOpen => onopen st
  | WsMessage now data => handleWebSocketMessage now data st
  | WsError => onerror st
  | WsClose => onclose st
  | AudioProcess inputData => onaudioprocess inputData st
  | Ended i => onended i st
  | Stop => stop st
  | SendUserText now txt => sendUserText now txt st
  end.

Definition run (st : state) (evs : list event) : state := fold_left step evs st.

End Platform.

(** The events that can write the transcript: a new [start()], an
    inbound user transcript or agent response, a text typed by the
    user. *)
Definition writesTranscript (ev : event) : bool :=
  match ev with
  | Start _
  | WsMessage _ (user_transcript _)
  | WsMessage _ (agent_response _)
  | SendUserText _ _ => true
  | _ => false
  end.

(** Every device, context and socket ref is null, nothing is queued and
    no playback is flagged. *)
Definition released (st : state) : Prop :=
  mediaStreamRef st = false /\ processorRef st = false
  /\ audioContextRef st = false /\ playbackContextRef st = false
  /\ wsRef st = None /\ audioQueueRef st = [] /\ isPlayingRef st = false.

(** What tearing a session down asks of the browser: one release call
    for each resource that is held, in the order of [stop()]: the tracks
    of the microphone stream are stopped, the processor is disconnected,
    the two audio contexts are closed, the socket is closed. *)
Definition teardown (st : state) : list effect :=
  (if mediaStreamRef st then [TrackStop] else [])
  ++ (if processorRef st then [ProcessorDisconnect] else [])
  ++ (if audioContextRef st then [AudioContextClose] else [])
  ++ (if playbackContextRef st then [PlaybackContextClose] else [])
  ++ match wsRef st with
     | Some _ => [WsCloseCall]
     | None => []
     end.

(** The playback part of a trace. *)
Definition isPlayback (e : effect) : bool :=
  match e with
  | SourceStart _ | SourceEnded _ => true
  | _ => false
  end.

Definition playback (st : state) : list effect := List.filter isPlayback (trace st).

(** *** The playback scheduler on its own: calls of [playAudioChunk]
    and ends of sources, in any interleaving. *)
Inductive playbackEvent : Type :=
  | Enqueue (audioData : segment)
  | SourceEnd (i : nat).

Definition playbackStep (st : state) (ev : playbackEvent) : state :=
  match ev with
  | Enqueue audioData => playAudioChunk audioData st
  | SourceEnd i => onended i st
  end.

Definition schedule (st : state) (evs : list playbackEvent) : state :=
  fold_left playbackStep evs st.

(** The segments handed to the scheduler, in the order of the calls. *)
Definition enqueued (evs : list playbackEvent) : list segment :=
  flat_map (fun ev => match ev with Enqueue a => [a] | SourceEnd _ => [] end) evs.

(** Back-to-back playback of a list of segments: each one is started
    and ends before the next is started. *)
Definition timeline (segs : list segment) : list effect :=
  flat_map (fun s => [SourceStart s; SourceEnded s]) segs.

(** Invariant of the scheduler: of the segments handed over, [played]
    were played to their end one after the other, at most one is being
    played by the one suspended call, the rest waits in the queue in
    order; when no playback is flagged nothing plays and nothing
    waits. *)
Definition scheduled (segs played : list segment) (st : state) : Prop :=
  segs = played ++ awaiting st ++ audioQueueRef st
  /\ playback st = timeline played ++ List.map SourceStart (awaiting st)
  /\ (isPlayingRef st = true ->
      playbackContextRef st = true /\ exists c, awaiting st = [c])
  /\ (isPlayingRef st = false -> awaiting st = [] /\ audioQueueRef st = []).

End Agent.

(* ===================================================================== *)
(** ** The component [EmergencyCoach]
       ([src/components/EmergencyCoach.tsx], l. 185-264)                  *)
(* ===================================================================== *)

Module Coach.
Import JS.

(** One invocation of [callEmergencyContact]: its argument, and the
    identifier of the entry on whose behalf it was made. *)
Record invocation : Type := mkInvocation {
  entry : jsstring;
  summary : jsstring
}.

(** The cells of the component next to the hook: the set behind
    [processedCallsRef], the [error] state, and the calls made to the
    telephony route so far. *)
Record state : Type := mkState {
  processedCallsRef : gset (list N);
  error : option jsstring;
  calls : list invocation
}.

Definition initial : state :=
  {| processedCallsRef := ∅; error := None; calls := [] |}.

(** [parsedMessages] (l. 208-216) *)
Definition parsedMessages (messages : list Agent.TranscriptMessage)
    : list (Agent.TranscriptMessage * Parser.ParsedMessage) :=
  List.map
    (fun msg =>
       (msg,
        match Agent.role msg with
        | Agent.assistant => Parser.parseAssistantMessage (Agent.text msg)
        | Agent.user =>
            {| Parser.text := Agent.text msg; Parser.resources := [];
               Parser.triggerCall := false |}
        end))
    messages.

(** The body of the [forEach] of the call-trigger effect (l. 221-235). *)
Definition visit (c : state) (p : Agent.TranscriptMessage * Parser.ParsedMessage)
    : state :=
  let '(original, parsed) := p in
  if Parser.triggerCall parsed
     && negb (bool_decide (Agent.id original ∈ processedCallsRef c))
  then
    {| processedCallsRef := {[ Agent.id original ]} ∪ processedCallsRef c;
       error := error c;
       calls := calls c ++ [ {| entry := Agent.id original;
                                summary := Parser.text parsed |} ] |}
  else c.

(** One run of the call-trigger effect (l. 219-237) over the transcript
    of the current render. *)
Definition callTriggerEffect (messages : list Agent.TranscriptMessage)
    (c : state) : state :=
  fold_left visit (parsedMessages messages) c.

(** Successive runs of the effect, one per render. *)
Definition renders (passes : list (list Agent.TranscriptMessage)) (c : state)
    : state :=
  fold_left (fun c messages => callTriggerEffect messages c) passes c.

(** How many invocations were made for an entry identifier. *)
Definition invocationsFor (i : jsstring) (c : state) : nat :=
  length (List.filter (fun v => bool_decide (entry v = i)) (calls c)).

(** The set and the invocation log agree: an identifier has one
    invocation when it is in the set and none otherwise. *)
Definition consistent (c : state) : Prop :=
  forall i : jsstring,
    invocationsFor i c
    = if bool_decide (i ∈ processedCallsRef c) then 1%nat else 0%nat.

(** [handleStart] (l. 243-255) up to the first suspension of [start]. *)
Definition handleStart (e : Agent.env) (s : state * Agent.state)
    : state * Agent.state :=
  let '(c, st) := s in
  let c := {| processedCallsRef := processedCallsRef c; error := None;
              calls := calls c |} in
  match Agent.start e st with
  | (Agent.Thrown message, st') =>
      ({| processedCallsRef := processedCallsRef c; error := Some message;
          calls := calls c |}, st')
  | (_, st') => (c, st')
  end.

(** [handleStop] (l. 261-264) *)
Definition handleStop (s : state * Agent.state) : state * Agent.state :=
  let '(c, st) := s in (c, Agent.stop st).

End Coach.

(* ===================================================================== *)
(** ** The telephony route
       ([src/app/api/call-contact/route.ts], l. 21-110)                   *)
(* ===================================================================== *)

Module CallContact.
Import JS.

(** The double quote. *)
Definition QUOT : N := 34.

(** [text.replace(/c/g, repl)] for a pattern of one unit and a
    replacement that holds no [$]. *)
Definition replaceAll (c : N) (repl s : jsstring) : jsstring :=
  flat_map (fun x => if x =? c then repl else [x]) s.

(** l. 103-110 *)
Definition escapeXml (text : jsstring) : jsstring :=
  replaceAll (ch "'") (js "&apos;")
    (replaceAll QUOT (js "&quot;")
       (replaceAll (ch ">") (js "&gt;")
          (replaceAll (ch "<") (js "&lt;")
             (replaceAll (ch "&") (js "&amp;") text)))).

(** The entity written for one unit. *)
Definition escapeUnit (c : N) : jsstring :=
  if c =? ch "&" then js "&amp;"
  else if c =? ch "<" then js "&lt;"
  else if c =? ch ">" then js "&gt;"
  else if c =? QUOT then js "&quot;"
  else if c =? ch "'" then js "&apos;"
  else [c].

(** The units [escapeXml] is there to remove. *)
Definition isMarkup (c : N) : bool :=
  (c =? ch "<") || (c =? ch ">") || (c =? QUOT) || (c =? ch "'").

(** The field [summary] of the request body: missing, a string, or a
    value of another type (of which only the truthiness matters). *)
Inductive value : Type :=
  | Absent
  | Str (s : jsstring)
  | Other (truthy : bool).

(** The request body: [request.json()] rejects, or it gives [null]
    (which cannot be destructured), or it gives a value whose field
    [summary] is read. *)
Inductive body : Type :=
  | Rejected
  | NullBody
  | Fields (summary : value).

Record env : Type := mkEnv {
  TWILIO_ACCOUNT_SID : option jsstring;
  TWILIO_AUTH_TOKEN : option jsstring;
  TWILIO_FROM_NUMBER : option jsstring;
  DISPATCH_TARGET_NUMBER : option jsstring
}.

Definition DEFAULT_TARGET_NUMBER : jsstring := js "+15129029090".

(** The argument of [client.calls.create] (l. 81-85). *)
Record callRequest : Type := mkCall {
  from : jsstring;
  to : jsstring;
  twiml : jsstring
}.

(** A Twilio client, as far as the route uses it: [calls.create] gives
    the sid of the call it created, or rejects ([None]). *)
Definition twilioClient : Type := callRequest -> option jsstring.

(** The Twilio package: [twilio(accountSid, authToken)] gives a client,
    or throws ([None]; the package refuses credentials it finds
    malformed). *)
Definition twilioPackage : Type := jsstring -> jsstring -> option twilioClient.

Record response : Type := mkResponse {
  status : N;
  success : bool;
  error : option jsstring;
  callSid : option jsstring
}.

Definition failure (code : N) (message : jsstring) : response :=
  {| status := code; success := false; error := Some message; callSid := None |}.

Definition NL : jsstring := [10].
Definition indent (n : nat) (s : jsstring) : jsstring := repeat 32 n ++ s ++ NL.

Definition SAY : jsstring :=
  js "<Say voice=" ++ [QUOT] ++ js "alice" ++ [QUOT]
    ++ js " language=" ++ [QUOT] ++ js "en-US" ++ [QUOT] ++ js ">".

Definition PAUSE : jsstring :=
  js "<Pause length=" ++ [QUOT] ++ js "1" ++ [QUOT] ++ js "/>".

(** The template literal of l. 64-78 before and after its hole. *)
Definition templateHead : jsstring :=
  NL ++ indent 6 (js "<Response>")
     ++ indent 8 SAY
     ++ indent 10 (js "This is an automated message from LifeLine Emergency Coach.")
     ++ indent 8 (js "</Say>")
     ++ indent 8 PAUSE
     ++ indent 8 SAY
     ++ repeat 32 10.

Definition templateTail : jsstring :=
  NL ++ indent 8 (js "</Say>")
     ++ indent 8 PAUSE
     ++ indent 8 SAY
     ++ indent 10 (js "End of message. Please take appropriate action.")
     ++ indent 8 (js "</Say>")
     ++ indent 6 (js "</Response>")
     ++ repeat 32 4.

Definition twimlOf (summary : jsstring) : jsstring :=
  trim (templateHead ++ escapeXml summary ++ templateTail).

(** [!summary || typeof summary !== "string" || summary.trim() === ""] *)
Definition invalidSummary (summary : value) : bool :=
  match summary with
  | Absent => true
  | Other _ => true
  | Str s =>
      negb (truthy (Some s))
      || match trim s with
         | [] => true
         | _ => false
         end
  end.

Definition orDefault (x : option jsstring) (dflt : jsstring) : jsstring :=
  match x with
  | Some (c :: s) => c :: s
  | _ => dflt
  end.

(** [!TWILIO_ACCOUNT_SID || !TWILIO_AUTH_TOKEN || !TWILIO_FROM_NUMBER]
    is false. *)
Definition configured (e : env) : bool :=
  truthy (TWILIO_ACCOUNT_SID e) && truthy (TWILIO_AUTH_TOKEN e)
  && truthy (TWILIO_FROM_NUMBER e).

(** [twilio(TWILIO_ACCOUNT_SID, TWILIO_AUTH_TOKEN)] (l. 60), when both
    are set. *)
Definition clientOf (e : env) (twilio : twilioPackage) : option twilioClient :=
  match TWILIO_ACCOUNT_SID e, TWILIO_AUTH_TOKEN e with
  | Some sid, Some token => twilio sid token
  | _, _ => None
  end.

(** [POST] (l. 33-97). The result is the JSON response and the
    arguments with which [calls.create] was called. The client is made
    (l. 60) before the TwiML is built (l. 64-78) and before
    [calls.create] is called (l. 81): when [twilio(...)] throws, the
    handler goes to its [catch] and nothing was asked of Twilio. *)
Definition POST (e : env) (twilio : twilioPackage) (b : body)
    : response * list callRequest :=
  match b with
  | Rejected | NullBody => (failure 500 (js "Twilio call failed"), [])
  | Fields summary =>
      if invalidSummary summary then (failure 400 (js "Missing summary"), [])
      else
        match summary, TWILIO_ACCOUNT_SID e, TWILIO_AUTH_TOKEN e, TWILIO_FROM_NUMBER e with
        | Str s, Some (c1 :: sid), Some (c2 :: token), Some (c3 :: number) =>
            let toNumber := orDefault (DISPATCH_TARGET_NUMBER e) DEFAULT_TARGET_NUMBER in
            match twilio (c1 :: sid) (c2 :: token) with
            | None => (failure 500 (js "Twilio call failed"), [])
            | Some client =>
                let request :=
                  {| from := c3 :: number; to := toNumber; twiml := twimlOf s |} in
                match client request with
                | Some sid' =>
                    ({| status := 200; success := true; error := None;
                        callSid := Some sid' |}, [request])
                | None => (failure 500 (js "Twilio call failed"), [request])
                end
            end
        | _, _, _, _ => (failure 500 (js "Twilio not configured"), [])
        end
  end.

(** [callEmergencyContact] ([src/components/EmergencyCoach.tsx],
    l. 89-102) when the request reaches the route: the body is
    [{ summary }] and the result is [result.success === true]. *)
Definition callEmergencyContact (e : env) (twilio : twilioPackage)
    (summary : jsstring) : bool :=
  success (fst (POST e twilio (Fields (Str summary)))).

End CallContact.

(* ===================================================================== *)
(** ** The logging route
       ([src/app/api/call-contact/route.ts], l. 117-195)                  *)
(* ===================================================================== *)

Module LogEvent.
Import JS.

(** The fields of [LogEventPayload] the handler tests, with the type
    the interface declares for them (a string, or missing); [data] is
    passed on as it is. *)
Record payload : Type := mkPayload {
  type : option jsstring;
  sessionId : option jsstring;
  timestamp : option jsstring
}.

Inductive body : Type :=
  | Rejected
  | NullBody
  | Payload (p : payload).

(** The body forwarded to the webhook. *)
Record forwarded : Type := mkForwarded {
  url : jsstring;
  event : payload;
  source : jsstring
}.

Record response : Type := mkResponse {
  status : N;
  success : bool;
  error : option jsstring
}.

Definition failure (code : N) (message : jsstring) : response :=
  {| status := code; success := false; error := Some message |}.

(** [POST] (l. 134-195). [webhook] stands for [fetch]: [Some ok] is a
    response with that [ok] flag (whose body can be read for the log
    line), [None] a rejected request. *)
Definition POST (N8N_WEBHOOK_URL : option jsstring)
    (webhook : forwarded -> option bool) (b : body)
    : response * list forwarded :=
  match b with
  | Rejected | NullBody => (failure 500 (js "Failed to process log event"), [])
  | Payload p =>
      if negb (truthy (type p)) || negb (truthy (sessionId p))
         || negb (truthy (timestamp p))
      then (failure 400 (js "Missing required fields: type, sessionId, timestamp"), [])
      else
        match N8N_WEBHOOK_URL with
        | Some (c :: u) =>
            let f := {| url := c :: u; event := p;
                        source := js "lifeline-emergency-coach" |} in
            match webhook f with
            | Some true => ({| status := 200; success := true; error := None |}, [f])
            | Some false => (failure 500 (js "Failed to log event to n8n"), [f])
            | None => (failure 500 (js "Failed to process log event"), [f])
            end
        | _ => (failure 200 (js "N8N_WEBHOOK_URL not configured"), [])
        end
  end.

End LogEvent.

(* ===================================================================== *)
(** ** The hook on the vendor SDK
       ([src/hooks/useElevenLabsAgent.ts], l. 467-597)                    *)
(* ===================================================================== *)

Module SdkAgent.
Import JS.

(** [message.source] *)
Inductive Source : Type := fromUser | fromAi | fromElsewhere.

(** [mode.mode] *)
Inductive Mode : Type := modeSpeaking | modeListening | modeOther.

(** The cells of the hook: the two React states, the counter behind
    [messageIdCounter], and [conversation.status === "connected"], which
    the SDK maintains. *)
Record state : Type := mkState {
  agentStatus : Agent.AgentStatus;
  messages : list Agent.TranscriptMessage;
  messageIdCounter : N;
  sdkConnected : bool
}.

Definition initial : state :=
  {| agentStatus := Agent.disconnected; messages := [];
     messageIdCounter := 0; sdkConnected := false |}.

Definition setAgentStatus (s : Agent.AgentStatus) (st : state) : state :=
  mkState s (messages st) (messageIdCounter st) (sdkConnected st).

(** [++messageIdCounter.current] on a Number: exact below [2^53],
    where adding one rounds back to [2^53]. *)
Definition increment (n : N) : N := if n <? 2 ^ 53 then N.succ n else n.

(** An entry appended under [`${prefix}${++messageIdCounter.current}`]. *)
Definition append (prefix : jsstring) (r : Agent.Role) (txt : jsstring)
    (st : state) : state :=
  let n := increment (messageIdCounter st) in
  mkState (agentStatus st)
    (messages st
       ++ [ {| Agent.id := prefix ++ Agent.decimal n; Agent.role := r;
               Agent.text := txt |} ])
    n (sdkConnected st).

(** [onMessage] (l. 481-499) *)
Definition onMessage (src : Source) (message : jsstring) (st : state) : state :=
  match src, message with
  | fromUser, _ :: _ => append (js "user-") Agent.user message st
  | fromAi, _ :: _ => append (js "assistant-") Agent.assistant message st
  | _, _ => st
  end.

(** [onModeChange] (l. 507-514) *)
Definition onModeChange (m : Mode) (st : state) : state :=
  match m with
  | modeSpeaking => setAgentStatus Agent.speaking st
  | modeListening => setAgentStatus Agent.listening st
  | modeOther => st
  end.

(** [start()] up to its first [await] (l. 521-531). *)
Definition start (agentId : option jsstring) (st : state) : Agent.outcome * state :=
  if truthy agentId
  then (Agent.Suspended,
        mkState Agent.connecting [] (messageIdCounter st) (sdkConnected st))
  else (Agent.Thrown (js "ElevenLabs Agent ID not configured"), st).

(** [sendUserText] (l. 569-585) *)
Definition sendUserText (txt : jsstring) (st : state) : state :=
  if sdkConnected st then append (js "user-") Agent.user txt st else st.

Inductive event : Type :=
  | OnConnect
  | OnDisconnect
  | OnMessage (src : Source) (message : jsstring)
  | OnError
  | OnModeChange (m : Mode)
  | SdkStatus (connected : bool)
  | Start (agentId : option jsstring)
  | StartFailed
  | Stop
  | SendUserText (txt : jsstring).

Definition step (st : state) (ev : event) : state :=
  match ev with
  | OnConnect => setAgentStatus Agent.listening st
  | OnDisconnect => setAgentStatus Agent.disconnected st
  | OnMessage src message => onMessage src message st
  | OnError => setAgentStatus Agent.disconnected st
  | OnModeChange m => onModeChange m st
  | SdkStatus b => mkState (agentStatus st) (messages st) (messageIdCounter st) b
  | Start agentId => snd (start agentId st)
  | StartFailed => setAgentStatus Agent.disconnected st
  | Stop => setAgentStatus Agent.disconnected st
  | SendUserText txt => sendUserText txt st
  end.

Definition run (st : state) (evs : list event) : state := fold_left step evs st.

(** The number at the end of an identifier does not exceed the
    counter. *)
Definition numbered (st : state) : Prop :=
  forall m, In m (messages st) ->
    exists prefix n,
      Agent.id m = prefix ++ Agent.decimal n
      /\ (prefix = js "user-" \/ prefix = js "assistant-")
      /\ n <= messageIdCounter st.

End SdkAgent.

(* ===================================================================== *)
(** ** The session and the component together                             *)
(* ===================================================================== *)

Module Session.
Import JS Agent.

(** The values of [Date.now()] under which a run appends entries. *)
Definition stamp (ev : event) : list N :=
  match ev with
  | WsMessage now (user_transcript _)
  | WsMessage now (agent_response _)
  | SendUserText now _ => [now]
  | _ => []
  end.

Definition stamps (evs : list event) : list N := flat_map stamp evs.

(** The identifiers of a transcript are those of its roles under the
    given stamps. *)
Definition prefixOf (r : Role) : jsstring :=
  match r with
  | user => js "user-"
  | assistant => js "assistant-"
  end.

Definition stamped (seen : list N) (st : state) : Prop :=
  forall m, In m (messages st) ->
    exists n, In n seen /\ id m = prefixOf (role m) ++ decimal n.

(** What was written to the socket. *)
Definition isSend (e : effect) : bool :=
  match e with
  | WsSend _ => true
  | _ => false
  end.

Definition sent (st : state) : list effect := List.filter isSend (trace st).

(** The events that empty the transcript: a [start()] that passes its
    configuration check. *)
Definition resets (ev : event) : bool :=
  match ev with
  | Start e =>
      truthy (NEXT_PUBLIC_ELEVENLABS_API_KEY e)
      && truthy (NEXT_PUBLIC_ELEVENLABS_AGENT_ID e)
  | _ => false
  end.





(** The events that give the hook a socket. *)
Definition connects (ev : event) : bool :=
  match ev with
  | MicGranted _ | WsOpen => true
  | _ => false
  end.

(** The playback scheduler with interruptions. *)
Inductive playbackEvent : Type :=
  | Enqueue (audioData : segment)
  | SourceEnd (i : nat)
  | Interrupt (now : N).

Definition playbackStep (st : state) (ev : playbackEvent) : state :=
  match ev with
  | Enqueue audioData => playAudioChunk audioData st
  | SourceEnd i => onended i st
  | Interrupt now => handleWebSocketMessage true now interruption st
  end.

Definition schedule (st : state) (evs : list playbackEvent) : state :=
  fold_left playbackStep evs st.

Definition enqueued (evs : list playbackEvent) : list segment :=
  flat_map (fun ev => match ev with Enqueue a => [a] | _ => [] end) evs.

(** Invariant of the scheduler under interruptions: what was played,
    what plays and what waits is, in this order, a selection of the
    segments handed over. *)
Definition scheduled (segs played : list segment) (st : state) : Prop :=
  sublist (played ++ awaiting st ++ audioQueueRef st) segs
  /\ playback st = timeline played ++ List.map SourceStart (awaiting st)
  /\ (isPlayingRef st = true ->
      playbackContextRef st = true /\ exists c, awaiting st = [c])
  /\ (isPlayingRef st = false -> awaiting st = [] /\ audioQueueRef st = []).

(** [handleTextSubmit] ([src/components/EmergencyCoach.tsx],
    l. 270-278): the new value of [textInput] and the hook's state. *)
Definition handleTextSubmit (now : N) (textInput : jsstring) (st : state)
    : jsstring * state :=
  match trim textInput with
  | [] => (textInput, st)
  | c :: t => ([], sendUserText now (c :: t) st)
  end.

(** The entries that make the call-trigger effect call. *)
Definition triggers (m : TranscriptMessage) : bool :=
  match role m with
  | assistant => startsWith (text m) Parser.CALL_EMERGENCY_CONTACT
  | user => false
  end.

Definition invocationOf (m : TranscriptMessage) : Coach.invocation :=
  {| Coach.entry := id m;
     Coach.summary := Parser.text (Parser.parseAssistantMessage (text m)) |}.

(** The entries for which a run of the effect that starts in [c] finds
    the test of l. 222-225 true, identifiers being distinct. *)
Definition pending (c : Coach.state) (m : TranscriptMessage) : bool :=
  triggers m && negb (bool_decide (id m ∈ Coach.processedCallsRef c)).

End Session.

(* ===================================================================== *)
(** ** Theorems                                                           *)
(* ===================================================================== *)

(** *** Directive parser *)

Section ParserFacts.
Import JS Parser.

Lemma includes_startsWith (s pat : jsstring) :
  includes s pat = false -> startsWith s pat = false.
Proof.
  destruct s; simpl; intros H; apply orb_false_iff in H; tauto.
Qed.

Lemma includes_tail (c : N) (s pat : jsstring) :
  includes (c :: s) pat = false -> includes s pat = false.
Proof.
  simpl. intros H. apply orb_false_iff in H. tauto.
Qed.

Lemma matchLinks_absent (t : jsstring) :
  includes t LINKS = false -> matchLinks t = None.
Proof.
  induction t as [|c t IH]; intros H.
  - reflexivity.
  - pose proof (includes_startsWith _ _ H) as Hs.
    cbn [matchLinks]. rewrite Hs.
    rewrite (IH (includes_tail _ _ _ H)). reflexivity.
Qed.

(** A text with neither marker is returned as it is. *)
Lemma parse_plain (rawText : jsstring) :
  includes rawText CALL_EMERGENCY_CONTACT = false ->
  includes rawText LINKS = false ->
  parseAssistantMessage rawText
  = {| text := rawText; resources := []; triggerCall := false |}.
Proof.
  intros Hc Hl. unfold parseAssistantMessage.
  rewrite (includes_startsWith _ _ Hc), (matchLinks_absent _ Hl).
  reflexivity.
Qed.

(** C2: the directive parser on the example message of the
    specification gives trigger flag true, display text
    "Patient unconscious" and the two resources "CPR Guide" /
    "https://x" and "Poison Control" / "1-800-222-1222"; and on every
    input that contains neither marker it gives trigger flag false, no
    resource, and the input itself as display text. *)
Theorem parseAssistantMessage_spec :
  parseAssistantMessage
    (js "[[CALL_EMERGENCY_CONTACT]]Patient unconscious[[LINKS]]CPR Guide:https://x;Poison Control:1-800-222-1222")
  = {| text := js "Patient unconscious";
       resources :=
         [ {| label := js "CPR Guide"; description := js "https://x" |};
           {| label := js "Poison Control"; description := js "1-800-222-1222" |} ];
       triggerCall := true |}
  /\
  forall rawText : jsstring,
    includes rawText CALL_EMERGENCY_CONTACT = false ->
    includes rawText LINKS = false ->
    triggerCall (parseAssistantMessage rawText) = false
    /\ resources (parseAssistantMessage rawText) = []
    /\ text (parseAssistantMessage rawText) = rawText.
Proof.
  split.
  - vm_compute. reflexivity.
  - intros rawText Hc Hl. rewrite (parse_plain rawText Hc Hl). auto.
Qed.

Lemma parseAssistantMessage_spec_witness :
  includes (js "Stay calm, help is coming.") CALL_EMERGENCY_CONTACT = false
  /\ includes (js "Stay calm, help is coming.") LINKS = false
  /\ triggerCall (parseAssistantMessage (js "Stay calm, help is coming.")) = false
  /\ resources (parseAssistantMessage (js "Stay calm, help is coming.")) = []
  /\ text (parseAssistantMessage (js "Stay calm, help is coming."))
     = js "Stay calm, help is coming.".
Proof.
  split; [reflexivity|]. split; [reflexivity|].
  apply (proj2 parseAssistantMessage_spec); reflexivity.
Defined.

End ParserFacts.

(** *** Call dedup *)

Section DedupFacts.
Import JS.
Import Coach.

Lemma consistent_initial : consistent Coach.initial.
Proof. intros i. reflexivity. Qed.

Lemma invocationsFor_snoc (i k sm : jsstring) (c : Coach.state) :
  invocationsFor i
    {| processedCallsRef := {[ k ]} ∪ processedCallsRef c;
       error := error c;
       calls := calls c ++ [ {| entry := k; summary := sm |} ] |}
  = (invocationsFor i c + if bool_decide (k = i) then 1 else 0)%nat.
Proof.
  unfold invocationsFor. simpl. rewrite List.filter_app, length_app. simpl.
  destruct (bool_decide (k = i)); reflexivity.
Qed.

Lemma visit_consistent (c : Coach.state) p :
  consistent c -> consistent (visit c p).
Proof.
  intros Hc. destruct p as [original parsed]. unfold visit.
  destruct (Parser.triggerCall parsed); simpl; [|exact Hc].
  destruct (bool_decide (Agent.id original ∈ processedCallsRef c)) eqn:Hin;
    simpl; [exact Hc|].
  apply bool_decide_eq_false in Hin.
  intros i. rewrite invocationsFor_snoc, (Hc i). simpl.
  destruct (decide (Agent.id original = i)) as [<-|Hne].
  - rewrite (bool_decide_eq_true_2 (Agent.id original = Agent.id original))
      by reflexivity.
    rewrite (bool_decide_eq_false_2 _ Hin).
    rewrite bool_decide_eq_true_2 by set_solver. reflexivity.
  - rewrite (bool_decide_eq_false_2 _ Hne).
    destruct (decide (i ∈ processedCallsRef c)) as [Hi|Hi].
    + rewrite (bool_decide_eq_true_2 _ Hi).
      rewrite bool_decide_eq_true_2; [reflexivity|].
      apply elem_of_union_r, Hi.
    + rewrite (bool_decide_eq_false_2 _ Hi).
      rewrite bool_decide_eq_false_2; [reflexivity|].
      apply not_elem_of_union. split; [|exact Hi].
      apply not_elem_of_singleton. congruence.
Qed.

Lemma visit_grows (c : Coach.state) p :
  processedCallsRef c ⊆ processedCallsRef (visit c p).
Proof.
  destruct p as [original parsed]. unfold visit.
  destruct (_ && _); simpl; set_solver.
Qed.

Lemma visit_marks (c : Coach.state) original parsed :
  Parser.triggerCall parsed = true ->
  Agent.id original ∈ processedCallsRef (visit c (original, parsed)).
Proof.
  intros Ht. unfold visit. rewrite Ht. simpl.
  destruct (bool_decide (Agent.id original ∈ processedCallsRef c)) eqn:Hin; simpl.
  - apply bool_decide_eq_true in Hin. exact Hin.
  - set_solver.
Qed.

Lemma fold_visit_consistent ps (c : Coach.state) :
  consistent c -> consistent (fold_left visit ps c).
Proof.
  revert c. induction ps as [|p ps IH]; intros c Hc; simpl; [exact Hc|].
  apply IH, visit_consistent, Hc.
Qed.

Lemma fold_visit_grows ps (c : Coach.state) :
  processedCallsRef c ⊆ processedCallsRef (fold_left visit ps c).
Proof.
  revert c. induction ps as [|p ps IH]; intros c; simpl; [set_solver|].
  pose proof (visit_grows c p). pose proof (IH (visit c p)). set_solver.
Qed.

Lemma fold_visit_marks ps (c : Coach.state) original parsed :
  In (original, parsed) ps ->
  Parser.triggerCall parsed = true ->
  Agent.id original ∈ processedCallsRef (fold_left visit ps c).
Proof.
  revert c. induction ps as [|p ps IH]; intros c Hin Ht; [destruct Hin|].
  simpl. destruct Hin as [->|Hin].
  - pose proof (visit_marks c original parsed Ht).
    pose proof (fold_visit_grows ps (visit c (original, parsed))). set_solver.
  - apply IH; assumption.
Qed.

Lemma effect_consistent messages (c : Coach.state) :
  consistent c -> consistent (callTriggerEffect messages c).
Proof. apply fold_visit_consistent. Qed.

Lemma effect_grows messages (c : Coach.state) :
  processedCallsRef c ⊆ processedCallsRef (callTriggerEffect messages c).
Proof. apply fold_visit_grows. Qed.

Lemma effect_marks messages (c : Coach.state) original parsed :
  In (original, parsed) (parsedMessages messages) ->
  Parser.triggerCall parsed = true ->
  Agent.id original ∈ processedCallsRef (callTriggerEffect messages c).
Proof. apply fold_visit_marks. Qed.

Lemma renders_consistent passes (c : Coach.state) :
  consistent c -> consistent (renders passes c).
Proof.
  revert c. induction passes as [|m passes IH]; intros c Hc; simpl; [exact Hc|].
  apply IH, effect_consistent, Hc.
Qed.

Lemma renders_grows passes (c : Coach.state) :
  processedCallsRef c ⊆ processedCallsRef (renders passes c).
Proof.
  revert c. induction passes as [|m passes IH]; intros c; simpl; [set_solver|].
  pose proof (effect_grows m c). pose proof (IH (callTriggerEffect m c)).
  set_solver.
Qed.

Lemma renders_marks passes (c : Coach.state) messages original parsed :
  In messages passes ->
  In (original, parsed) (parsedMessages messages) ->
  Parser.triggerCall parsed = true ->
  Agent.id original ∈ processedCallsRef (renders passes c).
Proof.
  revert c. induction passes as [|m passes IH]; intros c Hp Hin Ht;
    [destruct Hp|].
  simpl. destruct Hp as [->|Hp].
  - pose proof (effect_marks messages c original parsed Hin Ht).
    pose proof (renders_grows passes (callTriggerEffect messages c)). set_solver.
  - apply IH; assumption.
Qed.

(** A run of the effect over entries that are all in the set already
    does nothing. *)
Lemma fold_visit_seen ps (c : Coach.state) :
  (forall original parsed,
      In (original, parsed) ps ->
      Parser.triggerCall parsed = true ->
      Agent.id original ∈ processedCallsRef c) ->
  fold_left visit ps c = c.
Proof.
  induction ps as [|[original parsed] ps IH]; intros Hseen; [reflexivity|].
  cbn [fold_left].
  assert (Hv : visit c (original, parsed) = c).
  { unfold visit. destruct (Parser.triggerCall parsed) eqn:Ht; [|reflexivity].
    rewrite bool_decide_eq_true_2; [reflexivity|].
    apply (Hseen original parsed); [left; reflexivity|exact Ht]. }
  rewrite Hv. apply IH. intros o p Hin. apply Hseen. right. exact Hin.
Qed.

Lemma parsed_entry messages (e : Agent.TranscriptMessage) :
  In e messages ->
  Agent.role e = Agent.assistant ->
  In (e, Parser.parseAssistantMessage (Agent.text e)) (parsedMessages messages).
Proof.
  intros Hin Hrole. unfold parsedMessages. apply in_map_iff.
  exists e. split; [|exact Hin]. rewrite Hrole. reflexivity.
Qed.

(** C1: an assistant entry whose directive has the trigger flag set
    causes exactly one invocation of the telephony collaborator for its
    identifier, however many runs of the call-trigger effect see it: over
    any sequence of runs from the start of the component, one of which
    has the entry in its transcript, the number of invocations made for
    the entry's identifier is one; and one more run over that transcript
    makes no invocation and leaves the set as it is, the identifier
    having been put in the set by the run that made the call. *)
Theorem call_triggered_exactly_once
    (passes : list (list Agent.TranscriptMessage))
    (messages : list Agent.TranscriptMessage) (e : Agent.TranscriptMessage) :
  In messages passes ->
  In e messages ->
  Agent.role e = Agent.assistant ->
  Parser.triggerCall (Parser.parseAssistantMessage (Agent.text e)) = true ->
  invocationsFor (Agent.id e) (renders passes Coach.initial) = 1%nat
  /\ Agent.id e ∈ processedCallsRef (renders passes Coach.initial)
  /\ callTriggerEffect messages (renders passes Coach.initial)
     = renders passes Coach.initial.
Proof.
  intros Hp Hin Hrole Ht.
  assert (He : Agent.id e ∈ processedCallsRef (renders passes Coach.initial)).
  { apply renders_marks
      with (messages := messages)
           (parsed := Parser.parseAssistantMessage (Agent.text e));
      [exact Hp|apply parsed_entry; assumption|exact Ht]. }
  split; [|split; [exact He|]].
  - rewrite (renders_consistent passes _ consistent_initial (Agent.id e)).
    rewrite bool_decide_eq_true_2; [reflexivity|exact He].
  - apply fold_visit_seen. intros original parsed Ho Hto.
    apply renders_marks with (messages := messages) (parsed := parsed);
      assumption.
Qed.

(** The entry is seen by three runs of the effect, the last two with a
    later entry after it. *)
Lemma call_triggered_exactly_once_witness :
  let e := {| Agent.id := js "assistant-1700000000000";
              Agent.role := Agent.assistant;
              Agent.text := js "[[CALL_EMERGENCY_CONTACT]]Patient unconscious" |} in
  let u := {| Agent.id := js "user-1700000000500";
              Agent.role := Agent.user;
              Agent.text := js "[[CALL_EMERGENCY_CONTACT]] is what I typed" |} in
  invocationsFor (Agent.id e) (renders [[e]; [e; u]; [e; u]] Coach.initial) = 1%nat.
Proof.
  intros e u.
  apply (call_triggered_exactly_once [[e]; [e; u]; [e; u]] [e] e).
  - simpl. left. reflexivity.
  - simpl. left. reflexivity.
  - reflexivity.
  - vm_compute. reflexivity.
Defined.

End DedupFacts.

(** *** Session state machine *)

Section SessionFacts.
Import JS Codec Agent.

Variable littleEndian : bool.

(** C6: [start()] without the configuration (the key or the agent
    identifier is missing or empty) fails at once with the
    configuration error, which the component receives; no cell of the
    session changes, so a disconnected session stays disconnected, the
    status is never set to connecting, and nothing is asked of the
    browser but the console line: no microphone, no context, no
    socket. *)
Theorem start_missing_configuration (e : env) (st : state) :
  truthy (NEXT_PUBLIC_ELEVENLABS_API_KEY e)
    && truthy (NEXT_PUBLIC_ELEVENLABS_AGENT_ID e) = false ->
  fst (start e st) = Thrown (js "ElevenLabs configuration missing")
  /\ (exists line, snd (start e st) = emit (ConsoleError line) st)
  /\ status (snd (start e st)) = status st
  /\ (status st = disconnected -> status (snd (start e st)) = disconnected)
  /\ wsRef (snd (start e st)) = wsRef st
  /\ mediaStreamRef (snd (start e st)) = mediaStreamRef st
  /\ audioContextRef (snd (start e st)) = audioContextRef st
  /\ messages (snd (start e st)) = messages st
  /\ (forall c,
        Coach.error (fst (Coach.handleStart e (c, st)))
        = Some (js "ElevenLabs configuration missing")).
Proof.
  intros H. unfold Coach.handleStart, start.
  replace (negb (truthy (NEXT_PUBLIC_ELEVENLABS_API_KEY e))
           || negb (truthy (NEXT_PUBLIC_ELEVENLABS_AGENT_ID e))) with true
    by (rewrite <- negb_andb, H; reflexivity).
  simpl. repeat split; eauto.
Qed.

Lemma start_missing_configuration_witness :
  let e := {| NEXT_PUBLIC_ELEVENLABS_API_KEY := Some (js "sk_test");
              NEXT_PUBLIC_ELEVENLABS_AGENT_ID := None |} in
  fst (start e initial) = Thrown (js "ElevenLabs configuration missing")
  /\ status (snd (start e initial)) = disconnected.
Proof.
  intros e.
  pose proof (start_missing_configuration e initial eq_refl) as H.
  split; [exact (proj1 H)|].
  exact (proj1 (proj2 (proj2 (proj2 H))) eq_refl).
Defined.

(** C7: in a session that is listening or speaking, an inbound
    "interruption" empties the queue of segments not yet started and
    leaves the status at listening; the segment in progress is not
    touched (the suspended playback call, its flag and the trace of
    audio sources are as before). *)
Theorem interruption_flushes_queue (now : N) (st : state) :
  status st = listening \/ status st = speaking ->
  audioQueueRef (handleWebSocketMessage littleEndian now interruption st) = []
  /\ status (handleWebSocketMessage littleEndian now interruption st) = listening
  /\ awaiting (handleWebSocketMessage littleEndian now interruption st) = awaiting st
  /\ isPlayingRef (handleWebSocketMessage littleEndian now interruption st)
     = isPlayingRef st
  /\ trace (handleWebSocketMessage littleEndian now interruption st) = trace st.
Proof.
  intros _. simpl. repeat split.
Qed.

(** After [stop()] the session is disconnected and holds nothing. *)
Lemma stop_releases (st : state) :
  status (stop st) = disconnected /\ released (stop st).
Proof.
  unfold stop, released.
  destruct st as [s m w ms ac pc q ip pr aw tr].
  destruct ms, pr, ac, pc, w; simpl; repeat split.
Qed.




Lemma released_teardown (st : state) : released st -> teardown st = [].
Proof.
  unfold released, teardown.
  intros (-> & -> & -> & -> & -> & _). reflexivity.
Qed.



Lemma drain_messages (st : state) : messages (drain st) = messages st.
Proof.
  unfold drain. destruct (audioQueueRef st) as [|[|v chunk] rest];
    [reflexivity| |];
    simpl; destruct (playbackContextRef st); reflexivity.
Qed.

Lemma stop_messages (st : state) : messages (stop st) = messages st.
Proof.
  unfold stop. destruct st as [s m w ms ac pc q ip pr aw tr].
  destruct ms, pr, ac, pc, w; reflexivity.
Qed.

Lemma playAudioChunk_messages (audioData : segment) (st : state) :
  messages (playAudioChunk audioData st) = messages st.
Proof.
  unfold playAudioChunk.
  destruct (playbackContextRef st); simpl;
    (destruct (isPlayingRef st); [reflexivity|]);
    rewrite drain_messages; reflexivity.
Qed.

Lemma step_messages (st : state) (ev : event) :
  writesTranscript ev = false ->
  messages (step littleEndian st ev) = messages st.
Proof.
  destruct ev as [e|a|r| |now data| | |input|i| |now txt]; simpl; intros H;
    try discriminate H; try reflexivity.
  - unfold onopen. simpl. destruct (audioContextRef st); reflexivity.
  - destruct data as [| |t|t|chunk| | | | |]; try discriminate H;
      try reflexivity.
    + simpl. destruct chunk as [[|c t]|]; try reflexivity.
      destruct (base64ToFloat32 littleEndian (c :: t)); [|reflexivity].
      apply playAudioChunk_messages.
    + simpl. destruct (wsRef st) as [[]|]; reflexivity.
  - unfold onaudioprocess. destruct (wsRef st) as [[]|]; try reflexivity.
    destruct (int16ToBase64 _ _); reflexivity.
  - unfold onended. destruct (nth_error _ _); [|reflexivity].
    rewrite drain_messages. reflexivity.
  - apply stop_messages.
Qed.

Lemma run_messages (evs : list event) (st : state) :
  forallb (fun ev => negb (writesTranscript ev)) evs = true ->
  messages (run littleEndian st evs) = messages st.
Proof.
  revert st. induction evs as [|ev evs IH]; intros st H; [reflexivity|].
  simpl in H. apply andb_true_iff in H as [Hev Hevs].
  apply negb_true_iff in Hev.
  unfold run in *. simpl. rewrite (IH _ Hevs). apply step_messages, Hev.
Qed.

(** C10: a [start()] that passes the configuration check empties the
    transcript and sets the status to connecting before anything is
    asked of the browser but the microphone: no socket exists yet. The
    transcript then stays empty until an event that writes it (an
    inbound user transcript or agent response, a typed text, another
    [start()]). The set behind
    [processedCallsRef], a cell of the component, is not touched by
    [handleStart]. *)
Theorem start_resets_transcript (e : env) (st : state) (c : Coach.state) :
  truthy (NEXT_PUBLIC_ELEVENLABS_API_KEY e) = true ->
  truthy (NEXT_PUBLIC_ELEVENLABS_AGENT_ID e) = true ->
  fst (start e st) = Suspended
  /\ messages (snd (start e st)) = []
  /\ status (snd (start e st)) = connecting
  /\ trace (snd (start e st)) = trace st ++ [GetUserMedia]
  /\ wsRef (snd (start e st)) = wsRef st
  /\ (forall evs,
        forallb (fun ev => negb (writesTranscript ev)) evs = true ->
        messages (run littleEndian (snd (start e st)) evs) = [])
  /\ Coach.processedCallsRef (fst (Coach.handleStart e (c, st)))
     = Coach.processedCallsRef c
  /\ Coach.calls (fst (Coach.handleStart e (c, st))) = Coach.calls c
  /\ snd (Coach.handleStart e (c, st)) = snd (start e st).
Proof.
  intros Hk Ha.
  assert (Hs : start e st
               = (Suspended,
                  emit GetUserMedia
                    (setMessages (fun _ => []) (setStatus connecting st)))).
  { unfold start. rewrite Hk, Ha. reflexivity. }
  unfold Coach.handleStart. rewrite Hs. simpl.
  repeat split.
  intros evs Hq. rewrite (run_messages evs _ Hq). reflexivity.
Qed.

End SessionFacts.

(** *** Sample conversion *)

Section SampleFacts.
Import Codec.
Local Open Scope Q_scope.

Lemma make_scale (t : Z) : (t # 32768) == inject_Z t * (1 # 32768).
Proof. unfold Qeq, Qmult, inject_Z. simpl. lia. Qed.

Lemma wrap16_id (z : Z) : (-32768 <= z <= 32767)%Z -> wrap16 z = z.
Proof.
  intros Hz. unfold wrap16.
  destruct (Z.leb_spec 32768 (z mod 65536)); Z.div_mod_to_equations; lia.
Qed.

Lemma wrap16_range (z : Z) : (-32768 <= wrap16 z <= 32767)%Z.
Proof.
  unfold wrap16.
  destruct (Z.leb_spec 32768 (z mod 65536)); Z.div_mod_to_equations; lia.
Qed.

Lemma Qle_bool_false (x y : Q) : Qle_bool x y = false -> y < x.
Proof.
  intros H. apply Qnot_le_lt. intros Hle.
  apply Qle_bool_iff in Hle. congruence.
Qed.

Lemma truncate_nonneg (x : Q) :
  0 <= x -> inject_Z (truncate x) <= x /\ x < inject_Z (truncate x) + 1.
Proof.
  intros Hx. unfold truncate.
  rewrite (proj2 (Qle_bool_iff 0 x) Hx).
  split; [apply Qfloor_le|].
  change (inject_Z (Qfloor x) + 1) with (inject_Z (Qfloor x) + inject_Z 1).
  rewrite <- inject_Z_plus. apply Qlt_floor.
Qed.

Lemma truncate_neg (x : Q) :
  x < 0 -> x <= inject_Z (truncate x) /\ inject_Z (truncate x) < x + 1.
Proof.
  intros Hx. unfold truncate.
  destruct (Qle_bool 0 x) eqn:E.
  - apply Qle_bool_iff in E. exfalso. apply (Qlt_not_le _ _ Hx E).
  - split; [apply Qle_ceiling|].
    pose proof (Qceiling_lt x) as H.
    unfold Z.sub in H. rewrite inject_Z_plus in H.
    change (inject_Z (- (1))) with (-1 # 1) in H.
    generalize dependent (inject_Z (Qceiling x)). intros c H. lra.
Qed.

(** A sample inside the range is left as it is by the clamp. *)
Lemma clamp_inside (q : Q) :
  -1 <= q <= 1 -> exists s, clamp (Fin q) = Fin s /\ s == q.
Proof.
  intros [Hlo Hhi]. unfold clamp, ofZ. simpl.
  destruct (Qle_bool (inject_Z 1) q) eqn:E1.
  - apply Qle_bool_iff in E1. change (inject_Z 1) with 1 in *. simpl.
    exists 1. split; [reflexivity|]. lra.
  - simpl. destruct (Qle_bool (inject_Z (-1)) q) eqn:E2.
    + exists q. split; reflexivity.
    + apply Qle_bool_false in E2. change (inject_Z (-1)) with (-1 # 1) in E2.
      exfalso. lra.
Qed.

Lemma clamp_above (v : number) : lt (ofZ 1) v = true -> clamp v = ofZ 1.
Proof.
  destruct v as [| | |q]; simpl; try discriminate; intros H; [reflexivity|].
  unfold clamp, ofZ. simpl.
  apply negb_true_iff in H.
  pose proof (Qle_bool_false _ _ H) as Hq.
  rewrite (proj2 (Qle_bool_iff (inject_Z 1) q)) by (apply Qlt_le_weak, Hq).
  reflexivity.
Qed.

Lemma clamp_below (v : number) : lt v (ofZ (-1)) = true -> clamp v = ofZ (-1).
Proof.
  destruct v as [| | |q]; simpl; try discriminate; intros H; [reflexivity|].
  unfold clamp, ofZ. simpl.
  apply negb_true_iff in H.
  pose proof (Qle_bool_false _ _ H) as Hq.
  change (inject_Z (-1)) with (-1 # 1) in *.
  destruct (Qle_bool (inject_Z 1) q) eqn:E1.
  - apply Qle_bool_iff in E1. change (inject_Z 1) with 1 in E1. exfalso. lra.
  - simpl. rewrite H. reflexivity.
Qed.

(** The clamp gives NaN or a finite value between -1 and 1. *)
Lemma clamp_cases (v : number) :
  clamp v = NaN \/ exists s, clamp v = Fin s /\ -1 <= s <= 1.
Proof.
  destruct v as [| | |q]; unfold clamp, ofZ; simpl.
  - left. reflexivity.
  - right. exists (inject_Z 1). split; [reflexivity|].
    change (inject_Z 1) with 1. lra.
  - right. exists (inject_Z (-1)). split; [reflexivity|].
    change (inject_Z (-1)) with (-1 # 1). lra.
  - right. destruct (Qle_bool (inject_Z 1) q) eqn:E1; simpl.
    + exists (inject_Z 1). split; [reflexivity|].
      change (inject_Z 1) with 1. lra.
    + apply Qle_bool_false in E1. change (inject_Z 1) with 1 in E1.
      destruct (Qle_bool (inject_Z (-1)) q) eqn:E2.
      * apply Qle_bool_iff in E2. change (inject_Z (-1)) with (-1 # 1) in E2.
        exists q. split; [reflexivity|]. lra.
      * exists (inject_Z (-1)). split; [reflexivity|].
        change (inject_Z (-1)) with (-1 # 1). lra.
Qed.

(** What is stored for a clamped finite sample. *)
Lemma scaled_finite (v : number) (s : Q) :
  clamp v = Fin s ->
  -1 <= s <= 1 ->
  exists x t,
    scaleSample v = Fin x /\ t = truncate x /\ ToInt16 (scaleSample v) = t
    /\ (-32768 <= t <= 32767)%Z
    /\ (s < 0 -> s * 32768 <= inject_Z t /\ inject_Z t < s * 32768 + 1)
    /\ (0 <= s -> inject_Z t <= s * 32767 /\ s * 32767 < inject_Z t + 1).
Proof.
  intros Hc [Hlo Hhi]. unfold scaleSample. rewrite Hc. unfold lt, ofZ.
  destruct (Qle_bool (inject_Z 0) s) eqn:E; simpl.
  - apply Qle_bool_iff in E. change (inject_Z 0) with 0 in E.
    exists (s * inject_Z 32767), (truncate (s * inject_Z 32767)).
    change (inject_Z 32767) with (32767 # 1).
    destruct (truncate_nonneg (s * (32767 # 1))) as [H1 H2]; [nra|].
    assert (Hr : (-32768 <= truncate (s * (32767 # 1)) <= 32767)%Z).
    { split.
      - assert (H : inject_Z (-1) < inject_Z (truncate (s * (32767 # 1)))).
        { change (inject_Z (-1)) with (-1 # 1).
          generalize dependent (inject_Z (truncate (s * (32767 # 1)))).
          intros c ? ?. lra. }
        rewrite <- Zlt_Qlt in H. lia.
      - assert (H : inject_Z (truncate (s * (32767 # 1))) <= inject_Z 32767).
        { change (inject_Z 32767) with (32767 # 1).
          generalize dependent (inject_Z (truncate (s * (32767 # 1)))).
          intros c ? ?. lra. }
        rewrite <- Zle_Qle in H. exact H. }
    split; [reflexivity|]. split; [reflexivity|].
    split; [apply wrap16_id, Hr|]. split; [exact Hr|].
    split; [intros Hneg; exfalso; lra|]. intros _. split; assumption.
  - apply Qle_bool_false in E. change (inject_Z 0) with 0 in E.
    exists (s * inject_Z 32768), (truncate (s * inject_Z 32768)).
    change (inject_Z 32768) with (32768 # 1).
    destruct (truncate_neg (s * (32768 # 1))) as [H1 H2]; [nra|].
    assert (Hr : (-32768 <= truncate (s * (32768 # 1)) <= 32767)%Z).
    { split.
      - assert (H : inject_Z (-32768) <= inject_Z (truncate (s * (32768 # 1)))).
        { change (inject_Z (-32768)) with (-32768 # 1).
          generalize dependent (inject_Z (truncate (s * (32768 # 1)))).
          intros c ? ?. lra. }
        rewrite <- Zle_Qle in H. exact H.
      - assert (H : inject_Z (truncate (s * (32768 # 1))) < inject_Z 1).
        { change (inject_Z 1) with 1.
          generalize dependent (inject_Z (truncate (s * (32768 # 1)))).
          intros c ? ?. lra. }
        rewrite <- Zlt_Qlt in H. lia. }
    split; [reflexivity|]. split; [reflexivity|].
    split; [apply wrap16_id, Hr|]. split; [exact Hr|].
    split; [intros _; split; assumption|]. intros Hpos. exfalso. lra.
Qed.

(** C3, as the code has it: a sample in [-1, 1] that goes through
    [float32ToInt16] and back through the division by [0x8000] comes
    back within two quantization steps of itself (the positive half is
    scaled by [0x7fff] and divided by [0x8000]), and within one step
    when it is not positive; a sample above 1 is stored as [0x7fff], a
    sample below -1 as [-0x8000]; and for every sample, NaN and the
    infinities among them, the stored value is the scaled value
    truncated, inside the 16-bit range: the store never wraps. *)
Theorem sample_roundTrip :
  (forall q : Q, -1 <= q <= 1 ->
     exists r, roundTrip (Fin q) = Fin r
       /\ Qabs (r - q) < 2 * quantum
       /\ (q <= 0 -> Qabs (r - q) < quantum))
  /\ (forall v, lt (ofZ 1) v = true -> float32ToInt16 [v] = [0x7fff%Z])
  /\ (forall v, lt v (ofZ (-1)) = true -> float32ToInt16 [v] = [(- 0x8000)%Z])
  /\ (forall v x, scaleSample v = Fin x -> ToInt16 (scaleSample v) = truncate x)
  /\ (forall float32Array, Forall isInt16 (float32ToInt16 float32Array)).
Proof.
  assert (Hrange : forall v, isInt16 (ToInt16 (scaleSample v))).
  { intros v. unfold isInt16.
    destruct (clamp_cases v) as [Hn|(s & Hs & Hrange)].
    - unfold scaleSample. rewrite Hn. simpl. lia.
    - destruct (scaled_finite v s Hs Hrange) as (x & t & _ & _ & -> & Hr & _).
      exact Hr. }
  split; [|split; [|split; [|split]]].
  - intros q Hq.
    destruct (clamp_inside q Hq) as (s & Hs & Heq).
    assert (Hs1 : -1 <= s <= 1) by (destruct Hq; split; lra).
    destruct (scaled_finite (Fin q) s Hs Hs1)
      as (x & t & Hx & Ht & Hstore & Hr & Hneg & Hpos).
    exists (t # 32768). unfold roundTrip. rewrite Hstore.
    split; [reflexivity|]. unfold quantum.
    destruct Hq as [Hlo Hhi].
    split; [|intros Hq0]; apply Qabs_Qlt_condition; rewrite (make_scale t);
      generalize dependent (inject_Z t); intros c Hneg Hpos;
      (destruct (Qlt_le_dec s 0) as [Hs0|Hs0];
       [destruct (Hneg Hs0)|destruct (Hpos Hs0)]); split; lra.
  - intros v H. unfold float32ToInt16, scaleSample. cbn [List.map].
    rewrite (clamp_above v H). reflexivity.
  - intros v H. unfold float32ToInt16, scaleSample. cbn [List.map].
    rewrite (clamp_below v H). reflexivity.
  - intros v x Hx.
    destruct (clamp_cases v) as [Hn|(s & Hs & Hs1)].
    + unfold scaleSample in Hx. rewrite Hn in Hx. discriminate Hx.
    + destruct (scaled_finite v s Hs Hs1) as (x' & t & Hx' & -> & -> & _).
      rewrite Hx in Hx'. injection Hx' as ->. reflexivity.
  - intros l. unfold float32ToInt16.
    induction l as [|v l IH]; constructor; [apply Hrange|exact IH].
Qed.

Lemma sample_roundTrip_witness :
  (exists r, roundTrip (Fin (1 # 2)) = Fin r /\ Qabs (r - (1 # 2)) < 2 * quantum)
  /\ (exists r, roundTrip (Fin (-1 # 3)) = Fin r /\ Qabs (r - (-1 # 3)) < quantum)
  /\ float32ToInt16 [Fin (3 # 2)] = [0x7fff%Z]
  /\ float32ToInt16 [NegInf] = [(- 0x8000)%Z].
Proof.
  split; [|split; [|split]].
  - destruct (proj1 sample_roundTrip (1 # 2)) as (r & Hr & Hb & _).
    + split; discriminate.
    + exists r. split; assumption.
  - destruct (proj1 sample_roundTrip (-1 # 3)) as (r & Hr & _ & Hb).
    + split; discriminate.
    + exists r. split; [exact Hr|]. apply Hb. discriminate.
  - apply (proj1 (proj2 sample_roundTrip)). reflexivity.
  - apply (proj1 (proj2 (proj2 sample_roundTrip))). reflexivity.
Defined.

(** The two conversions are not inverse of each other on the positive
    half: a positive sample read from the transport and converted again
    loses one unit. *)
Example reconvert_loses_one_unit :
  float32ToInt16 [toFloat 1; toFloat 16384; toFloat 32767; toFloat (-16384)]
  = [0; 16383; 32766; -16384]%Z.
Proof. vm_compute. reflexivity. Qed.

(** C3 as stated fails on the positive half: the binary32 value
    0.5000152587890625 is stored as 16383 and comes back as
    0.499969482421875, one and a half steps away. *)
Lemma roundTrip_exceeds_one_step :
  binary32 (32769 # 65536)
  /\ -1 <= 32769 # 65536 <= 1
  /\ float32ToInt16 [Fin (32769 # 65536)] = [16383%Z]
  /\ roundTrip (Fin (32769 # 65536)) = Fin (16383 # 32768)
  /\ ~ Qabs ((16383 # 32768) - (32769 # 65536)) <= quantum.
Proof.
  split; [|split; [|split; [|split]]].
  - exists 32769%Z, (-16)%Z. split; [reflexivity|]. split; [lia|]. reflexivity.
  - split; discriminate.
  - reflexivity.
  - reflexivity.
  - intros H. vm_compute in H. apply H. reflexivity.
Qed.

End SampleFacts.

(** *** Transport encoding *)

Section Base64Facts.
Import JS Codec.

Ltac ndiv := zify; Z.to_euclidean_division_equations; lia.

Lemma list_ind3 {A : Type} (P : list A -> Prop) :
  P [] ->
  (forall a, P [a]) ->
  (forall a b, P [a; b]) ->
  (forall a b c r, P r -> P (a :: b :: c :: r)) ->
  forall l, P l.
Proof.
  intros H0 H1 H2 H3. fix F 1.
  intros [|a [|b [|c r]]]; [exact H0|apply H1|apply H2|apply H3, F].
Qed.

Lemma sextets_cons3 (a b c : N) (r : list N) :
  sextets (a :: b :: c :: r)
  = a / 4 :: (a mod 4) * 16 + b / 16 :: (b mod 16) * 4 + c / 64 :: c mod 64
      :: sextets r.
Proof. reflexivity. Qed.

Lemma bytesOfSextets_cons4 (a b c d : N) (r : list N) :
  bytesOfSextets (a :: b :: c :: d :: r)
  = (((a * 64 + b) * 64 + c) * 64 + d) / 65536
      :: ((((a * 64 + b) * 64 + c) * 64 + d) / 256) mod 256
      :: (((a * 64 + b) * 64 + c) * 64 + d) mod 256
      :: bytesOfSextets r.
Proof. reflexivity. Qed.

Lemma group3 (a b c : N) :
  a < 256 -> b < 256 -> c < 256 ->
  ((a / 4 * 64 + ((a mod 4) * 16 + b / 16)) * 64 + ((b mod 16) * 4 + c / 64)) * 64
    + c mod 64
  = a * 65536 + b * 256 + c.
Proof. intros Ha Hb Hc. ndiv. Qed.

(** The bytes are recovered from their 6-bit groups. *)
Lemma bytesOfSextets_sextets (bs : list N) :
  Forall isByte bs -> bytesOfSextets (sextets bs) = bs.
Proof.
  unfold isByte.
  induction bs as [|a|a b|a b c r IH] using list_ind3; intros H.
  - reflexivity.
  - inversion_clear H as [|? ? Ha _].
    change (bytesOfSextets (sextets [a]))
      with [(a / 4 * 64 + (a mod 4) * 16) / 16].
    f_equal. ndiv.
  - inversion_clear H as [|? ? Ha H']. inversion_clear H' as [|? ? Hb _].
    change (bytesOfSextets (sextets [a; b]))
      with [((a / 4 * 64 + ((a mod 4) * 16 + b / 16)) * 64 + (b mod 16) * 4) / 1024;
            (((a / 4 * 64 + ((a mod 4) * 16 + b / 16)) * 64 + (b mod 16) * 4) / 4)
              mod 256].
    assert (E : (a / 4 * 64 + ((a mod 4) * 16 + b / 16)) * 64 + (b mod 16) * 4
                = a * 1024 + b * 4) by ndiv.
    rewrite E. f_equal; [ndiv|]. f_equal. ndiv.
  - inversion_clear H as [|? ? Ha H']. inversion_clear H' as [|? ? Hb H''].
    inversion_clear H'' as [|? ? Hc Hr].
    rewrite sextets_cons3, bytesOfSextets_cons4, (group3 a b c Ha Hb Hc), (IH Hr).
    f_equal; [ndiv|]. f_equal; [ndiv|]. f_equal. ndiv.
Qed.

Lemma sextets_bound (bs : list N) :
  Forall isByte bs -> Forall (fun v => v < 64) (sextets bs).
Proof.
  unfold isByte.
  induction bs as [|a|a b|a b c r IH] using list_ind3; intros H.
  - constructor.
  - inversion_clear H as [|? ? Ha _].
    change (sextets [a]) with [a / 4; (a mod 4) * 16].
    repeat constructor; ndiv.
  - inversion_clear H as [|? ? Ha H']. inversion_clear H' as [|? ? Hb _].
    change (sextets [a; b])
      with [a / 4; (a mod 4) * 16 + b / 16; (b mod 16) * 4].
    repeat constructor; ndiv.
  - inversion_clear H as [|? ? Ha H']. inversion_clear H' as [|? ? Hb H''].
    inversion_clear H'' as [|? ? Hc Hr].
    rewrite sextets_cons3.
    repeat (constructor; [ndiv|]). exact (IH Hr).
Qed.

(** Three bytes give four groups; one byte left over gives two, two
    bytes left over give three. *)
Lemma sextets_length (bs : list N) :
  exists k : nat,
    (length bs = 3 * k /\ length (sextets bs) = 4 * k)%nat
    \/ (length bs = 1 + k * 3 /\ length (sextets bs) = 2 + k * 4)%nat
    \/ (length bs = 2 + k * 3 /\ length (sextets bs) = 3 + k * 4)%nat.
Proof.
  induction bs as [|a|a b|a b c r IH] using list_ind3.
  - exists 0%nat. left. split; reflexivity.
  - exists 0%nat. right. left. split; reflexivity.
  - exists 0%nat. right. right. split; reflexivity.
  - destruct IH as [k IH]. exists (S k). rewrite sextets_cons3.
    cbn [length]. lia.
Qed.

(** The alphabet has 64 distinct units, none of them white space or
    the padding sign. *)
Lemma b64_table (v : N) : v < 64 -> tableOk v = true.
Proof.
  intros H.
  assert (Hall : forallb tableOk (List.map N.of_nat (seq 0 64)) = true)
    by (vm_compute; reflexivity).
  rewrite forallb_forall in Hall. apply Hall.
  rewrite <- (N2Nat.id v). apply in_map, in_seq. lia.
Qed.

Lemma b64Val_b64Char (v : N) : v < 64 -> b64Val (b64Char v) = Some v.
Proof.
  intros H. pose proof (b64_table v H) as T. unfold tableOk in T.
  apply andb_true_iff in T as [T _]. apply andb_true_iff in T as [T _].
  destruct (b64Val (b64Char v)) as [w|]; [|discriminate T].
  apply N.eqb_eq in T. congruence.
Qed.

Lemma b64Char_plain (v : N) :
  v < 64 -> isAsciiWhitespace (b64Char v) = false /\ (b64Char v =? PAD) = false.
Proof.
  intros H. pose proof (b64_table v H) as T. unfold tableOk in T.
  apply andb_true_iff in T as [T T2]. apply andb_true_iff in T as [_ T1].
  apply negb_true_iff in T1, T2. auto.
Qed.

Lemma traverse_b64 (v : list N) :
  Forall (fun x => x < 64) v -> traverse b64Val (List.map b64Char v) = Some v.
Proof.
  induction 1 as [|x v Hx _ IH]; [reflexivity|].
  cbn [List.map traverse]. rewrite (b64Val_b64Char x Hx), IH. reflexivity.
Qed.

Lemma filter_plain (l : jsstring) :
  Forall (fun c => isAsciiWhitespace c = false) l ->
  List.filter (fun c => negb (isAsciiWhitespace c)) l = l.
Proof.
  induction 1 as [|c l Hc _ IH]; [reflexivity|].
  cbn [List.filter]. rewrite Hc, IH. reflexivity.
Qed.

Lemma body_plain (v : list N) :
  Forall (fun x => x < 64) v ->
  Forall (fun c => isAsciiWhitespace c = false) (List.map b64Char v)
  /\ Forall (fun c => (c =? PAD) = false) (List.map b64Char v).
Proof.
  induction 1 as [|x v Hx _ [IH1 IH2]]; [split; constructor|].
  destruct (b64Char_plain x Hx). split; constructor; assumption.
Qed.

(** The last unit of a non-empty list, seen from its reverse. *)
Lemma rev_head (body : jsstring) :
  Forall (fun c => (c =? PAD) = false) body ->
  body = [] \/ exists x r, rev body = x :: r /\ (x =? PAD) = false.
Proof.
  intros H. destruct (rev body) as [|x r] eqn:E.
  - left. rewrite <- (rev_involutive body), E. reflexivity.
  - right. exists x, r. split; [reflexivity|].
    rewrite List.Forall_forall in H. apply H.
    apply in_rev. rewrite E. left. reflexivity.
Qed.

Lemma mod4_0 (k : nat) : ((4 * k) mod 4 = 0)%nat.
Proof. rewrite Nat.mul_comm. apply Nat.Div0.mod_mul. Qed.

Lemma mod4_add (r k : nat) : ((r + k * 4) mod 4 = r mod 4)%nat.
Proof. apply Nat.Div0.mod_add. Qed.

Lemma mod3_0 (k : nat) : ((3 * k) mod 3 = 0)%nat.
Proof. rewrite Nat.mul_comm. apply Nat.Div0.mod_mul. Qed.

Lemma mod3_add (r k : nat) : ((r + k * 3) mod 3 = r mod 3)%nat.
Proof. apply Nat.Div0.mod_add. Qed.

(** On the output of [btoa], padding removal gives back the body, whose
    length does not leave remainder 1 modulo 4. *)
Lemma stripPadding_encoded (bs : list N) :
  Forall isByte bs ->
  stripPadding (List.map b64Char (sextets bs) ++ padding (length bs))
  = List.map b64Char (sextets bs)
  /\ (length (List.map b64Char (sextets bs)) mod 4 =? 1)%nat = false.
Proof.
  intros Hb.
  destruct (body_plain _ (sextets_bound bs Hb)) as [_ Hpad].
  pose proof (rev_head _ Hpad) as Hrev.
  set (body := List.map b64Char (sextets bs)) in *.
  assert (Hbody : length body = length (sextets bs)) by apply length_map.
  destruct (sextets_length bs) as [k [[Hl Hs]|[[Hl Hs]|[Hl Hs]]]].
  - assert (Hp : padding (length bs) = []).
    { unfold padding. rewrite Hl, mod3_0. reflexivity. }
    rewrite Hp, app_nil_r. unfold stripPadding.
    rewrite Hbody, Hs, mod4_0. split; [|reflexivity]. cbn [Nat.eqb].
    destruct Hrev as [->|(x & r & -> & Hx)]; [reflexivity|].
    destruct r; rewrite Hx; reflexivity.
  - assert (Hp : padding (length bs) = [PAD; PAD]).
    { unfold padding. rewrite Hl, mod3_add. reflexivity. }
    rewrite Hp. unfold stripPadding.
    rewrite length_app, Hbody, Hs. cbn [length].
    replace (2 + k * 4 + 2)%nat with (4 * S k)%nat by lia.
    rewrite mod4_0, mod4_add. split; [|reflexivity]. cbn [Nat.eqb].
    rewrite rev_app_distr. cbn [rev app].
    rewrite N.eqb_refl, rev_involutive. reflexivity.
  - assert (Hp : padding (length bs) = [PAD]).
    { unfold padding. rewrite Hl, mod3_add. reflexivity. }
    rewrite Hp. unfold stripPadding.
    rewrite length_app, Hbody, Hs. cbn [length].
    replace (3 + k * 4 + 1)%nat with (4 * S k)%nat by lia.
    rewrite mod4_0, mod4_add. split; [|reflexivity]. cbn [Nat.eqb].
    rewrite rev_app_distr. cbn [rev app]. rewrite N.eqb_refl.
    destruct Hrev as [E|(x & r & E & Hx)].
    + apply (f_equal (@length N)) in E. rewrite Hbody, Hs in E.
      discriminate E.
    + rewrite E, Hx. rewrite <- (rev_involutive body), E. reflexivity.
Qed.

Lemma forallb_bytes (bs : list N) :
  Forall isByte bs -> forallb (fun c => c <=? 255) bs = true.
Proof.
  intros H. apply forallb_forall. rewrite List.Forall_forall in H.
  intros c Hc. apply N.leb_le. specialize (H c Hc). unfold isByte in H. lia.
Qed.

(** [atob] undoes [btoa] on every binary string. *)
Lemma atob_btoa (bs : list N) :
  Forall isByte bs ->
  btoa bs = Some (List.map b64Char (sextets bs) ++ padding (length bs))
  /\ atob (List.map b64Char (sextets bs) ++ padding (length bs)) = Some bs.
Proof.
  intros Hb. unfold btoa. rewrite (forallb_bytes bs Hb). split; [reflexivity|].
  destruct (body_plain _ (sextets_bound bs Hb)) as [Hws _].
  destruct (stripPadding_encoded bs Hb) as [Hstrip Hlen].
  unfold atob. rewrite filter_plain.
  - rewrite Hstrip, Hlen, (traverse_b64 _ (sextets_bound bs Hb)).
    rewrite (bytesOfSextets_sextets bs Hb). reflexivity.
  - apply Forall_app. split; [exact Hws|].
    unfold padding. destruct (length bs mod 3)%nat as [|[|?]];
      repeat constructor.
Qed.

Lemma int16Bytes_bytes (littleEndian : bool) (i : Z) :
  Forall isByte (int16Bytes littleEndian i).
Proof.
  unfold int16Bytes, isByte.
  destruct littleEndian; repeat constructor; ndiv.
Qed.

Lemma uint8View_bytes (littleEndian : bool) (b : list Z) :
  Forall isByte (uint8View littleEndian b).
Proof.
  induction b as [|i b IH]; [constructor|].
  unfold uint8View. cbn [flat_map]. apply Forall_app.
  split; [apply int16Bytes_bytes|exact IH].
Qed.

(** Two bytes per sample and nothing else. *)
Lemma uint8View_length (littleEndian : bool) (b : list Z) :
  length (uint8View littleEndian b) = (2 * length b)%nat.
Proof.
  induction b as [|i b IH]; [reflexivity|].
  unfold uint8View in *. cbn [flat_map]. rewrite length_app, IH.
  unfold int16Bytes. destruct littleEndian; cbn [length]; lia.
Qed.

Lemma int16_of_bytes (i : Z) :
  isInt16 i ->
  wrap16 (Z.of_N (Z.to_N (i mod 65536) mod 256
                  + 256 * (Z.to_N (i mod 65536) / 256))) = i
  /\ wrap16 (Z.of_N (256 * (Z.to_N (i mod 65536) / 256)
                     + Z.to_N (i mod 65536) mod 256)) = i.
Proof.
  unfold isInt16. intros Hi.
  assert (E : Z.to_N (i mod 65536) mod 256 + 256 * (Z.to_N (i mod 65536) / 256)
              = Z.to_N (i mod 65536)) by ndiv.
  rewrite (N.add_comm (256 * _)), E.
  assert (E' : Z.of_N (Z.to_N (i mod 65536)) = (i mod 65536)%Z) by ndiv.
  rewrite E'. unfold wrap16.
  assert (Hm : ((i mod 65536) mod 65536 = i mod 65536)%Z) by ndiv.
  rewrite Hm.
  destruct (Z.leb_spec 32768 (i mod 65536)); split; ndiv.
Qed.

(** The 16-bit view of the buffer reads back what the byte view wrote,
    whatever the byte order. *)
Lemma int16View_uint8View (littleEndian : bool) (b : list Z) :
  Forall isInt16 b ->
  int16View littleEndian (uint8View littleEndian b) = Some b.
Proof.
  induction 1 as [|i b Hi _ IH]; [reflexivity|].
  destruct (int16_of_bytes i Hi) as [Hle Hbe].
  unfold uint8View in *. cbn [flat_map].
  unfold int16Bytes at 1.
  destruct littleEndian; cbn [app int16View]; rewrite IH; f_equal; f_equal;
    assumption.
Qed.

Lemma map_mod256 (l : list N) :
  Forall isByte l -> List.map (fun c => c mod 256) l = l.
Proof.
  induction 1 as [|c l Hc _ IH]; [reflexivity|].
  cbn [List.map]. rewrite IH. f_equal. unfold isByte in Hc. ndiv.
Qed.

Lemma decode_encode (littleEndian : bool) (b : list Z) :
  Forall isInt16 b ->
  exists x,
    int16ToBase64 littleEndian b = Some x
    /\ atob x = Some (uint8View littleEndian b)
    /\ decodeInt16 littleEndian x = Some b.
Proof.
  intros Hb.
  pose proof (uint8View_bytes littleEndian b) as Hbytes.
  destruct (atob_btoa _ Hbytes) as [Henc Hdec].
  eexists. split; [exact Henc|]. split; [exact Hdec|].
  unfold decodeInt16. rewrite Hdec, (map_mod256 _ Hbytes).
  apply int16View_uint8View, Hb.
Qed.

(** *** Canonical strings are encodings *)

Lemma indexOf_nth (c : N) (l : jsstring) (i : N) :
  indexOf c l = Some i ->
  (N.to_nat i < length l)%nat /\ nth (N.to_nat i) l PAD = c.
Proof.
  revert i. induction l as [|x l IH]; intros i H; [discriminate H|].
  cbn [indexOf] in H. destruct (N.eqb_spec c x) as [->|Hne].
  - injection H as <-. split; [cbn; lia|reflexivity].
  - destruct (indexOf c l) as [j|]; [|discriminate H]. injection H as <-.
    destruct (IH j eq_refl) as [Hlt Hnth].
    rewrite N2Nat.inj_succ. split; [cbn [length]; lia|exact Hnth].
Qed.

Lemma isB64_valOf (c : N) :
  isB64 c = true -> valOf c < 64 /\ b64Char (valOf c) = c.
Proof.
  unfold isB64, valOf, b64Val, b64Char.
  destruct (indexOf c b64Alphabet) as [v|] eqn:E; [intros _|discriminate].
  destruct (indexOf_nth c b64Alphabet v E) as [Hlt Hnth].
  split; [|exact Hnth]. change (length b64Alphabet) with 64%nat in Hlt. lia.
Qed.

Lemma list_ind4 {A : Type} (P : list A -> Prop) :
  P [] ->
  (forall a, P [a]) ->
  (forall a b, P [a; b]) ->
  (forall a b c, P [a; b; c]) ->
  (forall a b c d r, P r -> P (a :: b :: c :: d :: r)) ->
  forall l, P l.
Proof.
  intros H0 H1 H2 H3 H4. fix F 1.
  intros [|a [|b [|c [|d r]]]];
    [exact H0|apply H1|apply H2|apply H3|apply H4, F].
Qed.

Lemma full_group (va vb vc vd : N) :
  va < 64 -> vb < 64 -> vc < 64 -> vd < 64 ->
  exists b0 b1 b2,
    b0 < 256 /\ b1 < 256 /\ b2 < 256
    /\ b0 / 4 = va /\ (b0 mod 4) * 16 + b1 / 16 = vb
    /\ (b1 mod 16) * 4 + b2 / 64 = vc /\ b2 mod 64 = vd.
Proof.
  intros Ha Hb Hc Hd.
  exists (va * 4 + vb / 16), ((vb mod 16) * 16 + vc / 4), ((vc mod 4) * 64 + vd).
  repeat split; ndiv.
Qed.

Lemma last_group2 (va vb vc : N) :
  va < 64 -> vb < 64 -> vc < 64 -> vc mod 4 = 0 ->
  exists b0 b1,
    b0 < 256 /\ b1 < 256
    /\ b0 / 4 = va /\ (b0 mod 4) * 16 + b1 / 16 = vb /\ (b1 mod 16) * 4 = vc.
Proof.
  intros Ha Hb Hc H0.
  exists (va * 4 + vb / 16), ((vb mod 16) * 16 + vc / 4).
  repeat split; ndiv.
Qed.

Lemma last_group1 (va vb : N) :
  va < 64 -> vb < 64 -> vb mod 16 = 0 ->
  exists b0, b0 < 256 /\ b0 / 4 = va /\ (b0 mod 4) * 16 = vb.
Proof.
  intros Ha Hb H0. exists (va * 4 + vb / 16). repeat split; ndiv.
Qed.

Lemma padding_add3 (n : nat) : padding (3 + n) = padding n.
Proof.
  unfold padding. replace (3 + n)%nat with (n + 1 * 3)%nat by lia.
  rewrite Nat.Div0.mod_add. reflexivity.
Qed.

(** A canonical string is what [btoa] writes for some binary string. *)
Lemma canonical_shape (x : jsstring) :
  canonical x = true ->
  exists bs,
    Forall isByte bs
    /\ x = List.map b64Char (sextets bs) ++ padding (length bs).
Proof.
  induction x as [|a|a b|a b c|a b c d r IH] using list_ind4;
    try discriminate.
  - intros _. exists []. split; [constructor|reflexivity].
  - cbn [canonical]. destruct r as [|e r].
    + clear IH. intros H.
      apply andb_true_iff in H as [H Hcd].
      apply andb_true_iff in H as [Ha Hb].
      destruct (isB64_valOf a Ha) as [Hva Hca].
      destruct (isB64_valOf b Hb) as [Hvb Hcb].
      destruct (N.eqb_spec d PAD) as [->|Hd].
      * destruct (N.eqb_spec c PAD) as [->|Hc].
        -- apply N.eqb_eq in Hcd.
           destruct (last_group1 _ _ Hva Hvb Hcd) as (b0 & H0 & E0 & E1).
           exists [b0]. split; [repeat constructor; exact H0|].
           change (sextets [b0]) with [b0 / 4; (b0 mod 4) * 16].
           rewrite E0, E1. cbn [List.map]. rewrite Hca, Hcb. reflexivity.
        -- apply andb_true_iff in Hcd as [Hc' Hz]. apply N.eqb_eq in Hz.
           destruct (isB64_valOf c Hc') as [Hvc Hcc].
           destruct (last_group2 _ _ _ Hva Hvb Hvc Hz)
             as (b0 & b1 & H0 & H1 & E0 & E1 & E2).
           exists [b0; b1]. split; [repeat constructor; assumption|].
           change (sextets [b0; b1])
             with [b0 / 4; (b0 mod 4) * 16 + b1 / 16; (b1 mod 16) * 4].
           rewrite E0, E1, E2. cbn [List.map]. rewrite Hca, Hcb, Hcc.
           reflexivity.
      * apply andb_true_iff in Hcd as [Hc Hd'].
        destruct (isB64_valOf c Hc) as [Hvc Hcc].
        destruct (isB64_valOf d Hd') as [Hvd Hcd].
        destruct (full_group _ _ _ _ Hva Hvb Hvc Hvd)
          as (b0 & b1 & b2 & H0 & H1 & H2 & E0 & E1 & E2 & E3).
        exists [b0; b1; b2]. split; [repeat constructor; assumption|].
        rewrite sextets_cons3, E0, E1, E2, E3. cbn [List.map sextets].
        rewrite Hca, Hcb, Hcc, Hcd. reflexivity.
    + intros H.
      apply andb_true_iff in H as [H Hr].
      apply andb_true_iff in H as [H Hd].
      apply andb_true_iff in H as [H Hc].
      apply andb_true_iff in H as [Ha Hb].
      destruct (isB64_valOf a Ha) as [Hva Hca].
      destruct (isB64_valOf b Hb) as [Hvb Hcb].
      destruct (isB64_valOf c Hc) as [Hvc Hcc].
      destruct (isB64_valOf d Hd) as [Hvd Hcd].
      destruct (IH Hr) as (bs & Hbs & Ers).
      destruct (full_group _ _ _ _ Hva Hvb Hvc Hvd)
        as (b0 & b1 & b2 & H0 & H1 & H2 & E0 & E1 & E2 & E3).
      exists (b0 :: b1 :: b2 :: bs).
      split; [repeat (constructor; [assumption|]); exact Hbs|].
      rewrite sextets_cons3, E0, E1, E2, E3.
      change (length (b0 :: b1 :: b2 :: bs)) with (3 + length bs)%nat.
      rewrite padding_add3. cbn [List.map app].
      rewrite Hca, Hcb, Hcc, Hcd, <- Ers. reflexivity.
Qed.

Lemma int16Bytes_wrap (littleEndian : bool) (b0 b1 : N) :
  b0 < 256 -> b1 < 256 ->
  isInt16 (wrap16 (Z.of_N (if littleEndian then b0 + 256 * b1 else 256 * b0 + b1)))
  /\ int16Bytes littleEndian
       (wrap16 (Z.of_N (if littleEndian then b0 + 256 * b1 else 256 * b0 + b1)))
     = [b0; b1].
Proof.
  intros H0 H1. unfold isInt16, int16Bytes.
  set (u := if littleEndian then b0 + 256 * b1 else 256 * b0 + b1).
  assert (Hu : u < 65536) by (subst u; destruct littleEndian; lia).
  assert (Hw : (-32768 <= wrap16 (Z.of_N u) <= 32767)%Z) by apply wrap16_range.
  assert (E : Z.to_N (wrap16 (Z.of_N u) mod 65536) = u).
  { unfold wrap16 in *.
    destruct (Z.leb_spec 32768 (Z.of_N u mod 65536)); ndiv. }
  split; [exact Hw|]. rewrite E. subst u.
  destruct littleEndian; f_equal; [ndiv|f_equal; ndiv|ndiv|f_equal; ndiv].
Qed.

(** A byte string of even length is the byte view of a buffer of
    16-bit samples. *)
Lemma int16View_even (littleEndian : bool) (bytes : list N) :
  Forall isByte bytes ->
  Nat.even (length bytes) = true ->
  exists b,
    int16View littleEndian bytes = Some b
    /\ Forall isInt16 b
    /\ uint8View littleEndian b = bytes.
Proof.
  revert bytes. fix F 1. intros [|b0 [|b1 r]] Hb He.
  - exists []. repeat split. constructor.
  - discriminate He.
  - inversion_clear Hb as [|? ? H0 Hb']. inversion_clear Hb' as [|? ? H1 Hr].
    destruct (F r Hr He) as (b & Hv & Hi & Hu).
    destruct (int16Bytes_wrap littleEndian b0 b1 H0 H1) as [Hw Hbytes].
    eexists. cbn [int16View]. rewrite Hv. split; [reflexivity|].
    split; [constructor; [exact Hw|exact Hi]|].
    unfold uint8View in *. cbn [flat_map]. rewrite Hbytes, Hu. reflexivity.
Qed.

(** A canonical encoding of a whole number of samples is a valid
    encoded string. *)
Lemma wellFormed_valid (littleEndian : bool) (x : jsstring) :
  wellFormed x = true -> validEncoded littleEndian x.
Proof.
  unfold wellFormed. intros H. apply andb_true_iff in H as [Hc He].
  destruct (canonical_shape x Hc) as (bs & Hbs & ->).
  destruct (atob_btoa bs Hbs) as [Henc Hdec]. rewrite Hdec in He.
  destruct (int16View_even littleEndian bs Hbs He) as (b & _ & Hi & Hu).
  exists b. split; [exact Hi|].
  unfold int16ToBase64. rewrite Hu. exact Henc.
Qed.

Lemma isB64_b64Char (v : N) :
  v < 64 -> isB64 (b64Char v) = true /\ valOf (b64Char v) = v.
Proof.
  intros H. unfold isB64, valOf. rewrite (b64Val_b64Char v H). auto.
Qed.

(** What [btoa] writes is canonical. *)
Lemma btoa_canonical (bs : list N) :
  Forall isByte bs ->
  canonical (List.map b64Char (sextets bs) ++ padding (length bs)) = true.
Proof.
  unfold isByte.
  induction bs as [|a|a b|a b c r IH] using list_ind3; intros H.
  - reflexivity.
  - inversion_clear H as [|? ? Ha _].
    change (List.map b64Char (sextets [a]) ++ padding (length [a]))
      with [b64Char (a / 4); b64Char ((a mod 4) * 16); PAD; PAD].
    assert (H0 : a / 4 < 64) by ndiv.
    assert (H1 : (a mod 4) * 16 < 64) by ndiv.
    destruct (isB64_b64Char _ H0) as [B0 _].
    destruct (isB64_b64Char _ H1) as [B1 V1].
    cbn [canonical]. rewrite B0, B1, V1, N.eqb_refl. cbn [andb].
    apply N.eqb_eq. ndiv.
  - inversion_clear H as [|? ? Ha H']. inversion_clear H' as [|? ? Hb _].
    change (List.map b64Char (sextets [a; b]) ++ padding (length [a; b]))
      with [b64Char (a / 4); b64Char ((a mod 4) * 16 + b / 16);
            b64Char ((b mod 16) * 4); PAD].
    assert (H0 : a / 4 < 64) by ndiv.
    assert (H1 : (a mod 4) * 16 + b / 16 < 64) by ndiv.
    assert (H2 : (b mod 16) * 4 < 64) by ndiv.
    destruct (isB64_b64Char _ H0) as [B0 _].
    destruct (isB64_b64Char _ H1) as [B1 _].
    destruct (isB64_b64Char _ H2) as [B2 V2].
    destruct (b64Char_plain _ H2) as [_ P2].
    cbn [canonical]. rewrite B0, B1, B2, V2, P2, N.eqb_refl. cbn [andb].
    apply N.eqb_eq. ndiv.
  - inversion_clear H as [|? ? Ha H']. inversion_clear H' as [|? ? Hb H''].
    inversion_clear H'' as [|? ? Hc Hr].
    rewrite sextets_cons3.
    change (length (a :: b :: c :: r)) with (3 + length r)%nat.
    rewrite padding_add3. cbn [List.map app].
    assert (H0 : a / 4 < 64) by ndiv.
    assert (H1 : (a mod 4) * 16 + b / 16 < 64) by ndiv.
    assert (H2 : (b mod 16) * 4 + c / 64 < 64) by ndiv.
    assert (H3 : c mod 64 < 64) by ndiv.
    destruct (isB64_b64Char _ H0) as [B0 _].
    destruct (isB64_b64Char _ H1) as [B1 _].
    destruct (isB64_b64Char _ H2) as [B2 _].
    destruct (isB64_b64Char _ H3) as [B3 _].
    destruct (b64Char_plain _ H3) as [_ P3].
    cbn [canonical]. rewrite B0, B1, B2, B3, P3, (IH Hr).
    destruct (List.map b64Char (sextets r) ++ padding (length r)); reflexivity.
Qed.

Lemma even_double (n : nat) : Nat.even (2 * n) = true.
Proof.
  apply Nat.even_spec. exists n. reflexivity.
Qed.

(** The valid encoded strings are the canonical encodings of a whole
    number of samples. *)
Lemma valid_wellFormed (littleEndian : bool) (x : jsstring) :
  validEncoded littleEndian x <-> wellFormed x = true.
Proof.
  split; [|apply wellFormed_valid].
  intros (b & Hb & Henc).
  pose proof (uint8View_bytes littleEndian b) as Hbytes.
  destruct (atob_btoa _ Hbytes) as [Henc' Hdec].
  unfold int16ToBase64 in Henc. rewrite Henc' in Henc. injection Henc as <-.
  unfold wellFormed. rewrite (btoa_canonical _ Hbytes), Hdec.
  rewrite uint8View_length. apply even_double.
Qed.

Lemma toFloat_injective (b b' : list Z) :
  List.map toFloat b' = List.map toFloat b -> b' = b.
Proof.
  revert b. induction b' as [|i b' IH]; intros [|j b] H; try discriminate H.
  - reflexivity.
  - cbn [List.map] in H. injection H as Hij Hrest.
    rewrite (IH b Hrest). congruence.
Qed.

(** C4: the transport encoding of a buffer of 16-bit samples is
    lossless. [int16ToBase64] succeeds on every buffer [b]; decoding
    its result gives back [b] itself (and [base64ToFloat32] gives the
    samples of [b] over [0x8000], from which [b] is recovered); the
    payload is the two bytes of each sample and nothing else, so the
    decoded buffer has as many samples as [b]; and encoding what is
    decoded from a valid encoded string gives back that string, the
    valid encoded strings being the encodings of the buffers, that is
    the canonical base64 strings of an even number of bytes. *)
Theorem transport_roundTrip (littleEndian : bool) :
  (forall b : list Z,
      Forall isInt16 b ->
      exists x,
        int16ToBase64 littleEndian b = Some x
        /\ decodeInt16 littleEndian x = Some b
        /\ base64ToFloat32 littleEndian x = Some (List.map toFloat b)
        /\ atob x = Some (uint8View littleEndian b)
        /\ length (uint8View littleEndian b) = (2 * length b)%nat
        /\ (forall f, base64ToFloat32 littleEndian x = Some f ->
              length f = length b))
  /\ (forall x : jsstring,
        validEncoded littleEndian x ->
        exists b,
          decodeInt16 littleEndian x = Some b
          /\ int16ToBase64 littleEndian b = Some x)
  /\ (forall x : jsstring, validEncoded littleEndian x <-> wellFormed x = true)
  /\ (forall b b' : list Z, List.map toFloat b' = List.map toFloat b -> b' = b).
Proof.
  split; [|split; [|split; [apply valid_wellFormed|]]].
  - intros b Hb.
    destruct (decode_encode littleEndian b Hb) as (x & Henc & Hbin & Hdec).
    exists x. split; [exact Henc|]. split; [exact Hdec|].
    assert (Hf : base64ToFloat32 littleEndian x = Some (List.map toFloat b))
      by (unfold base64ToFloat32; rewrite Hdec; reflexivity).
    split; [exact Hf|]. split; [exact Hbin|].
    split; [apply uint8View_length|].
    intros f Hf'. rewrite Hf in Hf'. injection Hf' as <-. apply length_map.
  - intros x (b & Hb & Henc).
    destruct (decode_encode littleEndian b Hb) as (x' & Henc' & _ & Hdec).
    rewrite Henc in Henc'. injection Henc' as <-.
    exists b. split; assumption.
  - intros b b'. apply toFloat_injective.
Qed.

Lemma transport_roundTrip_witness :
  let b := [0; 1; -1; 32767; -32768]%Z in
  let x := js "AAABAP///38AgA==" in
  int16ToBase64 true b = Some x
  /\ validEncoded true x
  /\ exists b',
       decodeInt16 true x = Some b' /\ int16ToBase64 true b' = Some x.
Proof.
  intros b x.
  assert (Hb : Forall isInt16 b) by (repeat constructor; unfold isInt16; lia).
  assert (Hx : int16ToBase64 true b = Some x) by (vm_compute; reflexivity).
  assert (Hv : validEncoded true x) by (exists b; split; assumption).
  split; [exact Hx|]. split; [exact Hv|].
  exact (proj1 (proj2 (transport_roundTrip true)) x Hv).
Defined.

(** Outside the valid encoded strings the decoder is forgiving: it
    takes a string whose last unit carries stray bits, and encoding what
    it decoded gives the canonical string, not the one received. *)
Example decode_is_forgiving :
  decodeInt16 true (js "AAB=") = Some [0%Z]
  /\ int16ToBase64 true [0%Z] = Some (js "AAA=").
Proof. split; vm_compute; reflexivity. Qed.

End Base64Facts.

(** *** Playback scheduler *)

Section SchedulerFacts.
Import JS Codec Agent.

Lemma playback_emit (e : effect) (st : state) :
  playback (emit e st) = playback st ++ (if isPlayback e then [e] else []).
Proof.
  unfold playback. simpl. rewrite List.filter_app. simpl.
  destruct (isPlayback e); reflexivity.
Qed.

Lemma timeline_snoc (played : list segment) (c : segment) :
  timeline (played ++ [c]) = timeline played ++ [SourceStart c; SourceEnded c].
Proof.
  unfold timeline. rewrite flat_map_app. simpl. reflexivity.
Qed.

Lemma scheduled_initial : scheduled [] [] initial.
Proof.
  unfold scheduled. simpl. repeat split; try discriminate; reflexivity.
Qed.

Lemma scheduled_enqueue segs played (a : segment) (st : state) :
  a <> [] ->
  scheduled segs played st ->
  scheduled (segs ++ [a]) played (playAudioChunk a st).
Proof.
  intros Ha (Hsegs & Hplay & Hon & Hoff).
  destruct a as [|v a]; [contradiction Ha; reflexivity|].
  destruct st as [s m w ms ac pc q ip pr aw tr]. simpl in *.
  unfold playAudioChunk. destruct ip.
  - destruct (Hon eq_refl) as [-> [c ->]]. simpl.
    unfold scheduled. simpl.
    split; [subst segs; rewrite <- !app_assoc; reflexivity|].
    split; [exact Hplay|].
    split; [intros _; eauto|discriminate].
  - destruct (Hoff eq_refl) as [-> ->].
    assert (Hp : playback
                   (if pc then mkState s m w ms ac pc [] false pr [] tr
                    else emit NewPlaybackContext
                           (setPlaybackContext true
                              (mkState s m w ms ac pc [] false pr [] tr)))
                 = timeline played).
    { destruct pc; [|rewrite playback_emit]; simpl;
        unfold playback in *; simpl in *; rewrite Hplay, ?app_nil_r;
        reflexivity. }
    destruct pc; simpl in *; unfold drain; simpl; unfold scheduled; simpl;
      (split; [subst segs; rewrite !app_nil_r; reflexivity|]);
      (split; [|split; [intros _; eauto|discriminate]]).
    + unfold playback in *. simpl in *. rewrite List.filter_app, Hp. reflexivity.
    + unfold playback in *. simpl in *. rewrite List.filter_app, Hp. reflexivity.
Qed.

Lemma scheduled_ended segs played (i : nat) (st : state) :
  Forall (fun a => a <> []) segs ->
  scheduled segs played st ->
  exists played', scheduled segs played' (onended i st).
Proof.
  intros Hne (Hsegs & Hplay & Hon & Hoff).
  destruct st as [s m w ms ac pc q ip pr aw tr]. simpl in *.
  unfold onended. simpl. destruct ip.
  - destruct (Hon eq_refl) as [-> [c ->]].
    destruct i as [|i]; simpl.
    + unfold drain. simpl. destruct q as [|c' q]; simpl.
      * exists (played ++ [c]). unfold scheduled. simpl.
        split; [subst segs; rewrite !app_nil_r; reflexivity|].
        split; [|split; [discriminate|auto]].
        unfold playback in *. simpl in *.
        rewrite List.filter_app, Hplay, timeline_snoc, app_nil_r, <- app_assoc.
        reflexivity.
      * assert (Hc' : c' <> []).
        { rewrite List.Forall_forall in Hne. apply Hne. subst segs.
          apply in_or_app. right. right. left. reflexivity. }
        destruct c' as [|v c']; [contradiction Hc'; reflexivity|].
        exists (played ++ [c]). unfold scheduled. simpl.
        split; [subst segs; rewrite <- app_assoc; reflexivity|].
        split; [|split; [intros _; eauto|discriminate]].
        unfold playback in *. simpl in *.
        rewrite !List.filter_app, Hplay, timeline_snoc, <- !app_assoc.
        reflexivity.
    + destruct i; simpl; exists played; unfold scheduled; simpl;
        repeat split; eauto; discriminate.
  - destruct (Hoff eq_refl) as [-> ->].
    destruct i; simpl; exists played; unfold scheduled; simpl;
      repeat split; auto; discriminate.
Qed.

Lemma scheduled_run (evs : list playbackEvent) segs played (st : state) :
  Forall (fun a => a <> []) (segs ++ enqueued evs) ->
  scheduled segs played st ->
  exists played', scheduled (segs ++ enqueued evs) played' (schedule st evs).
Proof.
  revert segs played st.
  induction evs as [|ev evs IH]; intros segs played st Hne H.
  - exists played. simpl. rewrite app_nil_r. exact H.
  - destruct ev as [a|i]; simpl in *.
    + change (a :: enqueued evs) with ([a] ++ enqueued evs) in Hne.
      rewrite app_assoc in Hne.
      assert (Ha : a <> []).
      { rewrite List.Forall_forall in Hne. apply Hne.
        apply in_or_app. left. apply in_or_app. right. left. reflexivity. }
      destruct (IH _ _ _ Hne (scheduled_enqueue _ _ a _ Ha H)) as [p Hp].
      exists p. rewrite <- app_assoc in Hp. exact Hp.
    + assert (Hs : Forall (fun a => a <> []) segs).
      { apply Forall_app in Hne. apply Hne. }
      destruct (scheduled_ended _ _ i _ Hs H) as [p0 H0].
      exact (IH _ _ _ Hne H0).
Qed.

(** Once the sources have all ended, everything handed over has been
    played. *)
Lemma scheduled_drained (n : nat) segs played (st : state) :
  Forall (fun a => a <> []) segs ->
  scheduled segs played st ->
  n = (length (awaiting st) + length (audioQueueRef st))%nat ->
  playback (schedule st (repeat (SourceEnd 0) n)) = timeline segs
  /\ isPlayingRef (schedule st (repeat (SourceEnd 0) n)) = false.
Proof.
  revert segs played st.
  induction n as [|n IH]; intros segs played st Hne H Hn.
  - destruct H as (Hsegs & Hplay & Hon & Hoff). simpl.
    destruct (awaiting st) as [|c aw] eqn:Haw; [|discriminate Hn].
    destruct (audioQueueRef st) as [|c q] eqn:Hq; [|discriminate Hn].
    split.
    + rewrite Hplay, Hsegs, !app_nil_r. reflexivity.
    + destruct (isPlayingRef st); [|reflexivity].
      destruct (Hon eq_refl) as [_ [c Hc]]. discriminate Hc.
  - simpl.
    pose proof H as (Hsegs & Hplay & Hon & Hoff).
    destruct (isPlayingRef st) eqn:Hip.
    + destruct (Hon eq_refl) as [Hpc [c Hc]].
      assert (Hst : exists played',
                 scheduled segs played' (onended 0 st)
                 /\ n = (length (awaiting (onended 0 st))
                         + length (audioQueueRef (onended 0 st)))%nat).
      { destruct (scheduled_ended _ _ 0 _ Hne H) as [p Hp]. exists p.
        split; [exact Hp|].
        assert (Hq : Forall (fun a => a <> []) (audioQueueRef st)).
        { rewrite Hsegs in Hne. apply Forall_app in Hne as [_ Hne].
          apply Forall_app in Hne. apply Hne. }
        destruct st as [s m w ms ac pc q ip pr aw tr]. simpl in *. subst.
        simpl in Hn. unfold onended, drain. simpl.
        destruct q as [|[|v c'] q]; simpl in *; try lia.
        inversion Hq as [|? ? Hx _]. contradiction Hx. reflexivity. }
      destruct Hst as (p & Hp & Hlen). exact (IH _ _ _ Hne Hp Hlen).
    + destruct (Hoff eq_refl) as [Haw Hq]. rewrite Haw, Hq in Hn.
      discriminate Hn.
Qed.

(** X24: whatever the interleaving of the calls of [playAudioChunk]
    with the ends of the sources, segments that have samples are played
    in the order they were handed over, one at a time, none lost: at
    every moment the audio sources started and ended so far are a
    back-to-back run of a prefix of the segments, followed by the start
    of at most one more; the remaining ones wait in the queue in order;
    at most one call of [playAudioChunk] is suspended in its loop (a
    call made while a playback is flagged adds to the queue and leaves
    the suspended call alone, a call made while idle starts the one
    loop); and once the pending sources have ended, every segment has
    been played, in order. *)
Theorem playback_in_order (evs : list playbackEvent) :
  Forall (fun a => a <> []) (enqueued evs) ->
  (exists played,
      enqueued evs
      = played ++ awaiting (schedule initial evs)
          ++ audioQueueRef (schedule initial evs)
      /\ playback (schedule initial evs)
         = timeline played ++ List.map SourceStart (awaiting (schedule initial evs)))
  /\ (length (awaiting (schedule initial evs)) <= 1)%nat
  /\ (forall a,
        isPlayingRef (schedule initial evs) = true ->
        awaiting (playAudioChunk a (schedule initial evs))
        = awaiting (schedule initial evs)
        /\ audioQueueRef (playAudioChunk a (schedule initial evs))
           = audioQueueRef (schedule initial evs) ++ [a])
  /\ (forall a,
        a <> [] ->
        isPlayingRef (schedule initial evs) = false ->
        awaiting (playAudioChunk a (schedule initial evs)) = [a]
        /\ audioQueueRef (playAudioChunk a (schedule initial evs)) = []
        /\ isPlayingRef (playAudioChunk a (schedule initial evs)) = true)
  /\ playback
       (schedule (schedule initial evs)
          (repeat (SourceEnd 0)
             (length (awaiting (schedule initial evs))
              + length (audioQueueRef (schedule initial evs)))))
     = timeline (enqueued evs).
Proof.
  intros Hne.
  destruct (scheduled_run evs [] [] initial Hne scheduled_initial) as [played H].
  simpl in H.
  pose proof H as (Hsegs & Hplay & Hon & Hoff).
  split; [exists played; split; assumption|].
  split.
  { destruct (isPlayingRef (schedule initial evs)).
    - destruct (Hon eq_refl) as [_ [c ->]]. simpl. lia.
    - destruct (Hoff eq_refl) as [-> _]. simpl. lia. }
  split.
  { intros a Hip. unfold playAudioChunk.
    destruct (Hon Hip) as [Hpc _]. rewrite Hpc. simpl. rewrite Hip.
    split; reflexivity. }
  split.
  { intros a Ha Hip.
    pose proof (scheduled_enqueue _ _ a _ Ha H) as (Hsegs' & _ & Hon' & Hoff').
    destruct (Hoff Hip) as [Haw Hq].
    assert (Hip' : isPlayingRef (playAudioChunk a (schedule initial evs)) = true).
    { destruct (isPlayingRef (playAudioChunk a (schedule initial evs))) eqn:E;
        [reflexivity|].
      destruct (Hoff' eq_refl) as [E1 E2].
      rewrite Hsegs, Haw, Hq, E1, E2, !app_nil_r in Hsegs'.
      apply (f_equal (@length _)) in Hsegs'. rewrite length_app in Hsegs'.
      simpl in Hsegs'. lia. }
    destruct (Hon' Hip') as [_ [c Hc]].
    rewrite Hsegs, Haw, Hq, Hc, !app_nil_r in Hsegs'.
    apply app_inv_head in Hsegs'.
    destruct (audioQueueRef (playAudioChunk a (schedule initial evs))) as [|x q].
    - injection Hsegs' as <-. auto.
    - apply (f_equal (@length _)) in Hsegs'. simpl in Hsegs'. lia. }
  exact (proj1 (scheduled_drained _ _ _ _ Hne H eq_refl)).
Qed.

(** Three segments, the second handed over while the first plays, the
    third after the first has ended. *)
Lemma playback_in_order_witness :
  let A := [Fin (1 # 2)] in
  let B := [Fin (-1 # 4); Fin 0] in
  let C := [Fin (3 # 4)] in
  let evs := [Enqueue A; Enqueue B; SourceEnd 0; Enqueue C] in
  isPlayingRef (schedule initial evs) = true
  /\ awaiting (schedule initial evs) = [B]
  /\ awaiting (playAudioChunk A (schedule initial evs)) = [B]
  /\ playback (schedule initial evs) = [SourceStart A; SourceEnded A; SourceStart B]
  /\ playback (schedule (schedule initial evs) [SourceEnd 0; SourceEnd 0])
     = timeline [A; B; C].
Proof.
  intros A B C evs.
  assert (Hne : Forall (fun a : segment => a <> []) (enqueued evs))
    by (repeat constructor; discriminate).
  pose proof (playback_in_order evs Hne) as (_ & _ & Hbusy & _ & Hall).
  split; [reflexivity|]. split; [reflexivity|].
  split; [rewrite (proj1 (Hbusy A eq_refl)); reflexivity|].
  split; [reflexivity|]. exact Hall.
Defined.

(** After a segment without samples the loop is dead: the flag stays
    set, so calls only add to the queue, and no source ends. *)
Lemma stalled_run (evs : list playbackEvent) (st : state) :
  isPlayingRef st = true -> playbackContextRef st = true -> awaiting st = [] ->
  isPlayingRef (schedule st evs) = true
  /\ awaiting (schedule st evs) = []
  /\ audioQueueRef (schedule st evs) = audioQueueRef st ++ enqueued evs
  /\ trace (schedule st evs) = trace st.
Proof.
  revert st. induction evs as [|ev evs IH]; intros st Hip Hpc Haw.
  - simpl. rewrite app_nil_r. auto.
  - destruct ev as [a|i]; cbn [schedule fold_left playbackStep enqueued flat_map].
    + assert (E : playAudioChunk a st
                  = setAudioQueue (audioQueueRef st ++ [a]) st).
      { unfold playAudioChunk. rewrite Hpc. simpl. rewrite Hip. reflexivity. }
      rewrite E.
      destruct (IH (setAudioQueue (audioQueueRef st ++ [a]) st) Hip Hpc Haw)
        as (A & B & C & D).
      unfold schedule in *. rewrite A, B, C, D. simpl.
      rewrite <- app_assoc. auto.
    + assert (E : onended i st = st).
      { unfold onended. rewrite Haw. destruct i; reflexivity. }
      rewrite E. apply (IH st Hip Hpc Haw).
Qed.

(** C5, where the code departs from it: a segment without samples is
    one the socket can deliver (a chunk of one space decodes to it).
    Handed to [playAudioChunk] while nothing plays, it makes
    [createBuffer] throw inside the loop; the call ends with
    [isPlayingRef] still set, and from then on, whatever segments are
    handed over and whatever else happens in the scheduler, no segment
    is played: every later segment is put in the queue and stays
    there. *)
Theorem empty_segment_stalls_playback (littleEndian : bool)
    (evs : list playbackEvent) :
  base64ToFloat32 littleEndian (js " ") = Some []
  /\ handleWebSocketMessage littleEndian 0 (audio (Some (js " "))) initial
     = playAudioChunk [] initial
  /\ trace (playAudioChunk [] initial) = [NewPlaybackContext; Uncaught]
  /\ playback (schedule initial (Enqueue [] :: evs)) = []
  /\ isPlayingRef (schedule initial (Enqueue [] :: evs)) = true
  /\ awaiting (schedule initial (Enqueue [] :: evs)) = []
  /\ audioQueueRef (schedule initial (Enqueue [] :: evs)) = enqueued evs.
Proof.
  split; [reflexivity|]. split; [reflexivity|]. split; [reflexivity|].
  destruct (stalled_run evs (playAudioChunk [] initial) eq_refl eq_refl eq_refl)
    as (A & B & C & D).
  change (schedule initial (Enqueue [] :: evs))
    with (schedule (playAudioChunk [] initial) evs).
  rewrite A, B, C. unfold playback. rewrite D. repeat split.
Qed.

End SchedulerFacts.

(** *** Scenarios on the whole session *)

(** A session that held a transcript and a dedup set is started again:
    the transcript is emptied and survives the opening of the socket
    empty, the set is kept. *)
Lemma start_resets_transcript_witness :
  let e := {| Agent.NEXT_PUBLIC_ELEVENLABS_API_KEY := Some (JS.js "sk_test");
              Agent.NEXT_PUBLIC_ELEVENLABS_AGENT_ID := Some (JS.js "agent_1") |} in
  let old := {| Agent.id := JS.js "assistant-1700000000000";
                Agent.role := Agent.assistant;
                Agent.text := JS.js "[[CALL_EMERGENCY_CONTACT]]Patient unconscious" |} in
  let st := Agent.setMessages (fun _ => [old]) Agent.initial in
  let c := Coach.callTriggerEffect [old] Coach.initial in
  Agent.messages
    (Agent.run true (snd (Agent.start e st))
       [Agent.MicGranted (JS.js "agent_1"); Agent.WsOpen;
        Agent.WsMessage 1700000001000 Agent.conversation_initiation_metadata;
        Agent.WsMessage 1700000002000 Agent.ping]) = []
  /\ Coach.processedCallsRef (fst (Coach.handleStart e (c, st)))
     = Coach.processedCallsRef c.
Proof.
  intros e old st c.
  pose proof (start_resets_transcript true e st c eq_refl eq_refl) as H.
  split.
  - apply (proj1 (proj2 (proj2 (proj2 (proj2 (proj2 H)))))). reflexivity.
  - apply (proj1 (proj2 (proj2 (proj2 (proj2 (proj2 (proj2 H))))))).
Defined.


Lemma interruption_flushes_queue_witness :
  let a := [Codec.Fin (1 # 2)] in
  let b := [Codec.Fin (-1 # 4)] in
  let st := Agent.setStatus Agent.speaking
              (Agent.playAudioChunk b (Agent.playAudioChunk a Agent.initial)) in
  Agent.audioQueueRef st = [b]
  /\ Agent.audioQueueRef
       (Agent.handleWebSocketMessage true 1700000000000 Agent.interruption st) = []
  /\ Agent.status
       (Agent.handleWebSocketMessage true 1700000000000 Agent.interruption st)
     = Agent.listening
  /\ Agent.awaiting
       (Agent.handleWebSocketMessage true 1700000000000 Agent.interruption st) = [a].
Proof.
  intros a b st.
  pose proof (interruption_flushes_queue true 1700000000000 st
                (or_intror eq_refl)) as (Hq & Hs & Hw & _).
  split; [reflexivity|]. split; [exact Hq|]. split; [exact Hs|].
  rewrite Hw. reflexivity.
Defined.

(** Whatever the state, two assistant messages handled at the same
    value of [Date.now()] are appended under one identifier. *)
Lemma same_millisecond_same_id (littleEndian : bool) (now : N)
    (c1 c2 : N) (t1 t2 : JS.jsstring) (st : Agent.state) :
  exists i,
    Agent.messages
      (Agent.run littleEndian st
         [Agent.WsMessage now (Agent.agent_response (Some (c1 :: t1)));
          Agent.WsMessage now (Agent.agent_response (Some (c2 :: t2)))])
    = Agent.messages st
        ++ [ {| Agent.id := i; Agent.role := Agent.assistant;
                Agent.text := c1 :: t1 |};
             {| Agent.id := i; Agent.role := Agent.assistant;
                Agent.text := c2 :: t2 |} ].
Proof.
  exists (JS.js "assistant-" ++ Agent.decimal now).
  cbn [Agent.run fold_left Agent.step Agent.handleWebSocketMessage].
  destruct st as [s m w ms ac pc q ip pr aw tr].
  unfold Agent.setStatus, Agent.setMessages. cbn [Agent.messages].
  rewrite <- app_assoc. reflexivity.
Qed.

(** C9 on the code: two assistant messages handled within the same
    millisecond receive the same identifier, and the call-trigger effect
    then places one call for two entries that both ask for one. *)
Lemma identifiers_collide :
  let m1 := Agent.agent_response (Some (JS.js "[[CALL_EMERGENCY_CONTACT]]Patient unconscious")) in
  let m2 := Agent.agent_response (Some (JS.js "[[CALL_EMERGENCY_CONTACT]]Second patient collapsed")) in
  let st := Agent.run true Agent.initial
              [Agent.WsMessage 1700000000000 m1; Agent.WsMessage 1700000000000 m2] in
  List.map Agent.id (Agent.messages st)
  = [JS.js "assistant-1700000000000"; JS.js "assistant-1700000000000"]
  /\ List.map Agent.text (Agent.messages st)
     = [JS.js "[[CALL_EMERGENCY_CONTACT]]Patient unconscious";
        JS.js "[[CALL_EMERGENCY_CONTACT]]Second patient collapsed"]
  /\ ~ NoDup (List.map Agent.id (Agent.messages st))
  /\ List.map Coach.summary
       (Coach.calls (Coach.callTriggerEffect (Agent.messages st) Coach.initial))
     = [JS.js "Patient unconscious"].
Proof.
  intros m1 m2 st.
  assert (Hids : List.map Agent.id (Agent.messages st)
                 = [JS.js "assistant-1700000000000"; JS.js "assistant-1700000000000"])
    by (vm_compute; reflexivity).
  split; [exact Hids|]. split; [vm_compute; reflexivity|].
  split.
  - rewrite Hids. intros H. inversion H as [|x l Hnin _]; subst.
    apply Hnin. left.
  - vm_compute. reflexivity.
Qed.

(* ===================================================================== *)
(** ** Further properties of the code                                     *)
(* ===================================================================== *)

(** *** Codec and capture pipeline *)

Section CodecMore.
Import JS Codec Agent.
Local Open Scope Q_scope.

Ltac ndiv := zify; Z.to_euclidean_division_equations; lia.

Lemma stored_sample_range (v : number) : isInt16 (ToInt16 (scaleSample v)).
Proof.
  unfold isInt16.
  destruct (clamp_cases v) as [Hn|(s & Hs & Hrange)].
  - unfold scaleSample. rewrite Hn. simpl. lia.
  - destruct (scaled_finite v s Hs Hrange) as (x & t & _ & _ & -> & Hr & _).
    exact Hr.
Qed.

Lemma float32ToInt16_range (float32Array : list number) :
  Forall isInt16 (float32ToInt16 float32Array).
Proof.
  unfold float32ToInt16.
  induction float32Array as [|v l IH]; constructor;
    [apply stored_sample_range|exact IH].
Qed.

(** X1: on an open socket [onaudioprocess] sends exactly one audio
    message; its encoder never throws, and the payload decodes to the
    block of quantized samples, one per input sample. On a socket that
    is missing or not open it does nothing. *)
Theorem capture_frame (littleEndian : bool) (inputData : list number) (st : state) :
  (wsRef st = Some OPEN ->
   exists base64Audio,
     onaudioprocess littleEndian inputData st
     = emit (WsSend (audio_out base64Audio)) st
     /\ decodeInt16 littleEndian base64Audio = Some (float32ToInt16 inputData)
     /\ length (float32ToInt16 inputData) = length inputData)
  /\ (wsRef st <> Some OPEN -> onaudioprocess littleEndian inputData st = st).
Proof.
  split.
  - intros Hopen.
    destruct (decode_encode littleEndian _ (float32ToInt16_range inputData))
      as (x & Henc & _ & Hdec).
    exists x. unfold onaudioprocess. rewrite Hopen, Henc.
    split; [reflexivity|]. split; [exact Hdec|].
    unfold float32ToInt16. apply length_map.
  - intros Hclosed. unfold onaudioprocess.
    destruct (wsRef st) as [[]|]; try reflexivity. congruence.
Qed.

Lemma capture_frame_witness :
  let st := run true initial
              [Start {| NEXT_PUBLIC_ELEVENLABS_API_KEY := Some (js "k");
                        NEXT_PUBLIC_ELEVENLABS_AGENT_ID := Some (js "a") |};
               MicGranted (js "a"); WsOpen] in
  exists base64Audio,
    onaudioprocess true [Fin (1 # 2); Fin (-3 # 2); NaN] st
    = emit (WsSend (audio_out base64Audio)) st
    /\ decodeInt16 true base64Audio = Some [16383; -32768; 0]%Z.
Proof.
  intros st.
  destruct (proj1 (capture_frame true [Fin (1 # 2); Fin (-3 # 2); NaN] st) eq_refl)
    as (x & Hx & Hd & _).
  exists x. split; [exact Hx|exact Hd].
Defined.

Lemma int16View_shape (littleEndian : bool) (bytes : list N) :
  (forall b, int16View littleEndian bytes = Some b ->
     length bytes = (2 * length b)%nat /\ Forall isInt16 b)
  /\ (int16View littleEndian bytes = None <-> Nat.even (length bytes) = false).
Proof.
  revert bytes. fix F 1. intros [|b0 [|b1 r]].
  - split.
    + intros b [= <-]. split; [reflexivity|constructor].
    + split; discriminate.
  - split; [discriminate|]. split; reflexivity.
  - destruct (F r) as [Hsome Hnone]. cbn [int16View].
    destruct (int16View littleEndian r) as [l|] eqn:E.
    + split.
      * intros b [= <-]. destruct (Hsome l eq_refl) as [Hl Hi].
        split; [cbn [length]; lia|].
        constructor; [apply wrap16_range|exact Hi].
      * change (Nat.even (length (b0 :: b1 :: r))) with (Nat.even (length r)).
        split; [discriminate|]. intros H. apply Hnone in H. discriminate H.
    + split; [discriminate|].
      change (Nat.even (length (b0 :: b1 :: r))) with (Nat.even (length r)).
      split; [intros _; apply Hnone; reflexivity|reflexivity].
Qed.

Lemma toFloat_range (i : Z) :
  isInt16 i -> exists q, toFloat i = Fin q /\ -1 <= q /\ q < 1.
Proof.
  unfold isInt16. intros Hi. exists (i # 32768).
  split; [reflexivity|]. unfold Qle, Qlt. simpl. lia.
Qed.

(** X2: [base64ToFloat32] succeeds exactly when [atob] accepts the
    string and yields an even number of bytes; it then returns one
    sample per two bytes, and every sample is a finite value in
    [-1, 1). *)
Theorem decoded_samples (littleEndian : bool) (base64 : jsstring) :
  (forall f, base64ToFloat32 littleEndian base64 = Some f ->
     (exists binary, atob base64 = Some binary
                     /\ length binary = (2 * length f)%nat)
     /\ Forall (fun v => exists q, v = Fin q /\ -1 <= q /\ q < 1) f)
  /\ (base64ToFloat32 littleEndian base64 = None <->
      atob base64 = None
      \/ exists binary, atob base64 = Some binary
                        /\ Nat.even (length binary) = false).
Proof.
  unfold base64ToFloat32, decodeInt16.
  destruct (atob base64) as [binary|] eqn:Ha.
  - pose proof (int16View_shape littleEndian
                  (List.map (fun c => c mod 256)%N binary)) as [Hsome Hnone].
    rewrite length_map in Hsome, Hnone.
    destruct (int16View littleEndian _) as [b|] eqn:Hv.
    + destruct (Hsome b eq_refl) as [Hlen Hi]. split.
      * intros f [= <-]. split.
        -- exists binary. rewrite length_map. auto.
        -- clear - Hi. induction Hi as [|i b Hi _ IH]; constructor;
             [apply toFloat_range, Hi|exact IH].
      * split; [discriminate|].
        intros [H|(b' & [= <-] & He)]; [discriminate H|].
        apply Hnone in He. discriminate He.
    + split; [discriminate|]. split; [|reflexivity].
      intros _. right. exists binary. split; [reflexivity|].
      apply Hnone. reflexivity.
  - split; [discriminate|]. split; [auto|reflexivity].
Qed.

Lemma decoded_samples_witness :
  exists f,
    base64ToFloat32 true (js "AAABAP///38AgA==") = Some f
    /\ length f = 5%nat
    /\ Forall (fun v => exists q, v = Fin q /\ -1 <= q /\ q < 1) f.
Proof.
  eexists. split; [vm_compute; reflexivity|]. split; [reflexivity|].
  apply (proj1 (decoded_samples true (js "AAABAP///38AgA=="))).
  vm_compute. reflexivity.
Defined.

(** The clamp on finite samples. *)
Lemma clamp_value (p : Q) :
  exists s,
    clamp (Fin p) = Fin s /\ -1 <= s <= 1
    /\ (p < -1 -> s == -1) /\ (-1 <= p <= 1 -> s == p) /\ (1 < p -> s == 1).
Proof.
  unfold clamp, ofZ. simpl.
  destruct (Qle_bool (inject_Z 1) p) eqn:E1; simpl.
  - apply Qle_bool_iff in E1. change (inject_Z 1) with 1 in *.
    exists 1. split; [reflexivity|]. repeat split; intros; lra.
  - apply Qle_bool_false in E1. change (inject_Z 1) with 1 in E1.
    destruct (Qle_bool (inject_Z (-1)) p) eqn:E2.
    + apply Qle_bool_iff in E2. change (inject_Z (-1)) with (-1 # 1) in E2.
      exists p. split; [reflexivity|]. repeat split; intros; lra.
    + apply Qle_bool_false in E2. change (inject_Z (-1)) with (-1 # 1) in *.
      exists (-1 # 1). split; [reflexivity|]. repeat split; intros; lra.
Qed.

(** X3: a sample read from the transport and quantized again comes
    back unchanged when it is zero or negative and one unit lower when
    it is positive. *)
Theorem requantized_sample (i : Z) :
  isInt16 i ->
  ToInt16 (scaleSample (toFloat i)) = (if (0 <? i)%Z then i - 1 else i)%Z.
Proof.
  unfold isInt16, toFloat. intros Hi.
  assert (Hq : -1 <= i # 32768 <= 1) by (unfold Qle; simpl; lia).
  destruct (clamp_inside _ Hq) as (s & Hs & Heq).
  assert (Hs1 : -1 <= s <= 1) by (destruct Hq; split; lra).
  destruct (scaled_finite _ s Hs Hs1) as (x & t & _ & _ & -> & _ & Hneg & Hpos).
  rewrite (make_scale i) in Heq.
  assert (HiQ : forall z : Z, inject_Z z == inject_Z z) by reflexivity.
  destruct (Z.ltb_spec 0 i) as [Hp|Hn].
  - assert (H0 : 0 < inject_Z i) by (unfold Qlt, inject_Z; simpl; lia).
    assert (H1 : inject_Z i < 32768 # 1) by (unfold Qlt, inject_Z; simpl; lia).
    destruct Hpos as [Ht1 Ht2]; [lra|].
    assert (Hlo : inject_Z (i - 2) < inject_Z t).
    { unfold Z.sub. rewrite inject_Z_plus.
      change (inject_Z (- (2))) with (-2 # 1).
      generalize dependent (inject_Z t). generalize dependent (inject_Z i).
      intros qi ? ? ? ? qt ? ?. lra. }
    assert (Hhi : inject_Z t < inject_Z i).
    { generalize dependent (inject_Z t). generalize dependent (inject_Z i).
      intros qi ? ? ? ? qt ? ? ?. lra. }
    rewrite <- Zlt_Qlt in Hlo, Hhi. lia.
  - assert (H0 : inject_Z i <= 0) by (unfold Qle, inject_Z; simpl; lia).
    assert (H1 : -32768 # 1 <= inject_Z i) by (unfold Qle, inject_Z; simpl; lia).
    assert (Hlo : inject_Z (i - 1) < inject_Z t /\ inject_Z t < inject_Z (i + 1)).
    { unfold Z.sub. rewrite !inject_Z_plus.
      change (inject_Z (- (1))) with (-1 # 1). change (inject_Z 1) with 1.
      destruct (Qlt_le_dec s 0) as [Hs0|Hs0].
      - destruct (Hneg Hs0) as [Ht1 Ht2].
        generalize dependent (inject_Z t). generalize dependent (inject_Z i).
        intros qi ? ? ? qt ? ? ? ?. split; lra.
      - destruct (Hpos Hs0) as [Ht1 Ht2].
        generalize dependent (inject_Z t). generalize dependent (inject_Z i).
        intros qi ? ? ? qt ? ? ? ?. split; lra. }
    destruct Hlo as [Hlo Hhi]. rewrite <- Zlt_Qlt in Hlo, Hhi. lia.
Qed.

Lemma requantized_sample_witness :
  ToInt16 (scaleSample (toFloat 16384)) = 16383%Z
  /\ ToInt16 (scaleSample (toFloat (-16384))) = (-16384)%Z.
Proof.
  split.
  - apply (requantized_sample 16384). unfold isInt16. lia.
  - apply (requantized_sample (-16384)). unfold isInt16. lia.
Defined.

(** X4: quantization keeps the order of finite samples: a sample that
    is not below another is not stored below it (no wrap-around and no
    sign flip at any amplitude). *)
Theorem quantization_monotone (p q : Q) :
  p <= q ->
  (ToInt16 (scaleSample (Fin p)) <= ToInt16 (scaleSample (Fin q)))%Z.
Proof.
  intros Hpq.
  destruct (clamp_value p) as (sp & Hcp & Hrp & Hp1 & Hp2 & Hp3).
  destruct (clamp_value q) as (sq & Hcq & Hrq & Hq1 & Hq2 & Hq3).
  assert (Hs : sp <= sq).
  { destruct (Qlt_le_dec p (-1)) as [A|A]; [specialize (Hp1 A); lra|].
    destruct (Qlt_le_dec 1 q) as [B|B]; [specialize (Hq3 B); lra|].
    assert (Hp : -1 <= p <= 1) by (split; lra).
    assert (Hq : -1 <= q <= 1) by (split; lra).
    specialize (Hp2 Hp). specialize (Hq2 Hq). lra. }
  destruct (scaled_finite _ sp Hcp Hrp) as (xp & tp & _ & _ & -> & _ & Np & Pp).
  destruct (scaled_finite _ sq Hcq Hrq) as (xq & tq & _ & _ & -> & _ & Nq & Pq).
  destruct Hrp, Hrq.
  destruct (Qlt_le_dec sp 0) as [Ap|Ap]; destruct (Qlt_le_dec sq 0) as [Aq|Aq].
  - destruct (Np Ap), (Nq Aq).
    assert (Hlt : inject_Z tp < inject_Z (tq + 1)).
    { rewrite inject_Z_plus. change (inject_Z 1) with 1.
      generalize dependent (inject_Z tp). generalize dependent (inject_Z tq).
      intros. lra. }
    rewrite <- Zlt_Qlt in Hlt. lia.
  - destruct (Np Ap), (Pq Aq).
    assert (Hlt1 : inject_Z tp < inject_Z 1).
    { change (inject_Z 1) with 1.
      generalize dependent (inject_Z tp). intros. lra. }
    assert (Hlt2 : inject_Z (-1) < inject_Z tq).
    { change (inject_Z (-1)) with (-1 # 1).
      generalize dependent (inject_Z tq). intros. lra. }
    rewrite <- Zlt_Qlt in Hlt1, Hlt2. lia.
  - exfalso. lra.
  - destruct (Pp Ap), (Pq Aq).
    assert (Hlt : inject_Z tp < inject_Z (tq + 1)).
    { rewrite inject_Z_plus. change (inject_Z 1) with 1.
      generalize dependent (inject_Z tp). generalize dependent (inject_Z tq).
      intros. lra. }
    rewrite <- Zlt_Qlt in Hlt. lia.
Qed.

Lemma quantization_monotone_witness :
  (ToInt16 (scaleSample (Fin (-1 # 3))) <= ToInt16 (scaleSample (Fin (2 # 7))))%Z.
Proof.
  apply (quantization_monotone (-1 # 3) (2 # 7)). discriminate.
Defined.

End CodecMore.

(** *** Telephony route *)

Section CallContactFacts.
Import JS CallContact.

Lemma replaceAll_app (c : N) (repl a b : jsstring) :
  replaceAll c repl (a ++ b) = replaceAll c repl a ++ replaceAll c repl b.
Proof. unfold replaceAll. apply flat_map_app. Qed.

Lemma escapeXml_app (a b : jsstring) :
  escapeXml (a ++ b) = escapeXml a ++ escapeXml b.
Proof. unfold escapeXml. rewrite !replaceAll_app. reflexivity. Qed.

Lemma replaceAll_other (c x : N) (repl : jsstring) :
  (x =? c) = false -> replaceAll c repl [x] = [x].
Proof. intros H. unfold replaceAll. cbn [flat_map]. rewrite H. reflexivity. Qed.

(** The five passes on one unit: a unit is rewritten by at most one of
    them, and no pass touches what an earlier one wrote. *)
Lemma escapeXml_unit (c : N) : escapeXml [c] = escapeUnit c.
Proof.
  unfold escapeUnit.
  destruct (N.eqb_spec c (ch "&")) as [->|H1]; [reflexivity|].
  destruct (N.eqb_spec c (ch "<")) as [->|H2]; [reflexivity|].
  destruct (N.eqb_spec c (ch ">")) as [->|H3]; [reflexivity|].
  destruct (N.eqb_spec c QUOT) as [->|H4]; [reflexivity|].
  destruct (N.eqb_spec c (ch "'")) as [->|H5]; [reflexivity|].
  unfold escapeXml.
  rewrite !replaceAll_other; [reflexivity|..]; apply N.eqb_neq; assumption.
Qed.

Lemma escapeXml_flat_map (s : jsstring) :
  escapeXml s = flat_map escapeUnit s.
Proof.
  induction s as [|c s IH]; [reflexivity|].
  change (c :: s) with ([c] ++ s).
  rewrite escapeXml_app, escapeXml_unit, IH. reflexivity.
Qed.

(** The six shapes of what is written for one unit. *)
Lemma escapeUnit_cases (c : N) :
  (c <> ch "&" /\ isMarkup c = false /\ escapeUnit c = [c])
  \/ (c = ch "&" /\ escapeUnit c = js "&amp;")
  \/ (c = ch "<" /\ escapeUnit c = js "&lt;")
  \/ (c = ch ">" /\ escapeUnit c = js "&gt;")
  \/ (c = QUOT /\ escapeUnit c = js "&quot;")
  \/ (c = ch "'" /\ escapeUnit c = js "&apos;").
Proof.
  unfold escapeUnit, isMarkup.
  destruct (N.eqb_spec c (ch "&")) as [->|H1]; [right; left; auto|].
  destruct (N.eqb_spec c (ch "<")) as [->|H2]; [right; right; left; auto|].
  destruct (N.eqb_spec c (ch ">")) as [->|H3];
    [right; right; right; left; auto|].
  destruct (N.eqb_spec c QUOT) as [->|H4];
    [right; right; right; right; left; auto|].
  destruct (N.eqb_spec c (ch "'")) as [->|H5];
    [right; right; right; right; right; auto|].
  left. auto.
Qed.

Lemma escapeUnit_clean (c : N) :
  Forall (fun x => isMarkup x = false) (escapeUnit c).
Proof.
  destruct (escapeUnit_cases c)
    as [(_ & Hm & ->)|[(_ & ->)|[(_ & ->)|[(_ & ->)|[(_ & ->)|(_ & ->)]]]]];
    repeat constructor; assumption.
Qed.

(** X5: [escapeXml] rewrites each unit on its own (the five passes do
    not interfere: an ampersand written by a later pass is never escaped
    again), its result holds no [<], [>], double quote or apostrophe,
    and a text without the five special units is returned as it is. *)
Theorem escapeXml_spec (text : jsstring) :
  escapeXml text = flat_map escapeUnit text
  /\ Forall (fun x => isMarkup x = false) (escapeXml text)
  /\ (Forall (fun c => isMarkup c = false /\ c <> ch "&") text ->
      escapeXml text = text).
Proof.
  split; [apply escapeXml_flat_map|]. rewrite escapeXml_flat_map. split.
  - induction text as [|c s IH]; [constructor|].
    cbn [flat_map]. apply Forall_app. split; [apply escapeUnit_clean|exact IH].
  - induction 1 as [|c s [Hm Ha] _ IH]; [reflexivity|].
    cbn [flat_map]. rewrite IH.
    destruct (escapeUnit_cases c)
      as [(_ & _ & ->)|[(E & _)|[(E & _)|[(E & _)|[(E & _)|(E & _)]]]]];
      try reflexivity; subst c; try congruence; discriminate Hm.
Qed.

Lemma escapeXml_spec_witness :
  escapeXml (js "Patient unconscious, breathing") = js "Patient unconscious, breathing".
Proof.
  apply (proj2 (proj2 (escapeXml_spec (js "Patient unconscious, breathing")))).
  repeat constructor; discriminate.
Defined.

(** X6: [escapeXml] loses nothing: two texts with the same escaped
    form are the same text. *)
Theorem escapeXml_injective (a b : jsstring) :
  escapeXml a = escapeXml b -> a = b.
Proof.
  rewrite !escapeXml_flat_map. revert b.
  induction a as [|x a IH]; intros [|y b] H.
  - reflexivity.
  - cbn [flat_map] in H.
    destruct (escapeUnit_cases y)
      as [(_ & _ & E)|[(_ & E)|[(_ & E)|[(_ & E)|[(_ & E)|(_ & E)]]]]];
      rewrite E in H; discriminate H.
  - cbn [flat_map] in H.
    destruct (escapeUnit_cases x)
      as [(_ & _ & E)|[(_ & E)|[(_ & E)|[(_ & E)|[(_ & E)|(_ & E)]]]]];
      rewrite E in H; discriminate H.
  - cbn [flat_map] in H.
    destruct (escapeUnit_cases x)
      as [(Nx & _ & Ex)|[(Cx & Ex)|[(Cx & Ex)|[(Cx & Ex)|[(Cx & Ex)|(Cx & Ex)]]]]];
      destruct (escapeUnit_cases y)
        as [(Ny & _ & Ey)|[(Cy & Ey)|[(Cy & Ey)|[(Cy & Ey)|[(Cy & Ey)|(Cy & Ey)]]]]];
      rewrite Ex, Ey in H; vm_compute in H;
      try discriminate H;
      try (change (ch "&") with 38 in *);
      try (injection H as Hh Ht; first [congruence | (f_equal; [congruence|apply IH, Ht])]);
      try (injection H as Ht; f_equal; [congruence|apply IH, Ht]).
Qed.

Lemma escapeXml_injective_witness :
  escapeXml (js "<b> & co") = js "&lt;b&gt; &amp; co"
  /\ js "<b> & co" = js "<b> & co".
Proof.
  split; [reflexivity|].
  apply (escapeXml_injective (js "<b> & co") (js "<b> & co")). reflexivity.
Defined.

Lemma trimStart_app_l (a b : jsstring) :
  trimStart a <> [] -> trimStart (a ++ b) = trimStart a ++ b.
Proof.
  induction a as [|c a IH]; intros H; [contradiction H; reflexivity|].
  cbn [trimStart app] in *. destruct (isWhiteSpace c); [apply IH, H|reflexivity].
Qed.

Lemma trimEnd_app_r (a b : jsstring) :
  trimEnd b <> [] -> trimEnd (a ++ b) = a ++ trimEnd b.
Proof.
  unfold trimEnd. intros H. rewrite rev_app_distr, trimStart_app_l.
  - rewrite rev_app_distr, rev_involutive. reflexivity.
  - intros E. apply H. rewrite E. reflexivity.
Qed.

(** The document around the hole of the template. *)
Lemma twimlOf_shape (summary : jsstring) :
  twimlOf summary
  = trimStart templateHead ++ escapeXml summary ++ trimEnd templateTail.
Proof.
  unfold twimlOf, trim.
  rewrite trimStart_app_l by (vm_compute; discriminate).
  rewrite (app_assoc (trimStart templateHead)).
  rewrite trimEnd_app_r by (vm_compute; discriminate).
  rewrite <- app_assoc. reflexivity.
Qed.

Lemma invalid_Str (s : jsstring) :
  invalidSummary (Str s) = true <-> trim s = [].
Proof.
  cbn [invalidSummary]. destruct s as [|c s].
  - split; reflexivity.
  - cbn [truthy negb orb]. destruct (trim (c :: s)); split; congruence.
Qed.

Lemma invalid_not_Str (v : value) :
  (forall s, v <> Str s) -> invalidSummary v = true.
Proof.
  destruct v as [|s|t]; intros H; [reflexivity| |reflexivity].
  contradiction (H s). reflexivity.
Qed.

Lemma POST_invalid (e : env) twilio (v : value) :
  invalidSummary v = true ->
  POST e twilio (Fields v) = (failure 400 (js "Missing summary"), []).
Proof. intros H. unfold POST. rewrite H. reflexivity. Qed.

Lemma POST_unconfigured (e : env) twilio (s : jsstring) :
  invalidSummary (Str s) = false -> configured e = false ->
  POST e twilio (Fields (Str s)) = (failure 500 (js "Twilio not configured"), []).
Proof.
  intros Hv Hc. unfold POST. rewrite Hv. unfold configured in Hc.
  destruct (TWILIO_ACCOUNT_SID e) as [[|a1 sid]|]; try reflexivity.
  destruct (TWILIO_AUTH_TOKEN e) as [[|a2 token]|]; try reflexivity.
  destruct (TWILIO_FROM_NUMBER e) as [[|a3 number]|]; try reflexivity.
  discriminate Hc.
Qed.

(** With the settings present, what the route does depends on the
    package: without a client nothing is asked of Twilio, with a client
    one call is requested. *)
Lemma POST_configured (e : env) twilio (s : jsstring) :
  invalidSummary (Str s) = false -> configured e = true ->
  match clientOf e twilio with
  | None =>
      POST e twilio (Fields (Str s)) = (failure 500 (js "Twilio call failed"), [])
  | Some client =>
      exists request,
        Some (from request) = TWILIO_FROM_NUMBER e
        /\ to request = orDefault (DISPATCH_TARGET_NUMBER e) DEFAULT_TARGET_NUMBER
        /\ twiml request = twimlOf s
        /\ POST e twilio (Fields (Str s))
           = match client request with
             | Some sid =>
                 ({| status := 200; success := true; error := None;
                     callSid := Some sid |}, [request])
             | None => (failure 500 (js "Twilio call failed"), [request])
             end
  end.
Proof.
  intros Hv Hc. unfold POST, clientOf. rewrite Hv. unfold configured in Hc.
  destruct (TWILIO_ACCOUNT_SID e) as [[|a1 sid]|]; try discriminate Hc.
  destruct (TWILIO_AUTH_TOKEN e) as [[|a2 token]|]; try discriminate Hc.
  destruct (TWILIO_FROM_NUMBER e) as [[|a3 number]|]; try discriminate Hc.
  cbn [invalidSummary].
  destruct (twilio (a1 :: sid) (a2 :: token)) as [client|]; [|reflexivity].
  eexists {| from := a3 :: number;
             to := orDefault (DISPATCH_TARGET_NUMBER e) DEFAULT_TARGET_NUMBER;
             twiml := twimlOf s |}.
  cbn [from to twiml]. repeat split.
Qed.

(** X7: the route asks Twilio for a call exactly when the summary is a
    string that is not blank, the three Twilio settings are present and
    the package gives a client for the configured credentials, and then
    once; the call goes from the configured number to
    [DISPATCH_TARGET_NUMBER], or to the default number when that is
    unset or empty; its TwiML is the fixed document with the escaped
    summary in its one hole. A blank or missing summary is answered 400
    before the configuration is looked at; when the package refuses the
    credentials the answer is 500 and no call was requested; and the
    response reports success exactly when the client returned a call
    sid. *)
Theorem call_contact_route (e : env) (twilio : twilioPackage) (b : body) :
  (snd (POST e twilio b) <> [] <->
   exists s, b = Fields (Str s) /\ trim s <> []
             /\ truthy (TWILIO_ACCOUNT_SID e) = true
             /\ truthy (TWILIO_AUTH_TOKEN e) = true
             /\ truthy (TWILIO_FROM_NUMBER e) = true
             /\ clientOf e twilio <> None)
  /\ (forall request, In request (snd (POST e twilio b)) ->
        snd (POST e twilio b) = [request]
        /\ Some (from request) = TWILIO_FROM_NUMBER e
        /\ to request = orDefault (DISPATCH_TARGET_NUMBER e) DEFAULT_TARGET_NUMBER
        /\ exists s, b = Fields (Str s)
             /\ twiml request
                = trimStart templateHead ++ escapeXml s ++ trimEnd templateTail)
  /\ (forall summary, b = Fields summary -> invalidSummary summary = true ->
        POST e twilio b = (failure 400 (js "Missing summary"), []))
  /\ (forall s, b = Fields (Str s) -> trim s <> [] -> configured e = true ->
        clientOf e twilio = None ->
        POST e twilio b = (failure 500 (js "Twilio call failed"), []))
  /\ (success (fst (POST e twilio b)) = true <->
      exists client request sid,
        clientOf e twilio = Some client
        /\ snd (POST e twilio b) = [request] /\ client request = Some sid
        /\ fst (POST e twilio b)
           = {| status := 200; success := true; error := None;
                callSid := Some sid |}).
Proof.
  assert (Hquiet : forall r : response,
            success r = false ->
            POST e twilio b = (r, []) ->
            (forall s, b = Fields (Str s) -> trim s <> [] ->
               configured e = false \/ clientOf e twilio = None) ->
            (snd (POST e twilio b) <> [] <->
             exists s, b = Fields (Str s) /\ trim s <> []
                       /\ truthy (TWILIO_ACCOUNT_SID e) = true
                       /\ truthy (TWILIO_AUTH_TOKEN e) = true
                       /\ truthy (TWILIO_FROM_NUMBER e) = true
                       /\ clientOf e twilio <> None)
            /\ (forall request, In request (snd (POST e twilio b)) ->
                  snd (POST e twilio b) = [request]
                  /\ Some (from request) = TWILIO_FROM_NUMBER e
                  /\ to request
                     = orDefault (DISPATCH_TARGET_NUMBER e) DEFAULT_TARGET_NUMBER
                  /\ exists s, b = Fields (Str s)
                       /\ twiml request
                          = trimStart templateHead ++ escapeXml s
                              ++ trimEnd templateTail)
            /\ (success (fst (POST e twilio b)) = true <->
                exists client request sid,
                  clientOf e twilio = Some client
                  /\ snd (POST e twilio b) = [request]
                  /\ client request = Some sid
                  /\ fst (POST e twilio b)
                     = {| status := 200; success := true; error := None;
                          callSid := Some sid |})).
  { intros r Hr Hp Hno. rewrite Hp. cbn [fst snd]. split; [|split].
    - split; [intros H; contradiction H; reflexivity|].
      intros (s & Hb & Ht & H1 & H2 & H3 & H4).
      destruct (Hno s Hb Ht) as [Hno'|Hno']; [|contradiction].
      unfold configured in Hno'. rewrite H1, H2, H3 in Hno'. discriminate Hno'.
    - intros request [].
    - rewrite Hr. split; [discriminate|].
      intros (client & request & sid & _ & H & _). discriminate H. }
  assert (Hsplit : forall A B C D E : Prop,
             A /\ B /\ E -> C -> D -> A /\ B /\ C /\ D /\ E) by tauto.
  destruct b as [| |summary].
  - apply Hsplit; [|intros v H; discriminate H|intros v H; discriminate H].
    apply (Hquiet (failure 500 (js "Twilio call failed")));
      [reflexivity|reflexivity|intros s H; discriminate H].
  - apply Hsplit; [|intros v H; discriminate H|intros v H; discriminate H].
    apply (Hquiet (failure 500 (js "Twilio call failed")));
      [reflexivity|reflexivity|intros s H; discriminate H].
  - destruct (invalidSummary summary) eqn:Hv.
    + apply Hsplit; [|intros v [= <-] _; apply POST_invalid, Hv|].
      * apply (Hquiet (failure 400 (js "Missing summary")));
          [reflexivity|apply POST_invalid, Hv|].
        intros s [= ->] Ht. apply invalid_Str in Hv. contradiction.
      * intros s [= ->] Ht. apply invalid_Str in Hv. contradiction.
    + destruct summary as [|s|t]; try discriminate Hv.
      assert (Ht : trim s <> []).
      { intros E. apply invalid_Str in E. congruence. }
      destruct (configured e) eqn:Hc.
      * pose proof (POST_configured e twilio s Hv Hc) as Hp.
        destruct (clientOf e twilio) as [client|] eqn:Hcl.
        -- destruct Hp as (request & Hfrom & Hto & Htw & Hp).
           unfold configured in Hc.
           apply andb_true_iff in Hc as [Hc H3].
           apply andb_true_iff in Hc as [H1 H2].
           assert (Hsnd : snd (POST e twilio (Fields (Str s))) = [request])
             by (rewrite Hp; destruct (client request); reflexivity).
           split; [|split; [|split; [|split]]].
           ++ rewrite Hsnd. split; [|discriminate].
              intros _. exists s. repeat split; try assumption. discriminate.
           ++ rewrite Hsnd. intros r [<-|[]]. repeat split; try assumption.
              exists s. split; [reflexivity|]. rewrite Htw. apply twimlOf_shape.
           ++ intros v [= <-] H. congruence.
           ++ intros s' _ _ _ H. discriminate H.
           ++ rewrite Hsnd, Hp. destruct (client request) as [sid|] eqn:Hcall;
                cbn [fst success failure].
              ** split; [intros _; exists client, request, sid; auto|reflexivity].
              ** split; [discriminate|].
                 intros (cl & r & sid & [= <-] & [= <-] & H & _). congruence.
        -- apply Hsplit; [|intros v [= <-] H; congruence|intros; exact Hp].
           apply (Hquiet (failure 500 (js "Twilio call failed")));
             [reflexivity|exact Hp|]. intros s' _ _. right. reflexivity.
      * apply Hsplit; [|intros v [= <-] H; congruence
                       |intros s' _ _ H; discriminate H].
        apply (Hquiet (failure 500 (js "Twilio not configured")));
          [reflexivity|apply POST_unconfigured; assumption|].
        intros s' _ _. left. reflexivity.
Qed.

Lemma call_contact_route_witness :
  let e := {| TWILIO_ACCOUNT_SID := Some (js "AC0000");
              TWILIO_AUTH_TOKEN := Some (js "token");
              TWILIO_FROM_NUMBER := Some (js "+15550000000");
              DISPATCH_TARGET_NUMBER := None |} in
  let twilio : twilioPackage :=
    fun sid _ => if startsWith sid (js "AC")
                 then Some (fun _ => Some (js "CA1")) else None in
  (exists request,
      snd (POST e twilio (Fields (Str (js "Patient <unconscious>")))) = [request]
      /\ to request = js "+15129029090")
  /\ POST e twilio (Fields (Str (js "   ")))
     = (failure 400 (js "Missing summary"), [])
  /\ POST {| TWILIO_ACCOUNT_SID := Some (js "sid");
             TWILIO_AUTH_TOKEN := Some (js "token");
             TWILIO_FROM_NUMBER := Some (js "+15550000000");
             DISPATCH_TARGET_NUMBER := None |} twilio
          (Fields (Str (js "Patient unconscious")))
     = (failure 500 (js "Twilio call failed"), []).
Proof.
  intros e twilio. split; [|split].
  - pose proof (call_contact_route e twilio
                  (Fields (Str (js "Patient <unconscious>")))) as (_ & H & _).
    eexists. split; [reflexivity|].
    refine (proj1 (proj2 (proj2 (H _ _)))). left. reflexivity.
  - apply (proj1 (proj2 (proj2 (call_contact_route e twilio
                                   (Fields (Str (js "   ")))))) (Str (js "   "))).
    + reflexivity.
    + reflexivity.
  - apply (proj1 (proj2 (proj2 (proj2
             (call_contact_route _ twilio
                (Fields (Str (js "Patient unconscious")))))))
             (js "Patient unconscious")).
    + reflexivity.
    + vm_compute. discriminate.
    + reflexivity.
    + reflexivity.
Defined.

End CallContactFacts.

(** *** Logging route *)

Section LogEventFacts.
Import JS LogEvent.

(** [!type || !sessionId || !timestamp] is false. *)
Lemma complete_fields (p : payload) :
  negb (truthy (type p)) || negb (truthy (sessionId p))
  || negb (truthy (timestamp p)) = false
  <-> truthy (type p) = true /\ truthy (sessionId p) = true
      /\ truthy (timestamp p) = true.
Proof.
  destruct (truthy (type p)), (truthy (sessionId p)), (truthy (timestamp p));
    cbn; intuition congruence.
Qed.

(** X8: the logging route forwards an event exactly when its three
    required fields are present and not empty and the webhook URL is
    configured, and then once, to that URL, with the event as received
    and the source tag added. It reports success exactly when the
    webhook answered with an ok status; without a configured URL it
    answers 200 with success false, and it answers 200 in no other
    failing case. *)
Theorem log_event_route (N8N_WEBHOOK_URL : option jsstring)
    (webhook : forwarded -> option bool) (b : body) :
  let r := POST N8N_WEBHOOK_URL webhook b in
  (snd r <> [] <->
   exists p, b = Payload p /\ truthy (type p) = true
             /\ truthy (sessionId p) = true /\ truthy (timestamp p) = true
             /\ truthy N8N_WEBHOOK_URL = true)
  /\ (forall f, In f (snd r) ->
        snd r = [f] /\ Some (url f) = N8N_WEBHOOK_URL /\ b = Payload (event f)
        /\ source f = js "lifeline-emergency-coach")
  /\ (success (fst r) = true <->
      exists f, snd r = [f] /\ webhook f = Some true)
  /\ (status (fst r) = 200 /\ success (fst r) = false <->
      exists p, b = Payload p /\ truthy (type p) = true
                /\ truthy (sessionId p) = true /\ truthy (timestamp p) = true
                /\ truthy N8N_WEBHOOK_URL = false).
Proof.
  cbn zeta.
  assert (Hquiet : forall (code : N) (message : jsstring),
            POST N8N_WEBHOOK_URL webhook b = (failure code message, []) ->
            (snd (POST N8N_WEBHOOK_URL webhook b) <> [] <-> False)
            /\ (forall f, In f (snd (POST N8N_WEBHOOK_URL webhook b)) -> False)
            /\ (success (fst (POST N8N_WEBHOOK_URL webhook b)) = true <->
                exists f, snd (POST N8N_WEBHOOK_URL webhook b) = [f]
                          /\ webhook f = Some true)
            /\ (status (fst (POST N8N_WEBHOOK_URL webhook b)) = 200
                /\ success (fst (POST N8N_WEBHOOK_URL webhook b)) = false
                <-> code = 200)).
  { intros code message ->. cbn [fst snd failure success status].
    split; [split; [intros H; apply H; reflexivity|intros []]|].
    split; [intros f []|].
    split; [split; [discriminate|intros (f & H & _); discriminate H]|].
    split; [intros [H _]; exact H|intros H; split; [exact H|reflexivity]]. }
  assert (Hglue : forall (code : N) (message : jsstring) (P Q : Prop),
            POST N8N_WEBHOOK_URL webhook b = (failure code message, []) ->
            ~ P -> (code = 200 <-> Q) ->
            (snd (POST N8N_WEBHOOK_URL webhook b) <> [] <-> P)
            /\ (forall f, In f (snd (POST N8N_WEBHOOK_URL webhook b)) ->
                  snd (POST N8N_WEBHOOK_URL webhook b) = [f]
                  /\ Some (url f) = N8N_WEBHOOK_URL /\ b = Payload (event f)
                  /\ source f = js "lifeline-emergency-coach")
            /\ (success (fst (POST N8N_WEBHOOK_URL webhook b)) = true <->
                exists f, snd (POST N8N_WEBHOOK_URL webhook b) = [f]
                          /\ webhook f = Some true)
            /\ (status (fst (POST N8N_WEBHOOK_URL webhook b)) = 200
                /\ success (fst (POST N8N_WEBHOOK_URL webhook b)) = false
                <-> Q)).
  { intros code message P Q Hp HP HQ.
    destruct (Hquiet code message Hp) as (A & B & C & D).
    split; [tauto|]. split; [intros f Hf; destruct (B f Hf)|].
    split; [exact C|tauto]. }
  destruct b as [| |p].
  - apply (Hglue 500 (js "Failed to process log event")); [reflexivity| |].
    + intros (q & H & _); discriminate H.
    + split; [discriminate|intros (q & H & _); discriminate H].
  - apply (Hglue 500 (js "Failed to process log event")); [reflexivity| |].
    + intros (q & H & _); discriminate H.
    + split; [discriminate|intros (q & H & _); discriminate H].
  - pose proof (complete_fields p) as Hc.
    destruct (negb (truthy (type p)) || negb (truthy (sessionId p))
              || negb (truthy (timestamp p))) eqn:Hv.
    + assert (Hno : ~ (truthy (type p) = true /\ truthy (sessionId p) = true
                       /\ truthy (timestamp p) = true)).
      { intros H. apply Hc in H. discriminate H. }
      apply (Hglue 400 (js "Missing required fields: type, sessionId, timestamp"));
        [cbn [POST]; rewrite Hv; reflexivity| |].
      * intros (q & [= <-] & H1 & H2 & H3 & _). apply Hno. auto.
      * split; [discriminate|].
        intros (q & [= <-] & H1 & H2 & H3 & _). exfalso. apply Hno. auto.
    + destruct (proj1 Hc eq_refl) as (H1 & H2 & H3).
      destruct N8N_WEBHOOK_URL as [[|c u]|].
      * apply (Hglue 200 (js "N8N_WEBHOOK_URL not configured"));
          [cbn [POST]; rewrite Hv; reflexivity| |].
        -- intros (q & _ & _ & _ & _ & H); discriminate H.
        -- split; [intros _; exists p; auto|reflexivity].
      * clear Hquiet Hglue. cbn [POST]. rewrite Hv.
        set (f := {| url := c :: u; event := p;
                     source := js "lifeline-emergency-coach" |}).
        assert (Hsnd : snd (match webhook f with
                            | Some true =>
                                ({| status := 200; success := true;
                                    error := None |}, [f])
                            | Some false =>
                                (failure 500 (js "Failed to log event to n8n"), [f])
                            | None =>
                                (failure 500 (js "Failed to process log event"), [f])
                            end) = [f])
          by (destruct (webhook f) as [[|]|]; reflexivity).
        rewrite Hsnd. split; [|split; [|split]].
        -- split; [intros _; exists p; auto|discriminate].
        -- intros g [<-|[]]. auto.
        -- destruct (webhook f) as [[|]|] eqn:Hw; cbn [fst success failure].
           ++ split; [intros _; exists f; auto|reflexivity].
           ++ split; [discriminate|]. intros (g & [= <-] & H). congruence.
           ++ split; [discriminate|]. intros (g & [= <-] & H). congruence.
        -- split.
           ++ destruct (webhook f) as [[|]|]; cbn [fst success failure status];
                intros [Hs Hf]; discriminate.
           ++ intros (q & _ & _ & _ & _ & H). discriminate H.
      * apply (Hglue 200 (js "N8N_WEBHOOK_URL not configured"));
          [cbn [POST]; rewrite Hv; reflexivity| |].
        -- intros (q & _ & _ & _ & _ & H); discriminate H.
        -- split; [intros _; exists p; auto|reflexivity].
Qed.

Lemma log_event_route_witness :
  let p := {| type := Some (js "call_contact_triggered");
              sessionId := Some (js "session-1");
              timestamp := Some (js "2024-01-01T00:00:00.000Z") |} in
  (exists f, snd (POST (Some (js "https://n8n.example/hook"))
                       (fun _ => Some true) (Payload p)) = [f]
             /\ source f = js "lifeline-emergency-coach")
  /\ status (fst (POST None (fun _ => Some true) (Payload p))) = 200
  /\ success (fst (POST None (fun _ => Some true) (Payload p))) = false.
Proof.
  intros p. split.
  - pose proof (log_event_route (Some (js "https://n8n.example/hook"))
                  (fun _ => Some true) (Payload p)) as (_ & H & _).
    eexists. split; [reflexivity|].
    exact (proj2 (proj2 (proj2 (H _ (or_introl eq_refl))))).
  - apply (proj2 (proj2 (proj2 (log_event_route None (fun _ => Some true)
                                  (Payload p))))).
    exists p. repeat split.
Defined.

End LogEventFacts.

(** *** More on the directive parser *)

Section ParserMore.
Import JS Parser.

Lemma trimStart_head (s : jsstring) :
  match trimStart s with
  | [] => True
  | c :: _ => isWhiteSpace c = false
  end.
Proof.
  induction s as [|c s IH]; cbn [trimStart]; [exact I|].
  destruct (isWhiteSpace c) eqn:E; [exact IH|exact E].
Qed.

Lemma trimStart_fixed (s : jsstring) :
  match s with
  | [] => True
  | c :: _ => isWhiteSpace c = false
  end -> trimStart s = s.
Proof. destruct s; cbn [trimStart]; [reflexivity|intros ->; reflexivity]. Qed.

Lemma trimStart_suffix (s : jsstring) :
  exists p, s = p ++ trimStart s /\ forallb isWhiteSpace p = true.
Proof.
  induction s as [|c s (p & Hp & Hw)]; [exists []; split; reflexivity|].
  cbn [trimStart]. destruct (isWhiteSpace c) eqn:E.
  - exists (c :: p). split; [cbn [app]; rewrite <- Hp; reflexivity|].
    cbn [forallb]. rewrite E, Hw. reflexivity.
  - exists []. split; reflexivity.
Qed.

Lemma trimStart_blank (s : jsstring) :
  forallb isWhiteSpace s = true -> trimStart s = [].
Proof.
  induction s as [|c s IH]; [reflexivity|]. cbn [forallb trimStart].
  intros H. apply andb_true_iff in H as [-> H]. apply IH, H.
Qed.

Lemma trim_blank (s : jsstring) :
  forallb isWhiteSpace s = true -> trim s = [].
Proof. intros H. unfold trim. rewrite (trimStart_blank s H). reflexivity. Qed.

(** [trim] removes nothing from what it returns. *)
Lemma trim_trim (s : jsstring) : trim (trim s) = trim s.
Proof.
  unfold trim, trimEnd.
  pose proof (trimStart_head s) as Hs.
  set (t := trimStart s) in *.
  pose proof (trimStart_head (rev t)) as Hu.
  destruct (trimStart_suffix (rev t)) as (p & Hp & _).
  set (u := trimStart (rev t)) in *.
  assert (Ht : t = rev u ++ rev p).
  { rewrite <- (rev_involutive t), Hp, rev_app_distr. reflexivity. }
  assert (H1 : trimStart (rev u) = rev u).
  { apply trimStart_fixed. destruct (rev u) as [|c r] eqn:E; [exact I|].
    rewrite Ht in Hs. cbn [app] in Hs. exact Hs. }
  rewrite H1, rev_involutive. f_equal. apply trimStart_fixed, Hu.
Qed.

Lemma startsWith_app (pat b : jsstring) : startsWith (pat ++ b) pat = true.
Proof.
  induction pat as [|c pat IH]; [destruct b; reflexivity|].
  cbn [app startsWith]. rewrite N.eqb_refl. exact IH.
Qed.

Lemma replace_eq (s pat repl : jsstring) :
  replace s pat repl
  = if startsWith s pat then repl ++ skipn (length pat) s
    else match s with
         | [] => []
         | c :: s' => c :: replace s' pat repl
         end.
Proof. destruct s; reflexivity. Qed.

(** A pattern at the very start is the occurrence that is replaced. *)
Lemma replace_prefix (pat b repl : jsstring) :
  replace (pat ++ b) pat repl = repl ++ b.
Proof.
  rewrite replace_eq, startsWith_app. f_equal.
  induction pat as [|c pat IH]; [reflexivity|exact IH].
Qed.

Lemma split_plain (sep : N) (s : jsstring) :
  ~ In sep s -> split sep s = [s].
Proof.
  induction s as [|c s IH]; intros H; [reflexivity|].
  cbn [split]. destruct (N.eqb_spec c sep) as [->|Hne].
  - contradiction H. left. reflexivity.
  - rewrite IH by (intros Hin; apply H; right; exact Hin). reflexivity.
Qed.

Lemma split_first (sep : N) (a b : jsstring) :
  ~ In sep a -> split sep (a ++ sep :: b) = a :: split sep b.
Proof.
  induction a as [|c a IH]; intros H.
  - cbn [app split]. rewrite N.eqb_refl. reflexivity.
  - cbn [app split]. destruct (N.eqb_spec c sep) as [->|Hne].
    + contradiction H. left. reflexivity.
    + rewrite IH by (intros Hin; apply H; right; exact Hin). reflexivity.
Qed.

Lemma join_split (sep : N) (s : jsstring) : join [sep] (split sep s) = s.
Proof.
  induction s as [|c s IH]; [reflexivity|].
  cbn [split]. destruct (N.eqb_spec c sep) as [->|Hne].
  - destruct (split sep s) as [|h t] eqn:E.
    + cbn in IH. subst s. discriminate E.
    + change (join [sep] ([] :: h :: t)) with ([] ++ [sep] ++ join [sep] (h :: t)).
      rewrite IH. reflexivity.
  - destruct (split sep s) as [|h t] eqn:E.
    + cbn in IH. subst s. discriminate E.
    + destruct t as [|h' t].
      * cbn in IH. subst h. reflexivity.
      * change (join [sep] ((c :: h) :: h' :: t))
          with (c :: (h ++ [sep] ++ join [sep] (h' :: t))).
        f_equal. exact IH.
Qed.

Lemma orElse_nil (x : jsstring) : orElse x [] = x.
Proof. destruct x; reflexivity. Qed.

Lemma orElse_trimmed (x dflt : jsstring) :
  dflt <> [] -> trim dflt = dflt ->
  orElse (trim x) dflt <> [] /\ trim (orElse (trim x) dflt) = orElse (trim x) dflt.
Proof.
  intros Hd Ht. pose proof (trim_trim x) as Hx.
  destruct (trim x) as [|c r]; cbn [orElse]; [split; assumption|].
  split; [discriminate|exact Hx].
Qed.

(** X9: an item of the links section is cut at its first colon only.
    What precedes it, trimmed, is the label (["Resource"] when that is
    empty); everything after it, further colons included, trimmed, is
    the description; an item without a colon has an empty
    description. *)
Theorem resource_fields (lbl rest : jsstring) :
  ~ In (ch ":") lbl ->
  parseResource (lbl ++ ch ":" :: rest)
  = {| label := orElse (trim lbl) (js "Resource"); description := trim rest |}
  /\ parseResource lbl
     = {| label := orElse (trim lbl) (js "Resource"); description := [] |}.
Proof.
  intros H. unfold parseResource. split.
  - rewrite (split_first _ _ _ H).
    change (js ":") with [ch ":"]. rewrite join_split, orElse_nil. reflexivity.
  - rewrite (split_plain _ _ H). reflexivity.
Qed.

Lemma resource_fields_witness :
  parseResource (js "Poison Control : https://poison.example:8443/help ")
  = {| label := js "Poison Control";
       description := js "https://poison.example:8443/help" |}.
Proof.
  refine (eq_trans
            (proj1 (resource_fields (js "Poison Control ")
                      (js " https://poison.example:8443/help ") _)) _).
  - vm_compute. intuition discriminate.
  - vm_compute. reflexivity.
Defined.

Lemma parseResource_shape (part : jsstring) :
  label (parseResource part) <> []
  /\ trim (label (parseResource part)) = label (parseResource part)
  /\ trim (description (parseResource part)) = description (parseResource part).
Proof.
  unfold parseResource. destruct (split (ch ":") part) as [|lbl descParts].
  - cbn [label description].
    split; [discriminate|split; vm_compute; reflexivity].
  - cbn [label description]. rewrite orElse_nil.
    destruct (orElse_trimmed lbl (js "Resource")) as [H1 H2];
      [discriminate|vm_compute; reflexivity|].
    split; [exact H1|split; [exact H2|apply trim_trim]].
Qed.

Lemma startsWith_prefix (a b pat : jsstring) :
  startsWith a pat = true -> startsWith (a ++ b) pat = true.
Proof.
  revert a. induction pat as [|p pat IH]; intros a H;
    [destruct (a ++ b); reflexivity|].
  destruct a as [|c a]; [discriminate H|].
  cbn [app startsWith] in *. apply andb_true_iff in H as [-> H].
  apply IH, H.
Qed.

Lemma includes_app_l (a b pat : jsstring) :
  includes (a ++ b) pat = false -> includes a pat = false.
Proof.
  induction a as [|c a IH]; intros H.
  - cbn [includes]. rewrite orb_false_r.
    destruct (startsWith [] pat) eqn:E; [|reflexivity].
    pose proof (startsWith_prefix [] b pat E) as Hp. cbn [app] in *.
    destruct b; cbn [includes] in H; rewrite Hp in H; discriminate H.
  - cbn [app includes] in *. apply orb_false_iff in H as [H1 H2].
    rewrite (IH H2), orb_false_r.
    destruct (startsWith (c :: a) pat) eqn:E; [|reflexivity].
    pose proof (startsWith_prefix (c :: a) b pat E) as Hp. cbn [app] in Hp.
    congruence.
Qed.

Lemma includes_app_r (a b pat : jsstring) :
  includes (a ++ b) pat = false -> includes b pat = false.
Proof.
  induction a as [|c a IH]; intros H; [exact H|].
  apply IH. cbn [app includes] in H. apply orb_false_iff in H. tauto.
Qed.

Lemma includes_trim (s pat : jsstring) :
  includes s pat = false -> includes (trim s) pat = false.
Proof.
  intros H. unfold trim, trimEnd.
  destruct (trimStart_suffix s) as (p & Hp & _).
  rewrite Hp in H. apply includes_app_r in H.
  set (t := trimStart s) in *.
  destruct (trimStart_suffix (rev t)) as (q & Hq & _).
  assert (Ht : t = rev (trimStart (rev t)) ++ rev q).
  { rewrite <- (rev_involutive t) at 1. rewrite Hq at 1.
    rewrite rev_app_distr. reflexivity. }
  rewrite Ht in H. apply includes_app_l in H. exact H.
Qed.

Lemma includes_skipn (n : nat) (s pat : jsstring) :
  includes s pat = false -> includes (skipn n s) pat = false.
Proof.
  intros H. rewrite <- (firstn_skipn n s) in H.
  apply includes_app_r in H. exact H.
Qed.

Lemma triggerCall_prefix (rawText : jsstring) :
  triggerCall (parseAssistantMessage rawText)
  = startsWith rawText CALL_EMERGENCY_CONTACT.
Proof.
  unfold parseAssistantMessage.
  destruct (startsWith rawText CALL_EMERGENCY_CONTACT);
    match goal with
    | |- context [matchLinks ?t] => destruct (matchLinks t) as [[? ?]|]
    end; reflexivity.
Qed.

(** X10: what the parser returns for any text. The call is triggered
    exactly when the text starts with the call directive (a directive
    further on triggers nothing); when a directive was found the display
    text has no surrounding white space; a text that does not contain
    the links marker yields no resources; every resource has a label
    that is not empty, and label and description have no surrounding
    white space. *)
Theorem parsed_message_shape (rawText : jsstring) :
  let p := parseAssistantMessage rawText in
  triggerCall p = startsWith rawText CALL_EMERGENCY_CONTACT
  /\ (triggerCall p = true \/ resources p <> [] -> trim (text p) = text p)
  /\ (includes rawText LINKS = false -> resources p = [])
  /\ Forall (fun r => label r <> [] /\ trim (label r) = label r
                      /\ trim (description r) = description r)
            (resources p).
Proof.
  cbn zeta. unfold parseAssistantMessage.
  destruct (startsWith rawText CALL_EMERGENCY_CONTACT) eqn:Hc.
  - set (text1 := trim (replace rawText CALL_EMERGENCY_CONTACT [])).
    assert (Hincl : includes rawText LINKS = false ->
                    includes text1 LINKS = false).
    { intros H. apply includes_trim. rewrite replace_eq, Hc.
      cbn [app]. apply includes_skipn, H. }
    destruct (matchLinks text1) as [[before captured]|] eqn:Hm;
      cbn [text resources triggerCall].
    + split; [reflexivity|]. split; [intros _; apply trim_trim|].
      split.
      * intros H. rewrite (matchLinks_absent _ (Hincl H)) in Hm.
        discriminate Hm.
      * apply List.Forall_forall. intros r Hr.
        apply in_map_iff in Hr as (part & <- & _).
        apply parseResource_shape.
    + split; [reflexivity|]. split; [intros _; apply trim_trim|].
      split; [reflexivity|constructor].
  - destruct (matchLinks rawText) as [[before captured]|] eqn:Hm;
      cbn [text resources triggerCall].
    + split; [reflexivity|]. split; [intros _; apply trim_trim|].
      split.
      * intros H. rewrite (matchLinks_absent _ H) in Hm. discriminate Hm.
      * apply List.Forall_forall. intros r Hr.
        apply in_map_iff in Hr as (part & <- & _).
        apply parseResource_shape.
    + split; [reflexivity|].
      split; [intros [H|H]; [discriminate H|contradiction H; reflexivity]|].
      split; [reflexivity|constructor].
Qed.

Lemma parsed_message_shape_witness :
  triggerCall (parseAssistantMessage
                 (js "Stay calm. [[CALL_EMERGENCY_CONTACT]] Help is coming."))
  = false
  /\ resources (parseAssistantMessage
                  (js "Stay calm. [[CALL_EMERGENCY_CONTACT]] Help is coming."))
     = [].
Proof.
  pose proof (parsed_message_shape
                (js "Stay calm. [[CALL_EMERGENCY_CONTACT]] Help is coming."))
    as (H1 & _ & H3 & _).
  split; [rewrite H1; reflexivity|apply H3; reflexivity].
Defined.

(** A call directive followed by a text without a links match. *)
Lemma parse_directive (body : jsstring) :
  matchLinks (trim body) = None ->
  parseAssistantMessage (CALL_EMERGENCY_CONTACT ++ body)
  = {| text := trim body; resources := []; triggerCall := true |}.
Proof.
  intros H. unfold parseAssistantMessage.
  rewrite startsWith_app, replace_prefix. cbn [app]. rewrite H. reflexivity.
Qed.

End ParserMore.

(** *** More on the call-trigger effect *)

Section DedupMore.
Import JS Agent Coach Session.

Lemma visit_entry (c : Coach.state) (m : TranscriptMessage) :
  visit c (m, match role m with
              | assistant => Parser.parseAssistantMessage (text m)
              | user => {| Parser.text := text m; Parser.resources := [];
                           Parser.triggerCall := false |}
              end)
  = if pending c m
    then {| processedCallsRef := {[ id m ]} ∪ processedCallsRef c;
            error := error c;
            calls := calls c ++ [invocationOf m] |}
    else c.
Proof.
  unfold visit, pending, triggers, invocationOf.
  destruct (role m); cbn [Parser.triggerCall Parser.text andb]; [reflexivity|].
  rewrite triggerCall_prefix. reflexivity.
Qed.

Lemma effect_cons (m : TranscriptMessage) messages (c : Coach.state) :
  callTriggerEffect (m :: messages) c
  = callTriggerEffect messages
      (if pending c m
       then {| processedCallsRef := {[ id m ]} ∪ processedCallsRef c;
               error := error c;
               calls := calls c ++ [invocationOf m] |}
       else c).
Proof.
  unfold callTriggerEffect, parsedMessages. cbn [List.map fold_left].
  rewrite visit_entry. reflexivity.
Qed.

(** Every call comes from an entry that triggers. *)
Lemma effect_sound messages (c : Coach.state) (v : invocation) :
  In v (calls (callTriggerEffect messages c)) ->
  In v (calls c)
  \/ exists m, In m messages /\ triggers m = true /\ v = invocationOf m.
Proof.
  revert c. induction messages as [|m messages IH]; intros c H; [left; exact H|].
  rewrite effect_cons in H. apply IH in H as [H|(m' & Hin & Ht & Hv)].
  - destruct (pending c m) eqn:Hp; [|left; exact H].
    cbn [calls] in H. apply in_app_or in H as [H|[<-|[]]]; [left; exact H|].
    right. exists m. split; [left; reflexivity|].
    unfold pending in Hp. apply andb_true_iff in Hp as [Hp _]. auto.
  - right. exists m'. split; [right; exact Hin|auto].
Qed.

(** X11: the calls made over any sequence of runs of the call-trigger
    effect all come from transcript entries of the assistant whose text
    starts with the call directive, and each carries the identifier and
    the display text of its entry. An entry of the user triggers no
    call, whatever its text. *)
Theorem calls_come_from_directives
    (passes : list (list TranscriptMessage)) (v : invocation) :
  In v (calls (renders passes Coach.initial)) ->
  exists messages m,
    In messages passes /\ In m messages /\ role m = assistant
    /\ startsWith (text m) Parser.CALL_EMERGENCY_CONTACT = true
    /\ entry v = id m
    /\ summary v = Parser.text (Parser.parseAssistantMessage (text m)).
Proof.
  assert (H : forall c,
             In v (calls (renders passes c)) ->
             In v (calls c)
             \/ exists messages m,
                  In messages passes /\ In m messages /\ triggers m = true
                  /\ v = invocationOf m).
  { induction passes as [|messages passes IH]; intros c Hv; [left; exact Hv|].
    cbn [renders fold_left] in Hv.
    apply IH in Hv as [Hv|(ms & m & Hp & Hm & Ht & E)].
    - apply effect_sound in Hv as [Hv|(m & Hm & Ht & E)]; [left; exact Hv|].
      right. exists messages, m. split; [left; reflexivity|auto].
    - right. exists ms, m. split; [right; exact Hp|auto]. }
  intros Hv. apply H in Hv as [[]|(ms & m & Hp & Hm & Ht & ->)].
  exists ms, m. unfold triggers in Ht.
  destruct (role m) eqn:Hr; [discriminate Ht|].
  repeat split; assumption.
Qed.

Lemma calls_come_from_directives_witness :
  let m := {| id := js "assistant-7"; role := assistant;
              text := js "[[CALL_EMERGENCY_CONTACT]] Fall, hip pain" |} in
  exists messages m',
    In messages [[m]; [m]] /\ In m' messages
    /\ summary {| entry := js "assistant-7"; summary := js "Fall, hip pain" |}
       = Parser.text (Parser.parseAssistantMessage (text m')).
Proof.
  intros m.
  destruct (calls_come_from_directives [[m]; [m]]
              {| entry := js "assistant-7"; summary := js "Fall, hip pain" |})
    as (ms & m' & H1 & H2 & _ & _ & _ & H3).
  - vm_compute. left. reflexivity.
  - exists ms, m'. auto.
Defined.

Lemma effect_calls messages (c : Coach.state) :
  List.NoDup (List.map id messages) ->
  calls (callTriggerEffect messages c)
  = calls c ++ List.map invocationOf (List.filter (pending c) messages).
Proof.
  revert c. induction messages as [|m messages IH]; intros c Hnd.
  - cbn. rewrite app_nil_r. reflexivity.
  - cbn [List.map] in Hnd. apply List.NoDup_cons_iff in Hnd as [Hnin Hnd].
    rewrite effect_cons. cbn [List.filter].
    destruct (pending c m) eqn:Hp; [|apply IH, Hnd].
    rewrite (IH _ Hnd). cbn [calls List.map]. rewrite <- app_assoc. cbn [app].
    do 2 f_equal. f_equal. apply List.filter_ext_in. intros x Hx.
    unfold pending. cbn [processedCallsRef]. f_equal. f_equal.
    assert (Hne : id x <> id m).
    { intros E. apply Hnin. rewrite <- E. apply in_map, Hx. }
    destruct (decide (id x ∈ processedCallsRef c)) as [Hi|Hi].
    + rewrite !bool_decide_eq_true_2; [reflexivity|exact Hi|].
      apply elem_of_union_r, Hi.
    + rewrite !bool_decide_eq_false_2; [reflexivity|exact Hi|].
      apply not_elem_of_union. split; [|exact Hi].
      apply not_elem_of_singleton. exact Hne.
Qed.

(** X12: over a transcript whose identifiers are distinct, one run of
    the call-trigger effect makes its calls in transcript order, one for
    each assistant entry that starts with the directive and whose
    identifier is not in the set yet; from the start of the component
    these are all the entries that start with the directive. *)
Theorem calls_in_transcript_order (messages : list TranscriptMessage)
    (c : Coach.state) :
  List.NoDup (List.map id messages) ->
  calls (callTriggerEffect messages c)
  = calls c ++ List.map invocationOf (List.filter (pending c) messages)
  /\ calls (callTriggerEffect messages Coach.initial)
     = List.map invocationOf (List.filter triggers messages).
Proof.
  intros Hnd. split; [apply effect_calls, Hnd|].
  rewrite (effect_calls _ _ Hnd). cbn [calls Coach.initial app].
  f_equal. apply List.filter_ext. intros m. unfold pending.
  cbn [processedCallsRef Coach.initial].
  rewrite bool_decide_eq_false_2 by apply not_elem_of_empty.
  apply andb_true_r.
Qed.

Lemma calls_in_transcript_order_witness :
  let a := {| id := js "assistant-1"; role := assistant;
              text := js "[[CALL_EMERGENCY_CONTACT]] First" |} in
  let u := {| id := js "user-2"; role := user;
              text := js "[[CALL_EMERGENCY_CONTACT]] typed by the user" |} in
  let b := {| id := js "assistant-3"; role := assistant;
              text := js "[[CALL_EMERGENCY_CONTACT]] Second" |} in
  List.map summary (calls (callTriggerEffect [a; u; b] Coach.initial))
  = [js "First"; js "Second"].
Proof.
  intros a u b.
  rewrite (proj2 (calls_in_transcript_order [a; u; b] Coach.initial
                    ltac:(repeat constructor; vm_compute; intuition discriminate))).
  vm_compute. reflexivity.
Defined.

(** X13: an assistant message made of the call directive and nothing
    but white space is still acted on: its identifier is put in the set
    and a call is requested with an empty summary, which the telephony
    route answers with 400 before it contacts Twilio; a later run of the
    effect does not try again. *)
Theorem directive_without_summary (e : CallContact.env)
    (twilio : CallContact.twilioPackage)
    (i ws : jsstring) :
  forallb isWhiteSpace ws = true ->
  let m := {| id := i; role := assistant;
              text := Parser.CALL_EMERGENCY_CONTACT ++ ws |} in
  let c := callTriggerEffect [m] Coach.initial in
  calls c = [ {| entry := i; summary := [] |} ]
  /\ i ∈ processedCallsRef c
  /\ (forall v, In v (calls c) ->
        CallContact.POST e twilio (CallContact.Fields (CallContact.Str (summary v)))
        = (CallContact.failure 400 (js "Missing summary"), [])
        /\ CallContact.callEmergencyContact e twilio (summary v) = false)
  /\ callTriggerEffect [m] c = c.
Proof.
  intros Hws m c.
  assert (Hparse : Parser.parseAssistantMessage (text m)
                   = {| Parser.text := []; Parser.resources := [];
                        Parser.triggerCall := true |}).
  { unfold m. cbn [text]. rewrite parse_directive; rewrite (trim_blank ws Hws);
      reflexivity. }
  assert (Hp : pending Coach.initial m = true).
  { unfold pending, triggers. cbn [role m text].
    rewrite startsWith_app. cbn [andb processedCallsRef Coach.initial].
    rewrite bool_decide_eq_false_2 by apply not_elem_of_empty. reflexivity. }
  assert (Hc : c = {| processedCallsRef := {[ i ]} ∪ ∅; error := None;
                      calls := [ {| entry := i; summary := [] |} ] |}).
  { unfold c. rewrite effect_cons, Hp. unfold invocationOf. rewrite Hparse.
    reflexivity. }
  split; [rewrite Hc; reflexivity|].
  split; [rewrite Hc; cbn [processedCallsRef];
          apply elem_of_union_l, elem_of_singleton_2; reflexivity|].
  split.
  - rewrite Hc. cbn [calls]. intros v [<-|[]]. cbn [summary].
    unfold CallContact.callEmergencyContact.
    rewrite (POST_invalid e twilio (CallContact.Str [])) by reflexivity.
    split; reflexivity.
  - rewrite effect_cons.
    assert (Hq : pending c m = false).
    { unfold pending. rewrite Hc. cbn [processedCallsRef id m].
      rewrite bool_decide_eq_true_2
        by (apply elem_of_union_l, elem_of_singleton_2; reflexivity).
      apply andb_false_r. }
    rewrite Hq. reflexivity.
Qed.

Lemma directive_without_summary_witness :
  let m := {| id := js "assistant-9"; role := assistant;
              text := js "[[CALL_EMERGENCY_CONTACT]]  " |} in
  calls (callTriggerEffect [m] Coach.initial)
  = [ {| entry := js "assistant-9"; summary := [] |} ].
Proof.
  intros m.
  exact (proj1 (directive_without_summary
                  (CallContact.mkEnv None None None None) (fun _ _ => None)
                  (js "assistant-9") (js "  ") eq_refl)).
Defined.

End DedupMore.

(** *** More on the session *)

Section SessionMore.
Import JS Codec Agent Session.

Lemma ch_injective (a b : ascii) : ch a = ch b -> a = b.
Proof.
  unfold ch. intros E.
  rewrite <- (ascii_N_embedding a), <- (ascii_N_embedding b), E. reflexivity.
Qed.

Lemma js_injective (s s' : string) : js s = js s' -> s = s'.
Proof.
  unfold js. intros H.
  assert (Hmap : forall l l', List.map ch l = List.map ch l' -> l = l').
  { induction l as [|a l IH]; intros [|b l'] E; try discriminate E;
      [reflexivity|].
    cbn [List.map] in E. injection E as E1 E2.
    f_equal; [apply ch_injective, E1|apply IH, E2]. }
  apply Hmap in H. apply (f_equal string_of_list_ascii) in H.
  rewrite !string_of_list_ascii_of_string in H. exact H.
Qed.

(** Two numbers with the same decimal numeral are equal. *)
Lemma decimal_injective (n n' : N) : decimal n = decimal n' -> n = n'.
Proof.
  unfold decimal. intros H. apply js_injective in H.
  assert (Hn : forall m, N.to_uint m <> Decimal.Nil).
  { intros [|p]; [discriminate|apply DecimalPos.Unsigned.to_uint_nonnil]. }
  apply (f_equal DecimalString.NilZero.uint_of_string) in H.
  rewrite !DecimalString.NilZero.usu in H by apply Hn.
  injection H as H. apply DecimalN.Unsigned.to_uint_inj, H.
Qed.

Lemma identifier_injective (r r' : Role) (n n' : N) :
  prefixOf r ++ decimal n = prefixOf r' ++ decimal n' -> r = r' /\ n = n'.
Proof.
  destruct r, r'; cbn [prefixOf]; intros H.
  - apply app_inv_head in H. split; [reflexivity|apply decimal_injective, H].
  - vm_compute in H. discriminate H.
  - vm_compute in H. discriminate H.
  - apply app_inv_head in H. split; [reflexivity|apply decimal_injective, H].
Qed.

Lemma NoDup_snoc {A : Type} (x : A) (l : list A) :
  ~ In x l -> List.NoDup l -> List.NoDup (l ++ [x]).
Proof.
  intros Hx Hl. apply List.NoDup_app; [exact Hl|repeat constructor; intros []|].
  intros a Ha [<-|[]]. exact (Hx Ha).
Qed.

Lemma NoDup_app_inv {A : Type} (a b : list A) :
  List.NoDup (a ++ b) -> List.NoDup b /\ forall n, In n b -> ~ In n a.
Proof.
  induction a as [|x a IH]; intros H; [split; [exact H|intros n _ []]|].
  cbn [app] in H. apply List.NoDup_cons_iff in H as [Hx H].
  destruct (IH H) as [Hb Hd]. split; [exact Hb|].
  intros n Hn [<-|Ha]; [apply Hx, in_or_app; right; exact Hn|exact (Hd n Hn Ha)].
Qed.

(** How one event changes the transcript. *)
Lemma step_transcript (littleEndian : bool) (st : state) (ev : event) :
  messages (step littleEndian st ev) = messages st
  \/ (resets ev = true /\ messages (step littleEndian st ev) = [])
  \/ exists r now txt,
       stamp ev = [now]
       /\ messages (step littleEndian st ev)
          = messages st
              ++ [ {| id := prefixOf r ++ decimal now; role := r; text := txt |} ].
Proof.
  destruct ev as [e|a|r| |now data| | |input|i| |now txt].
  - cbn [step resets]. unfold start.
    destruct (truthy (NEXT_PUBLIC_ELEVENLABS_API_KEY e)),
             (truthy (NEXT_PUBLIC_ELEVENLABS_AGENT_ID e));
      cbn; auto.
  - left. apply step_messages. reflexivity.
  - left. apply step_messages. reflexivity.
  - left. apply step_messages. reflexivity.
  - destruct data as [| |t|t|chunk| | | | |];
      try (left; apply step_messages; reflexivity).
    + cbn [step handleWebSocketMessage].
      destruct t as [[|c t]|]; [left; reflexivity| |left; reflexivity].
      right. right. exists user, now, (c :: t). split; reflexivity.
    + cbn [step handleWebSocketMessage].
      destruct t as [[|c t]|]; [left; reflexivity| |left; reflexivity].
      right. right. exists assistant, now, (c :: t). split; reflexivity.
  - left. apply step_messages. reflexivity.
  - left. apply step_messages. reflexivity.
  - left. apply step_messages. reflexivity.
  - left. apply step_messages. reflexivity.
  - left. apply step_messages. reflexivity.
  - cbn [step]. unfold sendUserText.
    destruct (wsRef st) as [[]|]; try (left; reflexivity).
    right. right. exists user, now, txt. split; reflexivity.
Qed.

Lemma step_appends (littleEndian : bool) (st : state) (ev : event) :
  resets ev = false ->
  exists l, messages (step littleEndian st ev) = messages st ++ l
            /\ (length l <= length (stamp ev))%nat.
Proof.
  intros Hr.
  destruct (step_transcript littleEndian st ev)
    as [H|[[H _]|(r & now & txt & Hs & H)]].
  - exists []. rewrite app_nil_r. split; [exact H|cbn; lia].
  - congruence.
  - eexists. split; [exact H|]. rewrite Hs. cbn. lia.
Qed.

(** X14: no event but a [start()] that passes its configuration check
    removes or rewrites an entry of the transcript: over a run without
    such a start the transcript only grows at its end, by at most one
    entry for every event that reads the clock. In particular [stop()]
    and a closed socket keep the transcript on screen. *)
Theorem transcript_append_only (littleEndian : bool) (evs : list event)
    (st : state) :
  forallb (fun ev => negb (resets ev)) evs = true ->
  exists l, messages (run littleEndian st evs) = messages st ++ l
            /\ (length l <= length (stamps evs))%nat.
Proof.
  revert st. induction evs as [|ev evs IH]; intros st H.
  - exists []. rewrite app_nil_r. split; [reflexivity|cbn; lia].
  - cbn [forallb] in H. apply andb_true_iff in H as [Hev Hevs].
    apply negb_true_iff in Hev.
    destruct (step_appends littleEndian st ev Hev) as (l1 & H1 & L1).
    destruct (IH (step littleEndian st ev) Hevs) as (l2 & H2 & L2).
    exists (l1 ++ l2). unfold run in *. cbn [fold_left].
    rewrite H2, H1, <- app_assoc. split; [reflexivity|].
    unfold stamps in *. cbn [flat_map]. rewrite !length_app. lia.
Qed.

Lemma transcript_append_only_witness :
  let e := {| NEXT_PUBLIC_ELEVENLABS_API_KEY := Some (js "k");
              NEXT_PUBLIC_ELEVENLABS_AGENT_ID := Some (js "a") |} in
  let st := run true initial
              [Start e; MicGranted (js "a"); WsOpen;
               WsMessage 5 (agent_response (Some (js "Hello")))] in
  exists l,
    messages (run true st [SendUserText 6 (js "Help"); WsClose; Stop;
                           Start {| NEXT_PUBLIC_ELEVENLABS_API_KEY := None;
                                    NEXT_PUBLIC_ELEVENLABS_AGENT_ID := None |}])
    = messages st ++ l
    /\ (length l <= 1)%nat.
Proof.
  intros e st.
  exact (transcript_append_only true
           [SendUserText 6 (js "Help"); WsClose; Stop;
            Start {| NEXT_PUBLIC_ELEVENLABS_API_KEY := None;
                     NEXT_PUBLIC_ELEVENLABS_AGENT_ID := None |}] st eq_refl).
Defined.

Lemma step_stamped (littleEndian : bool) (seen : list N) (st : state)
    (ev : event) :
  List.NoDup (List.map id (messages st)) -> stamped seen st ->
  (forall n, In n (stamp ev) -> ~ In n seen) ->
  List.NoDup (List.map id (messages (step littleEndian st ev)))
  /\ stamped (stamp ev ++ seen) (step littleEndian st ev).
Proof.
  intros Hnd Hst Hfresh.
  assert (Hmono : forall m, In m (messages st) ->
            exists n, In n (stamp ev ++ seen)
                      /\ id m = prefixOf (role m) ++ decimal n).
  { intros m Hm. destruct (Hst m Hm) as (n & Hn & E).
    exists n. split; [apply in_or_app; right; exact Hn|exact E]. }
  destruct (step_transcript littleEndian st ev)
    as [H|[[_ H]|(r & now & txt & Hs & H)]].
  - unfold stamped. rewrite H. split; [exact Hnd|exact Hmono].
  - unfold stamped. rewrite H. split; [constructor|intros m []].
  - unfold stamped. rewrite H, List.map_app. cbn [List.map id]. split.
    + apply NoDup_snoc; [|exact Hnd].
      intros Hin. apply in_map_iff in Hin as (m & E & Hm).
      destruct (Hst m Hm) as (n & Hn & En). rewrite En in E.
      apply identifier_injective in E as [_ ->].
      apply (Hfresh now); [rewrite Hs; left; reflexivity|exact Hn].
    + intros m Hm. apply in_app_or in Hm as [Hm|[<-|[]]]; [exact (Hmono m Hm)|].
      cbn [id role]. exists now. split; [|reflexivity].
      rewrite Hs. left. reflexivity.
Qed.

Lemma run_stamped (littleEndian : bool) (evs : list event) :
  forall (st : state) (seen : list N),
    List.NoDup (List.map id (messages st)) -> stamped seen st ->
    List.NoDup (stamps evs) ->
    (forall n, In n (stamps evs) -> ~ In n seen) ->
    List.NoDup (List.map id (messages (run littleEndian st evs))).
Proof.
  induction evs as [|ev evs IH]; intros st seen Hnd Hst Hs Hfresh; [exact Hnd|].
  unfold stamps in Hs, Hfresh. cbn [flat_map] in Hs, Hfresh.
  destruct (NoDup_app_inv _ _ Hs) as [Hs' Hd].
  destruct (step_stamped littleEndian seen st ev Hnd Hst) as [Hnd' Hst'].
  { intros n Hn. apply Hfresh, in_or_app. left. exact Hn. }
  unfold run. cbn [fold_left].
  apply (IH _ (stamp ev ++ seen) Hnd' Hst' Hs').
  intros n Hn Hin. apply in_app_or in Hin as [Hin|Hin].
  - exact (Hd n Hn Hin).
  - apply (Hfresh n); [apply in_or_app; right; exact Hn|exact Hin].
Qed.

(** X15: when the events that can append an entry (inbound
    transcripts and responses, typed texts) all run under different
    values of the clock, the identifiers of the transcript are distinct,
    whatever the events of the session and their order: an identifier is
    unique as far as its millisecond is. *)
Theorem distinct_stamps_distinct_identifiers (littleEndian : bool)
    (evs : list event) (st : state) :
  messages st = [] ->
  List.NoDup (stamps evs) ->
  List.NoDup (List.map id (messages (run littleEndian st evs))).
Proof.
  intros He Hs. apply (run_stamped littleEndian evs st []).
  - rewrite He. constructor.
  - unfold stamped. rewrite He. intros m [].
  - exact Hs.
  - intros n _ [].
Qed.

Lemma distinct_stamps_distinct_identifiers_witness :
  let e := {| NEXT_PUBLIC_ELEVENLABS_API_KEY := Some (js "k");
              NEXT_PUBLIC_ELEVENLABS_AGENT_ID := Some (js "a") |} in
  List.NoDup
    (List.map id
       (messages
          (run true initial
             [Start e; MicGranted (js "a"); WsOpen;
              WsMessage 1700000000000 (agent_response (Some (js "Hello")));
              SendUserText 1700000000001 (js "Help");
              WsMessage 1700000000002 (agent_response (Some (js "Stay calm")))]))).
Proof.
  intros e. apply distinct_stamps_distinct_identifiers; [reflexivity|].
  repeat constructor; cbn; intuition discriminate.
Defined.

(** X16: a [start()] that passes the configuration check and is then
    refused the microphone leaves the session disconnected with an
    empty transcript: what was on screen before is gone although no
    session began. Nothing was acquired and no socket was created. *)
Theorem start_refused_microphone (littleEndian : bool) (e : env)
    (reason : jsstring) (st : state) :
  truthy (NEXT_PUBLIC_ELEVENLABS_API_KEY e) = true ->
  truthy (NEXT_PUBLIC_ELEVENLABS_AGENT_ID e) = true ->
  let st' := run littleEndian st [Start e; MicDenied reason] in
  status st' = disconnected /\ messages st' = []
  /\ wsRef st' = wsRef st /\ mediaStreamRef st' = mediaStreamRef st
  /\ audioContextRef st' = audioContextRef st
  /\ processorRef st' = processorRef st
  /\ trace st'
     = trace st ++ [GetUserMedia; ConsoleError (js "[ElevenLabs] Failed to start:")].
Proof.
  intros Hk Ha. unfold run. cbn [fold_left step]. unfold start.
  rewrite Hk, Ha. cbn. rewrite <- app_assoc. repeat split.
Qed.

Lemma start_refused_microphone_witness :
  let e := {| NEXT_PUBLIC_ELEVENLABS_API_KEY := Some (js "k");
              NEXT_PUBLIC_ELEVENLABS_AGENT_ID := Some (js "a") |} in
  let st := run true initial
              [Start e; MicGranted (js "a"); WsOpen;
               WsMessage 5 (agent_response (Some (js "Hello"))); Stop] in
  messages st <> []
  /\ messages (run true st [Start e; MicDenied (js "NotAllowedError")]) = [].
Proof.
  intros e st. split; [discriminate|].
  exact (proj1 (proj2 (start_refused_microphone true e (js "NotAllowedError") st
                         eq_refl eq_refl))).
Defined.

Lemma sent_emit (e : effect) (st : state) :
  isSend e = false -> sent (emit e st) = sent st.
Proof.
  intros H. unfold sent. cbn [trace emit]. rewrite List.filter_app.
  cbn [List.filter]. rewrite H. apply app_nil_r.
Qed.

Lemma drain_quiet (st : state) :
  wsRef (drain st) = wsRef st /\ sent (drain st) = sent st.
Proof.
  unfold drain. destruct (audioQueueRef st) as [|[|v chunk] rest];
    [split; reflexivity| |];
    cbn [playbackContextRef setAudioQueue];
    destruct (playbackContextRef st); split;
    solve [reflexivity | rewrite sent_emit; reflexivity].
Qed.

Lemma playAudioChunk_quiet (a : segment) (st : state) :
  wsRef (playAudioChunk a st) = wsRef st
  /\ sent (playAudioChunk a st) = sent st.
Proof.
  unfold playAudioChunk.
  set (st1 := if playbackContextRef st then st
              else emit NewPlaybackContext (setPlaybackContext true st)).
  assert (H1 : wsRef st1 = wsRef st /\ sent st1 = sent st).
  { unfold st1. destruct (playbackContextRef st); split; try reflexivity.
    rewrite sent_emit; reflexivity. }
  destruct (isPlayingRef (setAudioQueue (audioQueueRef st1 ++ [a]) st1));
    [exact H1|].
  destruct (drain_quiet
              (setIsPlaying true
                 (setAudioQueue (audioQueueRef st1 ++ [a]) st1))) as [D1 D2].
  split; [rewrite D1|rewrite D2]; apply H1.
Qed.

Lemma stop_quiet (st : state) :
  wsRef (stop st) = None /\ sent (stop st) = sent st.
Proof.
  split; [apply stop_releases|].
  unfold stop, sent.
  destruct st as [s m w ms ac pc q ip pr aw tr].
  destruct ms, pr, ac, pc, w; cbn; rewrite ?List.filter_app; cbn;
    rewrite ?app_nil_r; reflexivity.
Qed.

Lemma step_quiet (littleEndian : bool) (st : state) (ev : event) :
  wsRef st = None -> connects ev = false ->
  wsRef (step littleEndian st ev) = None
  /\ sent (step littleEndian st ev) = sent st.
Proof.
  intros Hw Hc.
  destruct ev as [e|a|r| |now data| | |input|i| |now txt];
    try discriminate Hc; cbn [step].
  - unfold start.
    destruct (negb _ || negb _); cbn [snd];
      (split; [exact Hw|rewrite sent_emit; reflexivity]).
  - unfold startDenied. cbn [snd].
    split; [exact Hw|]. unfold sent. cbn [trace setStatus emit].
    rewrite List.filter_app. cbn. apply app_nil_r.
  - destruct data as [| |t|t|chunk| | | | |]; cbn [handleWebSocketMessage];
      try (split; [exact Hw|]; try reflexivity; rewrite sent_emit; reflexivity).
    + split; [exact Hw|]. unfold sent. cbn [trace setStatus emit].
      rewrite List.filter_app. cbn. apply app_nil_r.
    + destruct t as [[|c t]|]; split; solve [exact Hw|reflexivity].
    + destruct t as [[|c t]|]; split; solve [exact Hw|reflexivity].
    + destruct chunk as [[|c t]|]; try (split; [exact Hw|reflexivity]).
      destruct (base64ToFloat32 littleEndian (c :: t)) as [audioData|].
      * destruct (playAudioChunk_quiet audioData st) as [H1 H2].
        split; [rewrite H1; exact Hw|exact H2].
      * split; [exact Hw|rewrite sent_emit; reflexivity].
    + rewrite Hw. split; [exact Hw|reflexivity].
  - unfold onerror. split; [exact Hw|]. unfold sent. cbn [trace setStatus emit].
    rewrite List.filter_app. cbn. apply app_nil_r.
  - unfold onclose. rewrite Hw. split; [reflexivity|].
    unfold sent. cbn [trace setStatus emit setWs].
    rewrite List.filter_app. cbn. apply app_nil_r.
  - unfold onaudioprocess. rewrite Hw. split; [exact Hw|reflexivity].
  - unfold onended. destruct (nth_error (awaiting st) i) as [chunk|];
      [|split; [exact Hw|reflexivity]].
    match goal with
    | |- wsRef (drain ?s) = _ /\ _ =>
        destruct (drain_quiet s) as [H1 H2]; split;
        [rewrite H1; exact Hw|rewrite H2]
    end.
    unfold sent. cbn [trace emit setAwaiting].
    rewrite List.filter_app. cbn. apply app_nil_r.
  - destruct (stop_quiet st) as [H1 H2]. split; assumption.
  - unfold sendUserText. rewrite Hw.
    split; [exact Hw|rewrite sent_emit; reflexivity].
Qed.

(** X17: after [stop()] nothing is written to a socket any more, as
    long as no new socket is made: whatever callbacks still arrive
    (audio blocks of the microphone, pings and other messages, ends of
    audio sources) and whatever the user types, the hook holds no socket
    and sends nothing. *)
Theorem nothing_sent_after_stop (littleEndian : bool) (evs : list event)
    (st : state) :
  forallb (fun ev => negb (connects ev)) evs = true ->
  wsRef (run littleEndian (stop st) evs) = None
  /\ sent (run littleEndian (stop st) evs) = sent st.
Proof.
  intros H.
  assert (G : forall s, wsRef s = None ->
                wsRef (run littleEndian s evs) = None
                /\ sent (run littleEndian s evs) = sent s).
  { induction evs as [|ev evs IH]; intros s Hs; [split; [exact Hs|reflexivity]|].
    cbn [forallb] in H. apply andb_true_iff in H as [Hev Hevs].
    apply negb_true_iff in Hev.
    destruct (step_quiet littleEndian s ev Hs Hev) as [H1 H2].
    destruct (IH Hevs _ H1) as [H3 H4].
    unfold run in *. cbn [fold_left]. split; [exact H3|congruence]. }
  destruct (stop_quiet st) as [H1 H2].
  destruct (G _ H1) as [H3 H4]. split; [exact H3|congruence].
Qed.

Lemma nothing_sent_after_stop_witness :
  let e := {| NEXT_PUBLIC_ELEVENLABS_API_KEY := Some (js "k");
              NEXT_PUBLIC_ELEVENLABS_AGENT_ID := Some (js "a") |} in
  let st := run true initial [Start e; MicGranted (js "a"); WsOpen] in
  wsRef st = Some OPEN
  /\ sent (run true (stop st)
             [AudioProcess [Fin (1 # 2)]; WsMessage 7 ping;
              SendUserText 8 (js "Help"); Ended 0])
     = [WsSend conversation_initiation_client_data].
Proof.
  intros e st. split; [reflexivity|].
  exact (proj2 (nothing_sent_after_stop true
                  [AudioProcess [Fin (1 # 2)]; WsMessage 7 ping;
                   SendUserText 8 (js "Help"); Ended 0] st eq_refl)).
Defined.

(** X18: submitting the text field. A blank input changes nothing and
    stays in the field. Any other input empties the field; on an open
    socket its trimmed text is sent and appended to the transcript as an
    entry of the user, and without an open socket the text is neither
    sent nor shown: it is lost. *)
Theorem text_submit (now : N) (textInput : jsstring) (st : state) :
  (trim textInput = [] -> handleTextSubmit now textInput st = (textInput, st))
  /\ (trim textInput <> [] ->
      fst (handleTextSubmit now textInput st) = []
      /\ (wsRef st = Some OPEN ->
          messages (snd (handleTextSubmit now textInput st))
          = messages st
              ++ [ {| id := js "user-" ++ decimal now; role := user;
                      text := trim textInput |} ]
          /\ trace (snd (handleTextSubmit now textInput st))
             = trace st ++ [WsSend (user_message (trim textInput))])
      /\ (wsRef st <> Some OPEN ->
          messages (snd (handleTextSubmit now textInput st)) = messages st
          /\ sent (snd (handleTextSubmit now textInput st)) = sent st)).
Proof.
  unfold handleTextSubmit. destruct (trim textInput) as [|c t].
  - split; [reflexivity|intros H; contradiction H; reflexivity].
  - split; [discriminate|]. intros _. cbn [fst snd]. split; [reflexivity|].
    unfold sendUserText. split.
    + intros ->. split; reflexivity.
    + intros Hw. destruct (wsRef st) as [[]|]; try (contradiction Hw; reflexivity);
        (split; [reflexivity|rewrite sent_emit; reflexivity]).
Qed.

Lemma text_submit_witness :
  let e := {| NEXT_PUBLIC_ELEVENLABS_API_KEY := Some (js "k");
              NEXT_PUBLIC_ELEVENLABS_AGENT_ID := Some (js "a") |} in
  let st := run true initial [Start e; MicGranted (js "a"); WsOpen; WsClose] in
  handleTextSubmit 9 (js "   ") st = (js "   ", st)
  /\ fst (handleTextSubmit 9 (js " I need help ") st) = []
  /\ messages (snd (handleTextSubmit 9 (js " I need help ") st)) = [].
Proof.
  intros e st.
  destruct (text_submit 9 (js "   ") st) as [H1 _].
  destruct (text_submit 9 (js " I need help ") st) as [_ H2].
  split; [apply H1; reflexivity|].
  destruct H2 as (H2 & _ & H3); [vm_compute; discriminate|].
  split; [exact H2|]. apply H3. vm_compute. discriminate.
Defined.

End SessionMore.

(** *** The playback scheduler under interruptions *)

Section InterruptedPlayback.
Import JS Codec Agent Session.

Lemma sublist_Forall {A : Type} (P : A -> Prop) (l1 l2 : list A) :
  sublist l1 l2 -> Forall P l2 -> Forall P l1.
Proof.
  induction 1 as [|x l1 l2 _ IH|x l1 l2 _ IH]; intros H.
  - constructor.
  - inversion_clear H. constructor; auto.
  - inversion_clear H. auto.
Qed.

Lemma interruptible_initial : Session.scheduled [] [] initial.
Proof.
  unfold Session.scheduled. cbn. repeat split; try discriminate.
  apply sublist_nil_l.
Qed.

Lemma interruptible_enqueue segs played (a : segment) (st : state) :
  a <> [] ->
  Session.scheduled segs played st ->
  Session.scheduled (segs ++ [a]) played (playAudioChunk a st).
Proof.
  intros Ha (Hsegs & Hplay & Hon & Hoff).
  destruct a as [|v a]; [contradiction Ha; reflexivity|].
  destruct st as [s m w ms ac pc q ip pr aw tr]. cbn in *.
  unfold playAudioChunk. destruct ip.
  - destruct (Hon eq_refl) as [-> [c ->]]. cbn.
    unfold Session.scheduled. cbn.
    split.
    { enough (H : sublist ((played ++ [c] ++ q) ++ [v :: a])
                          (segs ++ [v :: a]))
        by (rewrite <- !app_assoc in H; exact H).
      apply sublist_app; [exact Hsegs|reflexivity]. }
    split; [exact Hplay|].
    split; [intros _; eauto|discriminate].
  - destruct (Hoff eq_refl) as [-> ->].
    assert (Hs : sublist (played ++ [v :: a]) (segs ++ [v :: a])).
    { apply sublist_app; [|reflexivity]. rewrite !app_nil_r in Hsegs.
      exact Hsegs. }
    destruct pc; cbn in *; unfold drain; cbn; unfold Session.scheduled; cbn;
      (split; [exact Hs|]);
      (split; [|split; [intros _; eauto|discriminate]]);
      rewrite !List.filter_app; cbn; rewrite ?app_nil_r, Hplay, ?app_nil_r;
      reflexivity.
Qed.

Lemma interruptible_ended segs played (i : nat) (st : state) :
  Forall (fun a => a <> []) segs ->
  Session.scheduled segs played st ->
  exists played', Session.scheduled segs played' (onended i st).
Proof.
  intros Hne (Hsegs & Hplay & Hon & Hoff).
  pose proof (sublist_Forall _ _ _ Hsegs Hne) as Hall.
  destruct st as [s m w ms ac pc q ip pr aw tr]. cbn in *.
  unfold onended. cbn. destruct ip.
  - destruct (Hon eq_refl) as [-> [c ->]].
    destruct i as [|i]; cbn.
    + unfold drain. cbn. destruct q as [|c' q]; cbn.
      * exists (played ++ [c]). unfold Session.scheduled. cbn.
        split; [rewrite app_nil_r in *; exact Hsegs|].
        split; [|split; [discriminate|auto]].
        unfold playback in *. cbn in *.
        rewrite List.filter_app, Hplay, timeline_snoc, app_nil_r, <- app_assoc.
        reflexivity.
      * assert (Hc' : c' <> []).
        { rewrite List.Forall_forall in Hall. apply Hall.
          apply in_or_app. right. right. left. reflexivity. }
        destruct c' as [|v c']; [contradiction Hc'; reflexivity|].
        exists (played ++ [c]). unfold Session.scheduled. cbn.
        split; [rewrite <- app_assoc; exact Hsegs|].
        split; [|split; [intros _; eauto|discriminate]].
        unfold playback in *. cbn in *.
        rewrite !List.filter_app, Hplay, timeline_snoc, <- !app_assoc.
        reflexivity.
    + destruct i; cbn; exists played; unfold Session.scheduled; cbn;
        repeat split; eauto; discriminate.
  - destruct (Hoff eq_refl) as [-> ->].
    destruct i; cbn; exists played; unfold Session.scheduled; cbn;
      repeat split; auto; discriminate.
Qed.

Lemma interruptible_interrupt segs played (now : N) (st : state) :
  Session.scheduled segs played st ->
  Session.scheduled segs played (handleWebSocketMessage true now interruption st).
Proof.
  intros (Hsegs & Hplay & Hon & Hoff).
  unfold Session.scheduled. cbn.
  split.
  { etransitivity; [|exact Hsegs].
    apply sublist_app; [reflexivity|].
    apply sublist_app; [reflexivity|apply sublist_nil_l]. }
  split; [exact Hplay|].
  split; [exact Hon|]. intros H. split; [apply (Hoff H)|reflexivity].
Qed.

Lemma interruptible_run (evs : list Session.playbackEvent) segs played
    (st : state) :
  Forall (fun a => a <> []) (segs ++ Session.enqueued evs) ->
  Session.scheduled segs played st ->
  exists played',
    Session.scheduled (segs ++ Session.enqueued evs) played'
      (Session.schedule st evs).
Proof.
  revert segs played st.
  induction evs as [|ev evs IH]; intros segs played st Hne H.
  - exists played. cbn. rewrite app_nil_r. exact H.
  - destruct ev as [a|i|now]; cbn.
    + assert (Hne' : Forall (fun a => a <> [])
                       ((segs ++ [a]) ++ Session.enqueued evs))
        by (rewrite <- app_assoc; exact Hne).
      assert (Ha : a <> []).
      { rewrite List.Forall_forall in Hne'. apply Hne'.
        apply in_or_app. left. apply in_or_app. right. left. reflexivity. }
      destruct (IH _ _ _ Hne' (interruptible_enqueue _ _ a _ Ha H)) as [p Hp].
      exists p. rewrite <- app_assoc in Hp. exact Hp.
    + assert (Hs : Forall (fun a => a <> []) segs).
      { apply Forall_app in Hne. apply Hne. }
      destruct (interruptible_ended _ _ i _ Hs H) as [p0 H0].
      exact (IH _ _ _ Hne H0).
    + exact (IH _ _ _ Hne (interruptible_interrupt _ _ now _ H)).
Qed.

(** X19: with interruptions among the calls of [playAudioChunk] and the
    ends of the sources, in any interleaving, the scheduler still plays
    segments that have samples one at a time and in the order of
    arrival: the sources started and ended so far are a back-to-back run
    of segments followed by the start of at most one more, and what was
    played, what plays and what waits is, in this order, a selection of
    the segments handed over. An interruption drops what waits and
    nothing else: the segment being played is played to its end, and
    nothing dropped is played later. *)
Theorem playback_with_interruptions (evs : list Session.playbackEvent) :
  Forall (fun a => a <> []) (Session.enqueued evs) ->
  let st := Session.schedule initial evs in
  (exists played,
     sublist (played ++ awaiting st ++ audioQueueRef st) (Session.enqueued evs)
     /\ playback st = timeline played ++ List.map SourceStart (awaiting st))
  /\ (length (awaiting st) <= 1)%nat
  /\ (forall now,
        let st' := Session.playbackStep st (Session.Interrupt now) in
        audioQueueRef st' = [] /\ awaiting st' = awaiting st
        /\ playback st' = playback st /\ isPlayingRef st' = isPlayingRef st).
Proof.
  intros Hne. cbn zeta.
  destruct (interruptible_run evs [] [] initial Hne interruptible_initial)
    as [played H].
  cbn [app] in H. pose proof H as (Hsegs & Hplay & Hon & Hoff).
  split; [exists played; split; assumption|].
  split.
  - destruct (isPlayingRef (Session.schedule initial evs)).
    + destruct (Hon eq_refl) as [_ [c ->]]. cbn. lia.
    + destruct (Hoff eq_refl) as [-> _]. cbn. lia.
  - intros now. repeat split.
Qed.

Lemma playback_with_interruptions_witness :
  let A := [Fin (1 # 2)] in
  let B := [Fin (-1 # 4); Fin 0] in
  let C := [Fin (3 # 4)] in
  let evs := [Session.Enqueue A; Session.Enqueue B; Session.Interrupt 3;
              Session.SourceEnd 0; Session.Enqueue C; Session.SourceEnd 0] in
  playback (Session.schedule initial evs) = timeline [A; C]
  /\ (length (awaiting (Session.schedule initial evs)) <= 1)%nat.
Proof.
  intros A B C evs. split; [reflexivity|].
  refine (proj1 (proj2 (playback_with_interruptions evs _))).
  repeat constructor; discriminate.
Defined.

End InterruptedPlayback.

(** *** The hook on the vendor SDK *)

Section SdkFacts.
Import JS Agent.

Lemma sdk_prefix_injective (p p' : jsstring) (n n' : N) :
  p = js "user-" \/ p = js "assistant-" ->
  p' = js "user-" \/ p' = js "assistant-" ->
  p ++ decimal n = p' ++ decimal n' -> n = n'.
Proof.
  intros [->| ->] [->| ->] H.
  - apply (identifier_injective user user) in H. apply H.
  - apply (identifier_injective user assistant) in H. apply H.
  - apply (identifier_injective assistant user) in H. apply H.
  - apply (identifier_injective assistant assistant) in H. apply H.
Qed.

(** How one event changes the transcript and the counter. *)
Lemma sdk_step_transcript (st : SdkAgent.state) (ev : SdkAgent.event) :
  (SdkAgent.messageIdCounter (SdkAgent.step st ev) = SdkAgent.messageIdCounter st
   /\ (SdkAgent.messages (SdkAgent.step st ev) = SdkAgent.messages st
       \/ SdkAgent.messages (SdkAgent.step st ev) = []))
  \/ exists p r txt,
       (p = js "user-" \/ p = js "assistant-")
       /\ SdkAgent.messageIdCounter (SdkAgent.step st ev)
          = SdkAgent.increment (SdkAgent.messageIdCounter st)
       /\ SdkAgent.messages (SdkAgent.step st ev)
          = SdkAgent.messages st
              ++ [ {| id := p ++ decimal (SdkAgent.increment
                                            (SdkAgent.messageIdCounter st));
                      role := r; text := txt |} ].
Proof.
  destruct ev as [| |src message| |m|b|agentId| | |txt]; cbn [SdkAgent.step];
    try (left; split; [reflexivity|left; reflexivity]).
  - unfold SdkAgent.onMessage.
    destruct src, message as [|c t];
      try (left; split; [reflexivity|left; reflexivity]).
    + right. exists (js "user-"), user, (c :: t). auto.
    + right. exists (js "assistant-"), assistant, (c :: t). auto.
  - destruct m; left; split; try reflexivity; left; reflexivity.
  - unfold SdkAgent.start. destruct (truthy agentId); cbn [snd];
      left; split; try reflexivity; [right|left]; reflexivity.
  - unfold SdkAgent.sendUserText. destruct (SdkAgent.sdkConnected st).
    + right. exists (js "user-"), user, txt. auto.
    + left. split; [reflexivity|left; reflexivity].
Qed.

(** One event keeps the identifiers distinct and the counter from
    going back. *)
Lemma sdk_step_distinct (st : SdkAgent.state) (ev : SdkAgent.event) :
  List.NoDup (List.map id (SdkAgent.messages st)) ->
  SdkAgent.numbered st ->
  SdkAgent.messageIdCounter st < 2 ^ 53 ->
  List.NoDup (List.map id (SdkAgent.messages (SdkAgent.step st ev)))
  /\ SdkAgent.numbered (SdkAgent.step st ev)
  /\ SdkAgent.messageIdCounter st
     <= SdkAgent.messageIdCounter (SdkAgent.step st ev)
     <= N.succ (SdkAgent.messageIdCounter st)
  /\ (forall m, In m (SdkAgent.messages (SdkAgent.step st ev)) ->
        In m (SdkAgent.messages st)
        \/ exists p n,
             id m = p ++ decimal n
             /\ (p = js "user-" \/ p = js "assistant-")
             /\ SdkAgent.messageIdCounter st < n
                <= SdkAgent.messageIdCounter (SdkAgent.step st ev)).
Proof.
  intros Hnd Hnum Hlt.
  assert (Hinc : SdkAgent.increment (SdkAgent.messageIdCounter st)
                 = N.succ (SdkAgent.messageIdCounter st)).
  { unfold SdkAgent.increment.
    destruct (N.ltb_spec (SdkAgent.messageIdCounter st) (2 ^ 53));
      [reflexivity|lia]. }
  destruct (sdk_step_transcript st ev)
    as [[Hc [Hm|Hm]]|(p & r & txt & Hp & Hc & Hm)].
  - unfold SdkAgent.numbered. rewrite Hm, Hc.
    split; [exact Hnd|]. split; [exact Hnum|]. split; [lia|auto].
  - unfold SdkAgent.numbered. rewrite Hm, Hc.
    split; [constructor|]. split; [intros m []|]. split; [lia|intros m []].
  - unfold SdkAgent.numbered. rewrite Hm, Hc, Hinc, List.map_app.
    cbn [List.map id]. split; [|split; [|split; [lia|]]].
    + apply NoDup_snoc; [|exact Hnd].
      intros Hin. apply in_map_iff in Hin as (m & E & Hin).
      destruct (Hnum m Hin) as (p' & n & En & Hp' & Hle).
      rewrite En in E. apply sdk_prefix_injective in E; [lia|assumption..].
    + intros m Hin. apply in_app_or in Hin as [Hin|[<-|[]]].
      * destruct (Hnum m Hin) as (p' & n & En & Hp' & Hle).
        exists p', n. split; [exact En|]. split; [exact Hp'|lia].
      * exists p, (N.succ (SdkAgent.messageIdCounter st)).
        split; [reflexivity|]. split; [exact Hp|lia].
    + intros m Hin. apply in_app_or in Hin as [Hin|[<-|[]]]; [left; exact Hin|].
      right. exists p, (N.succ (SdkAgent.messageIdCounter st)).
      split; [reflexivity|]. split; [exact Hp|lia].
Qed.

(** X20: in the hook built on the vendor SDK the identifiers come from
    a counter that no event resets: over every run of events, from any
    state of the hook, the counter never goes back (a new [start()]
    empties the transcript and leaves the counter alone) and grows by at
    most one per event. So, as long as the counter stays in the range
    where a Number counts exactly (up to [2^53]), the identifiers of the
    transcript stay distinct, whatever the events and however fast they
    come, and every entry that the run adds has a number above every
    number given out before the run: an identifier is never given out
    twice, in this session or a later one. *)
Theorem sdk_identifiers_distinct (evs : list SdkAgent.event)
    (st : SdkAgent.state) :
  List.NoDup (List.map id (SdkAgent.messages st)) ->
  SdkAgent.numbered st ->
  SdkAgent.messageIdCounter st + N.of_nat (length evs) <= 2 ^ 53 ->
  List.NoDup (List.map id (SdkAgent.messages (SdkAgent.run st evs)))
  /\ SdkAgent.numbered (SdkAgent.run st evs)
  /\ SdkAgent.messageIdCounter st
     <= SdkAgent.messageIdCounter (SdkAgent.run st evs)
     <= SdkAgent.messageIdCounter st + N.of_nat (length evs)
  /\ (forall m, In m (SdkAgent.messages (SdkAgent.run st evs)) ->
        In m (SdkAgent.messages st)
        \/ exists p n,
             id m = p ++ decimal n
             /\ (p = js "user-" \/ p = js "assistant-")
             /\ SdkAgent.messageIdCounter st < n
                <= SdkAgent.messageIdCounter (SdkAgent.run st evs)).
Proof.
  revert st. induction evs as [|ev evs IH]; intros st Hnd Hnum Hb.
  - cbn. split; [exact Hnd|]. split; [exact Hnum|]. split; [lia|auto].
  - cbn [length] in Hb.
    destruct (sdk_step_distinct st ev Hnd Hnum) as (Hnd' & Hnum' & Hc' & Hf');
      [lia|].
    destruct (IH (SdkAgent.step st ev) Hnd' Hnum') as (A & B & C & D); [lia|].
    unfold SdkAgent.run in *. cbn [fold_left length].
    split; [exact A|]. split; [exact B|]. split; [lia|].
    intros m Hm. destruct (D m Hm) as [Hin|(p & n & E & Hp & Hn)].
    + destruct (Hf' m Hin) as [Hin'|(p & n & E & Hp & Hn)]; [left; exact Hin'|].
      right. exists p, n. split; [exact E|]. split; [exact Hp|lia].
    + right. exists p, n. split; [exact E|]. split; [exact Hp|lia].
Qed.

Lemma sdk_identifiers_distinct_witness :
  let first := [SdkAgent.Start (Some (js "agent")); SdkAgent.SdkStatus true;
                SdkAgent.OnConnect;
                SdkAgent.OnMessage SdkAgent.fromAi
                  (js "[[CALL_EMERGENCY_CONTACT]]Patient unconscious");
                SdkAgent.OnMessage SdkAgent.fromAi
                  (js "[[CALL_EMERGENCY_CONTACT]]Second patient collapsed");
                SdkAgent.SendUserText (js "Help")] in
  let second := [SdkAgent.Stop; SdkAgent.Start (Some (js "agent"));
                 SdkAgent.OnMessage SdkAgent.fromAi (js "Hello again")] in
  List.map id (SdkAgent.messages (SdkAgent.run SdkAgent.initial first))
  = [js "assistant-1"; js "assistant-2"; js "user-3"]
  /\ List.map id (SdkAgent.messages
                    (SdkAgent.run (SdkAgent.run SdkAgent.initial first) second))
     = [js "assistant-4"]
  /\ List.NoDup
       (List.map id (SdkAgent.messages (SdkAgent.run SdkAgent.initial first)))
  /\ 3 <= SdkAgent.messageIdCounter
            (SdkAgent.run (SdkAgent.run SdkAgent.initial first) second).
Proof.
  intros first second.
  split; [vm_compute; reflexivity|]. split; [vm_compute; reflexivity|].
  assert (H0 : List.NoDup (List.map id (SdkAgent.messages SdkAgent.initial)))
    by constructor.
  assert (N0 : SdkAgent.numbered SdkAgent.initial) by (intros m []).
  destruct (sdk_identifiers_distinct first SdkAgent.initial H0 N0)
    as (A & B & C & _); [vm_compute; discriminate|].
  split; [exact A|].
  destruct (sdk_identifiers_distinct second
              (SdkAgent.run SdkAgent.initial first) A B)
    as (_ & _ & [C' _] & _); [vm_compute; discriminate|].
  exact C'.
Defined.

End SdkFacts.

(** *** Size of an audio message *)

Section PayloadFacts.
Import JS Codec.

Lemma padding_cases (k : nat) :
  padding (3 * k) = [] /\ padding (1 + k * 3) = [PAD; PAD]
  /\ padding (2 + k * 3) = [PAD].
Proof.
  unfold padding. rewrite mod3_0, !mod3_add. repeat split.
Qed.

(** X21: [int16ToBase64] succeeds on every block, and the text it
    returns has four units for every three bytes of the block, the
    last group being padded: a block of [n] samples gives
    [4 * ceil(2 n / 3)] units. *)
Theorem encoded_length (littleEndian : bool) (int16Array : list Z) :
  exists base64Audio,
    int16ToBase64 littleEndian int16Array = Some base64Audio
    /\ length base64Audio = (4 * ((2 * length int16Array + 2) / 3))%nat.
Proof.
  unfold int16ToBase64.
  destruct (atob_btoa _ (uint8View_bytes littleEndian int16Array)) as [-> _].
  eexists. split; [reflexivity|].
  rewrite length_app, length_map.
  pose proof (uint8View_length littleEndian int16Array) as Hlen.
  destruct (sextets_length (uint8View littleEndian int16Array))
    as [k [[Hb Hs]|[[Hb Hs]|[Hb Hs]]]];
    rewrite Hs, Hb; destruct (padding_cases k) as (P0 & P1 & P2);
    rewrite ?P0, ?P1, ?P2; cbn [length]; rewrite <- Hlen, Hb.
  - replace (3 * k + 2)%nat with (2 + k * 3)%nat by lia.
    rewrite Nat.div_add by discriminate. cbn. lia.
  - replace (1 + k * 3 + 2)%nat with (0 + (k + 1) * 3)%nat by lia.
    rewrite Nat.div_add by discriminate. cbn. lia.
  - replace (2 + k * 3 + 2)%nat with (1 + (k + 1) * 3)%nat by lia.
    rewrite Nat.div_add by discriminate. cbn. lia.
Qed.

Lemma encoded_length_witness :
  exists base64Audio,
    int16ToBase64 true (repeat 0%Z 1024) = Some base64Audio
    /\ length base64Audio = 2732%nat.
Proof.
  destruct (encoded_length true (repeat 0%Z 1024)) as (x & Hx & Hl).
  exists x. split; [exact Hx|]. rewrite Hl, repeat_length. reflexivity.
Defined.

End PayloadFacts.

(** *** Null refs *)

Section NullRefs.
Import JS Codec Agent Session.

















End NullRefs.

(** *** A links marker with nothing after it *)

Section TrailingMarker.
Import JS Parser.

Lemma startsWith_long (s x pat : jsstring) :
  (length pat <= length s)%nat -> startsWith (s ++ x) pat = startsWith s pat.
Proof.
  revert s. induction pat as [|p pat IH]; intros s H.
  - destruct (s ++ x), s; reflexivity.
  - destruct s as [|c s]; [cbn in H; lia|].
    cbn [app startsWith]. rewrite IH by (cbn in H; lia). reflexivity.
Qed.

(** The marker does not overlap itself: it cannot start inside a text
    that does not contain it and end inside a copy of the marker that
    follows. *)
Lemma marker_border_free (c : N) (s : jsstring) :
  includes (c :: s) LINKS = false ->
  startsWith ((c :: s) ++ LINKS) LINKS = false.
Proof.
  intros H. pose proof (includes_startsWith _ _ H) as Hs.
  destruct (le_lt_dec (length LINKS) (length (c :: s))) as [Hl|Hl].
  - rewrite startsWith_long by exact Hl. exact Hs.
  - clear H Hs. change LINKS with [91; 91; 76; 73; 78; 75; 83; 93; 93] in *.
    destruct s as [|c2 [|c3 [|c4 [|c5 [|c6 [|c7 [|c8 [|c9 r]]]]]]]];
      try (cbn in Hl; lia); clear Hl; cbn;
      repeat match goal with
             | |- context [?a =? ?b] => destruct (a =? b); cbn
             end; reflexivity.
Qed.

Lemma matchLinks_trailing (b : jsstring) :
  includes b LINKS = false -> matchLinks (b ++ LINKS) = None.
Proof.
  induction b as [|c b IH]; intros H; [vm_compute; reflexivity|].
  pose proof (marker_border_free c b H) as Hs.
  cbn [app] in *. cbn [matchLinks]. rewrite Hs.
  rewrite (IH (includes_tail _ _ _ H)). reflexivity.
Qed.

(** X23: a links marker at the very end of a message, with nothing
    after it, is not a links section: the message yields no resources
    and its display text is the raw text, marker included. *)
Theorem trailing_links_marker (b : jsstring) :
  includes b LINKS = false ->
  startsWith (b ++ LINKS) CALL_EMERGENCY_CONTACT = false ->
  parseAssistantMessage (b ++ LINKS)
  = {| text := b ++ LINKS; resources := []; triggerCall := false |}.
Proof.
  intros Hb Hc. unfold parseAssistantMessage.
  rewrite Hc, (matchLinks_trailing b Hb). reflexivity.
Qed.

Lemma trailing_links_marker_witness :
  parseAssistantMessage (js "Apply pressure to the wound. [[LINKS]]")
  = {| text := js "Apply pressure to the wound. [[LINKS]]";
       resources := []; triggerCall := false |}.
Proof.
  apply (trailing_links_marker (js "Apply pressure to the wound. "));
    vm_compute; reflexivity.
Defined.

End TrailingMarker.
